(** * Breakout (src/game.py): a shallow embedding and its verified properties

    The program is a tkinter game.  Its logic lives in four classes
    ([Game], [Ball], [Paddle], [Brick]) that mutate two shared stores: the
    Tk canvas (items addressed by integer handles) and the Python objects
    themselves (the ball is referenced from the game and from the paddle,
    the bricks from the [items] dictionary and from the list handed to
    [Ball.collide]).  Both stores are modelled explicitly, and every method
    is a computation in a state-and-exception monad over them.

    Numbers.  Canvas coordinates are Tk doubles.  Every coordinate the game
    produces is a small multiple of 1/2, on which double arithmetic is
    exact, so coordinates are modelled as rationals ([Q]); Python ints
    (lives, hit points, direction, speed) are [Z]. *)

From Stdlib Require Import ZArith QArith List String Lia.
From stdpp Require Import base option list gmap strings pretty.

Local Open Scope Z_scope.

(** ** The Tk canvas *)

Definition item := positive.

Inductive shape := Oval | Rectangle | Text.

Record CItem := mkCItem {
  ci_shape : shape;
  ci_coords : list Q;
  ci_fill : string;
  ci_tags : list string;
  ci_text : string;
  ci_font : option (string * Z)
}.

Record Canvas := mkCanvas {
  c_items : gmap item CItem;
  c_next : item;
  winfo_width : Z
}.

Definition set_coords (l : list Q) (it : CItem) : CItem :=
  mkCItem (ci_shape it) l (ci_fill it) (ci_tags it) (ci_text it) (ci_font it).

Definition set_fill (col : string) (it : CItem) : CItem :=
  mkCItem (ci_shape it) (ci_coords it) col (ci_tags it) (ci_text it) (ci_font it).

Definition set_text (s : string) (it : CItem) : CItem :=
  mkCItem (ci_shape it) (ci_coords it) (ci_fill it) (ci_tags it) s (ci_font it).

(** [canvas.move] adds the offsets to the x and y coordinates in turn. *)
Fixpoint move_coords (dx dy : Q) (l : list Q) : list Q :=
  match l with
  | x :: y :: r => (x + dx)%Q :: (y + dy)%Q :: move_coords dx dy r
  | _ => l
  end.

Module Tk.

(** Handles are handed out in increasing order and never reused. *)
Definition create (it : CItem) (c : Canvas) : item * Canvas :=
  (c_next c,
   mkCanvas (<[c_next c := it]> (c_items c)) (Pos.succ (c_next c))
            (winfo_width c)).

(** [canvas.coords(i)]: the empty list for a handle that names nothing. *)
Definition coords (i : item) (c : Canvas) : list Q :=
  match c_items c !! i with
  | Some it => ci_coords it
  | None => []
  end.

(** The operations below silently do nothing on an unknown handle. *)
Definition move (i : item) (dx dy : Q) (c : Canvas) : Canvas :=
  mkCanvas
    (alter (fun it => set_coords (move_coords dx dy (ci_coords it)) it) i
           (c_items c))
    (c_next c) (winfo_width c).

Definition delete (i : item) (c : Canvas) : Canvas :=
  mkCanvas (base.delete i (c_items c)) (c_next c) (winfo_width c).

Definition itemconfig_fill (i : item) (col : string) (c : Canvas) : Canvas :=
  mkCanvas (alter (set_fill col) i (c_items c)) (c_next c) (winfo_width c).

Definition itemconfig_text (i : item) (s : string) (c : Canvas) : Canvas :=
  mkCanvas (alter (set_text s) i (c_items c)) (c_next c) (winfo_width c).

Definition has_tag (tag : string) (it : CItem) : bool :=
  bool_decide (tag ∈ ci_tags it).

Definition find_withtag (tag : string) (c : Canvas) : list item :=
  (map_to_list (filter (fun kv => has_tag tag (snd kv) = true) (c_items c))).*1.

End Tk.

(** [canvas.find_overlapping] is answered by the toolkit from the rendered
    geometry of the items; the game only relies on receiving a list of
    handles, so it is an interface of the model. *)
Class Toolkit := {
  find_overlapping : Canvas -> Q -> Q -> Q -> Q -> list item
}.

(** ** Python objects *)

Definition loc := positive.

Inductive Obj :=
| BallObj (it : item) (radius : Z) (direction : Z * Z) (speed : option Z)
| PaddleObj (it : item) (width height : Z) (ball : option loc)
| BrickObj (it : item) (width height : Z) (hits : Z).

Definition obj_item (o : Obj) : item :=
  match o with
  | BallObj it _ _ _ | PaddleObj it _ _ _ | BrickObj it _ _ _ => it
  end.

(** What a Tk binding or timer runs. *)
Inductive callback :=
| CbSlide (offset : Q)
| CbStartGame
| CbGameLoop.

(** ** The whole program state: the canvas, the object heap, the fields of
    the single [Game] instance and the toolkit's bindings and timers. *)
Record World := mkWorld {
  canvas : Canvas;
  heap : gmap loc Obj;
  next_loc : loc;
  lives : Z;
  width : Z;
  height : Z;
  items : gmap item loc;
  ball : option loc;
  paddle : option loc;
  hud : option item;
  text : option item;
  bindings : gmap string callback;
  timers : list (Z * callback);
  elapsed : Z
}.

Definition with_canvas (c : Canvas) (w : World) : World :=
  mkWorld c (heap w) (next_loc w) (lives w) (width w) (height w) (items w)
          (ball w) (paddle w) (hud w) (text w) (bindings w) (timers w)
          (elapsed w).

Definition with_heap (h : gmap loc Obj) (w : World) : World :=
  mkWorld (canvas w) h (next_loc w) (lives w) (width w) (height w) (items w)
          (ball w) (paddle w) (hud w) (text w) (bindings w) (timers w)
          (elapsed w).

Definition with_next_loc (n : loc) (w : World) : World :=
  mkWorld (canvas w) (heap w) n (lives w) (width w) (height w) (items w)
          (ball w) (paddle w) (hud w) (text w) (bindings w) (timers w)
          (elapsed w).

Definition with_lives (n : Z) (w : World) : World :=
  mkWorld (canvas w) (heap w) (next_loc w) n (width w) (height w) (items w)
          (ball w) (paddle w) (hud w) (text w) (bindings w) (timers w)
          (elapsed w).

Definition with_size (wd ht : Z) (w : World) : World :=
  mkWorld (canvas w) (heap w) (next_loc w) (lives w) wd ht (items w)
          (ball w) (paddle w) (hud w) (text w) (bindings w) (timers w)
          (elapsed w).

Definition with_items (m : gmap item loc) (w : World) : World :=
  mkWorld (canvas w) (heap w) (next_loc w) (lives w) (width w) (height w) m
          (ball w) (paddle w) (hud w) (text w) (bindings w) (timers w)
          (elapsed w).

Definition with_ball (b : option loc) (w : World) : World :=
  mkWorld (canvas w) (heap w) (next_loc w) (lives w) (width w) (height w)
          (items w) b (paddle w) (hud w) (text w) (bindings w) (timers w)
          (elapsed w).

Definition with_paddle (p : option loc) (w : World) : World :=
  mkWorld (canvas w) (heap w) (next_loc w) (lives w) (width w) (height w)
          (items w) (ball w) p (hud w) (text w) (bindings w) (timers w)
          (elapsed w).

Definition with_hud (h : option item) (w : World) : World :=
  mkWorld (canvas w) (heap w) (next_loc w) (lives w) (width w) (height w)
          (items w) (ball w) (paddle w) h (text w) (bindings w) (timers w)
          (elapsed w).

Definition with_text (t : option item) (w : World) : World :=
  mkWorld (canvas w) (heap w) (next_loc w) (lives w) (width w) (height w)
          (items w) (ball w) (paddle w) (hud w) t (bindings w) (timers w)
          (elapsed w).

Definition with_bindings (b : gmap string callback) (w : World) : World :=
  mkWorld (canvas w) (heap w) (next_loc w) (lives w) (width w) (height w)
          (items w) (ball w) (paddle w) (hud w) (text w) b (timers w)
          (elapsed w).

Definition with_timers (t : list (Z * callback)) (w : World) : World :=
  mkWorld (canvas w) (heap w) (next_loc w) (lives w) (width w) (height w)
          (items w) (ball w) (paddle w) (hud w) (text w) (bindings w) t
          (elapsed w).

Definition with_elapsed (e : Z) (w : World) : World :=
  mkWorld (canvas w) (heap w) (next_loc w) (lives w) (width w) (height w)
          (items w) (ball w) (paddle w) (hud w) (text w) (bindings w)
          (timers w) e.

(** ** Computations: state plus Python exceptions

    A raised exception keeps the mutations made before it, as in Python.
    [Stuck] is not a Python exception: it marks a location without an
    object (or holding an object of a class the program never puts there),
    which no world built by the constructors below contains. *)

Inductive exn := KeyError | IndexError | TypeError | AttributeError | Stuck.

Inductive outcome (A : Type) :=
| Ret (a : A)
| Raise (e : exn).
Arguments Ret {A} a.
Arguments Raise {A} e.

Definition M (A : Type) : Type := World -> outcome A * World.

Definition ret {A} (a : A) : M A := fun w => (Ret a, w).

Definition raise {A} (e : exn) : M A := fun w => (Raise e, w).

Definition bind {A B} (m : M A) (k : A -> M B) : M B :=
  fun w =>
    match m w with
    | (Ret a, w') => k a w'
    | (Raise e, w') => (Raise e, w')
    end.

Definition gets {A} (f : World -> A) : M A := fun w => (Ret (f w), w).

Definition modify (f : World -> World) : M unit := fun w => (Ret tt, f w).

Notation "x <- m ;; k" := (bind m (fun x => k))
  (at level 20, m at level 99, k at level 200, only parsing).

(** Sequence indexing [l[i]] for a literal index [i >= 0]. *)
Definition index {A} (l : list A) (i : nat) : M A :=
  match l !! i with
  | Some x => ret x
  | None => raise IndexError
  end.

Definition deref (l : loc) : M Obj :=
  fun w =>
    match heap w !! l with
    | Some o => (Ret o, w)
    | None => (Raise Stuck, w)
    end.

Definition store (l : loc) (o : Obj) : M unit :=
  modify (fun w => with_heap (<[l := o]> (heap w)) w).

Definition alloc (o : Obj) : M loc :=
  fun w =>
    (Ret (next_loc w),
     with_next_loc (Pos.succ (next_loc w))
                   (with_heap (<[next_loc w := o]> (heap w)) w)).

Definition on_canvas (f : Canvas -> Canvas) : M unit :=
  modify (fun w => with_canvas (f (canvas w)) w).

Definition create (it : CItem) : M item :=
  fun w =>
    let (i, c) := Tk.create it (canvas w) in (Ret i, with_canvas c w).

Definition Qlt_bool (x y : Q) : bool := negb (Qle_bool y x).

(** Python's [for x in l: body]. *)
Fixpoint for_each {A} (l : list A) (body : A -> M unit) : M unit :=
  match l with
  | [] => ret tt
  | x :: r => _ <- body x ;; for_each r body
  end.

(** Python's [range(start, stop, step)] for a positive step. *)
Definition range (start stop step : Z) : list Z :=
  map (fun k => start + Z.of_nat k * step)
      (seq 0 (Z.to_nat ((stop - start + step - 1) / step))).

(** ** class GameObject *)
Module GameObject.

Definition get_position (self : loc) : M (list Q) :=
  o <- deref self ;;
  gets (fun w => Tk.coords (obj_item o) (canvas w)).

Definition move (self : loc) (x y : Q) : M unit :=
  o <- deref self ;;
  on_canvas (Tk.move (obj_item o) x y).

Definition delete (self : loc) : M unit :=
  o <- deref self ;;
  on_canvas (Tk.delete (obj_item o)).

End GameObject.

(** ** class Brick *)
Module Brick.

Definition COLORS : gmap Z string :=
  list_to_map [(1, "#999999"); (2, "#555555"); (3, "#222222")]%string.

(** [Brick.COLORS[hits]] *)
Definition color (hits : Z) : M string :=
  match COLORS !! hits with
  | Some c => ret c
  | None => raise KeyError
  end.

Definition init (x y : Q) (hits : Z) : M loc :=
  let width := 75 in
  let height := 20 in
  color <- color hits ;;
  it <- create (mkCItem Rectangle
                  [x - inject_Z width / 2; y - inject_Z height / 2;
                   x + inject_Z width / 2; y + inject_Z height / 2]%Q
                  color ["brick"%string] ""%string None) ;;
  alloc (BrickObj it width height hits).

Definition hit (self : loc) : M unit :=
  o <- deref self ;;
  match o with
  | BrickObj it wd ht hits =>
      _ <- store self (BrickObj it wd ht (hits - 1)) ;;
      if hits - 1 =? 0 then GameObject.delete self
      else
        c <- color (hits - 1) ;;
        on_canvas (Tk.itemconfig_fill it c)
  | _ => raise AttributeError
  end.

End Brick.

Definition is_brick (o : Obj) : bool :=
  match o with
  | BrickObj _ _ _ _ => true
  | _ => false
  end.

(** ** class Ball *)
Module Ball.

Definition init (x y : Q) : M loc :=
  let radius := 10 in
  it <- create (mkCItem Oval
                  [x - inject_Z radius; y - inject_Z radius;
                   x + inject_Z radius; y + inject_Z radius]%Q
                  "white"%string [] ""%string None) ;;
  alloc (BallObj it radius (1, -1) (Some 10)).

Definition get_direction (self : loc) : M (Z * Z) :=
  o <- deref self ;;
  match o with
  | BallObj _ _ d _ => ret d
  | _ => raise AttributeError
  end.

Definition set_direction (self : loc) (d : Z * Z) : M unit :=
  o <- deref self ;;
  match o with
  | BallObj it r _ s => store self (BallObj it r d s)
  | _ => raise AttributeError
  end.

Definition get_speed (self : loc) : M (option Z) :=
  o <- deref self ;;
  match o with
  | BallObj _ _ _ s => ret s
  | _ => raise AttributeError
  end.

(** [self.speed = v]; the program only ever assigns it on a ball. *)
Definition set_speed (self : loc) (v : option Z) : M unit :=
  o <- deref self ;;
  match o with
  | BallObj it r d _ => store self (BallObj it r d v)
  | _ => raise Stuck
  end.

(** [self.direction[0] *= -1] and [self.direction[1] *= -1] *)
Definition flip_x (self : loc) : M unit :=
  d <- get_direction self ;;
  set_direction self (fst d * -1, snd d).

Definition flip_y (self : loc) : M unit :=
  d <- get_direction self ;;
  set_direction self (fst d, snd d * -1).

(** [self.direction[0] = v] *)
Definition set_x (self : loc) (v : Z) : M unit :=
  d <- get_direction self ;;
  set_direction self (v, snd d).

(** [n * self.speed]: an int times [None] is a [TypeError]. *)
Definition times_speed (n : Z) (s : option Z) : M Z :=
  match s with
  | Some v => ret (n * v)
  | None => raise TypeError
  end.

Definition update (self : loc) : M unit :=
  position <- GameObject.get_position self ;;
  width <- gets (fun w => winfo_width (canvas w)) ;;
  p0 <- index position 0 ;;
  side <- (if Qle_bool p0 0 then ret true
           else p2 <- index position 2 ;;
                ret (Qle_bool (inject_Z width) p2)) ;;
  _ <- (if side : bool then flip_x self else ret tt) ;;
  p1 <- index position 1 ;;
  _ <- (if Qle_bool p1 0 then flip_y self else ret tt) ;;
  d <- get_direction self ;;
  s <- get_speed self ;;
  x <- times_speed (fst d) s ;;
  d' <- get_direction self ;;
  s' <- get_speed self ;;
  y <- times_speed (snd d') s' ;;
  GameObject.move self (inject_Z x) (inject_Z y).

Definition collide (self : loc) (game_objects : list loc) : M unit :=
  position <- GameObject.get_position self ;;
  p0 <- index position 0 ;;
  p2 <- index position 2 ;;
  let x := ((p0 + p2) * (1 # 2))%Q in
  _ <- (if (1 <? length game_objects)%nat then flip_y self
   else if (length game_objects =? 1)%nat then
     game_object <- index game_objects 0 ;;
     obj_pos <- GameObject.get_position game_object ;;
     o2 <- index obj_pos 2 ;;
     if Qlt_bool o2 x then set_x self 1
     else
       o0 <- index obj_pos 0 ;;
       if Qlt_bool x o0 then set_x self (-1)
       else flip_y self
   else ret tt) ;;
  for_each game_objects (fun game_object =>
    o <- deref game_object ;;
    if is_brick o then Brick.hit game_object else ret tt).

End Ball.

(** ** class Paddle *)
Module Paddle.

Definition init (x y : Q) : M loc :=
  let width := 80 in
  let height := 10 in
  it <- create (mkCItem Rectangle
                  [x - inject_Z width / 2; y - inject_Z height / 2;
                   x + inject_Z width / 2; y + inject_Z height / 2]%Q
                  "blue"%string [] ""%string None) ;;
  alloc (PaddleObj it width height None).

Definition get_ball (self : loc) : M (option loc) :=
  o <- deref self ;;
  match o with
  | PaddleObj _ _ _ b => ret b
  | _ => raise AttributeError
  end.

Definition set_ball (self : loc) (ball : option loc) : M unit :=
  o <- deref self ;;
  match o with
  | PaddleObj it wd ht _ => store self (PaddleObj it wd ht ball)
  | _ => raise Stuck
  end.

Definition slide (self : loc) (offset : Q) : M unit :=
  coordinates <- GameObject.get_position self ;;
  width <- gets (fun w => winfo_width (canvas w)) ;;
  c0 <- index coordinates 0 ;;
  inside <- (if Qle_bool 0 (c0 + offset)
             then c2 <- index coordinates 2 ;;
                  ret (Qle_bool (c2 + offset) (inject_Z width))
             else ret false) ;;
  _ <- (if inside : bool then GameObject.move self offset 0 else ret tt) ;;
  b <- get_ball self ;;
  match b with
  | Some b => GameObject.move b offset 0
  | None => ret tt
  end.

End Paddle.

(** ** class Game *)
Module Game.

(** [self.ball] and [self.paddle] used as a receiver: [None] has no
    attributes. *)
Definition the_ball : M loc :=
  b <- gets ball ;;
  match b with
  | Some b => ret b
  | None => raise AttributeError
  end.

Definition the_paddle : M loc :=
  p <- gets paddle ;;
  match p with
  | Some p => ret p
  | None => raise AttributeError
  end.

(** [self.after(ms, func)]: with a callback it registers a timer; with
    [None] in place of the callback tkinter blocks for [ms]. *)
Definition after (ms : Z) (func : option callback) : M unit :=
  match func with
  | Some cb => modify (fun w => with_timers (timers w ++ [(ms, cb)]) w)
  | None => modify (fun w => with_elapsed (elapsed w + ms) w)
  end.

Definition bind_key (key : string) (cb : callback) : M unit :=
  modify (fun w => with_bindings (<[key := cb]> (bindings w)) w).

Definition unbind (key : string) : M unit :=
  modify (fun w => with_bindings (base.delete key (bindings w)) w).

Definition draw_text (x y : Q) (text : string) (size : Z) : M item :=
  let font := ("Helvetica"%string, size) in
  create (mkCItem Text [x; y] "black"%string [] text (Some font)).

Definition update_lives_text : M unit :=
  n <- gets lives ;;
  let text := ("Lives: " ++ pretty n)%string in
  h <- gets hud ;;
  match h with
  | None =>
      i <- draw_text 50 20 text 15 ;;
      modify (with_hud (Some i))
  | Some i => on_canvas (Tk.itemconfig_text i text)
  end.

Definition add_ball : M unit :=
  old <- gets ball ;;
  _ <- match old with
       | Some b => GameObject.delete b
       | None => ret tt
       end ;;
  p <- the_paddle ;;
  paddle_pos <- GameObject.get_position p ;;
  p0 <- index paddle_pos 0 ;;
  p2 <- index paddle_pos 2 ;;
  let x := ((p0 + p2) * (1 # 2))%Q in
  b <- Ball.init x 310 ;;
  _ <- modify (with_ball (Some b)) ;;
  p <- the_paddle ;;
  Paddle.set_ball p (Some b).

Definition add_brick (x y : Q) (hits : Z) : M unit :=
  brick <- Brick.init x y hits ;;
  o <- deref brick ;;
  modify (fun w => with_items (<[obj_item o := brick]> (items w)) w).

Definition setup_game : M unit :=
  _ <- add_ball ;;
  _ <- update_lives_text ;;
  t <- draw_text 300 200 "Press Space to start" 40 ;;
  _ <- modify (with_text (Some t)) ;;
  bind_key "<space>" CbStartGame.

Definition check_collisions `{Toolkit} : M unit :=
  b <- the_ball ;;
  ball_pos <- GameObject.get_position b ;;
  found <- match ball_pos with
           | [x1; y1; x2; y2] =>
               gets (fun w => find_overlapping (canvas w) x1 y1 x2 y2)
           | _ => raise TypeError
           end ;;
  objects <- gets (fun w => omap (fun x => items w !! x) found) ;;
  b <- the_ball ;;
  Ball.collide b objects.

Definition game_loop `{Toolkit} : M unit :=
  _ <- check_collisions ;;
  num_bricks <- gets (fun w => length (Tk.find_withtag "brick" (canvas w))) ;;
  if (num_bricks =? 0)%nat then
    b <- the_ball ;;
    _ <- Ball.set_speed b None ;;
    _ <- draw_text 300 200 "You win!" 40 ;;
    ret tt
  else
    b <- the_ball ;;
    pos <- GameObject.get_position b ;;
    bottom <- index pos 3 ;;
    h <- gets height ;;
    if Qle_bool (inject_Z h) bottom then
      b <- the_ball ;;
      _ <- Ball.set_speed b None ;;
      _ <- modify (fun w => with_lives (lives w - 1) w) ;;
      n <- gets lives ;;
      if n <=? 0 then
        _ <- draw_text 300 200 "Game Over" 40 ;;
        ret tt
      else
        _ <- setup_game ;;
        after 1000 None
    else
      b <- the_ball ;;
      _ <- Ball.update b ;;
      after 50 (Some CbGameLoop).

Definition start_game `{Toolkit} : M unit :=
  _ <- unbind "<space>" ;;
  t <- gets text ;;
  _ <- match t with
       | Some i => on_canvas (Tk.delete i)
       | None => ret tt
       end ;;
  p <- the_paddle ;;
  _ <- Paddle.set_ball p None ;;
  game_loop.

(** The state before [__init__] runs: an empty canvas whose widget
    reports width [w0], no objects, no attributes. *)
Definition blank (w0 : Z) : World :=
  mkWorld (mkCanvas ∅ 1%positive w0) ∅ 1%positive 0 0 0 ∅ None None None
          None ∅ [] 0.

Definition init : M unit :=
  _ <- modify (with_lives 3) ;;
  _ <- modify (with_size 600 400) ;;
  _ <- modify (with_items ∅) ;;
  _ <- modify (with_ball None) ;;
  wd <- gets width ;;
  p <- Paddle.init (inject_Z wd / 2) 326 ;;
  _ <- modify (with_paddle (Some p)) ;;
  o <- deref p ;;
  _ <- modify (fun w => with_items (<[obj_item o := p]> (items w)) w) ;;
  wd <- gets width ;;
  _ <- for_each (range 5 (wd - 5) 75) (fun x =>
         _ <- add_brick (inject_Z x + (75 # 2)) 50 3 ;;
         _ <- add_brick (inject_Z x + (75 # 2)) 70 2 ;;
         add_brick (inject_Z x + (75 # 2)) 90 1) ;;
  _ <- modify (with_hud None) ;;
  _ <- modify (with_text None) ;;
  _ <- setup_game ;;
  _ <- bind_key "<Left>" (CbSlide (-10)) ;;
  bind_key "<Right>" (CbSlide 10).

(** Running a registered callback. *)
Definition fire `{Toolkit} (cb : callback) : M unit :=
  match cb with
  | CbSlide offset => p <- the_paddle ;; Paddle.slide p offset
  | CbStartGame => start_game
  | CbGameLoop => game_loop
  end.

End Game.

(** A sample toolkit for running the model: an item overlaps the query
    rectangle when its coordinate box meets it. *)
Definition box_meets (x1 y1 x2 y2 : Q) (it : CItem) : bool :=
  match ci_coords it with
  | [a1; b1; a2; b2] =>
      Qle_bool a1 x2 && Qle_bool x1 a2 && Qle_bool b1 y2 && Qle_bool y1 b2
  | _ => false
  end.

Definition box_toolkit : Toolkit :=
  {| find_overlapping c x1 y1 x2 y2 :=
       (map_to_list
          (filter (fun kv => box_meets x1 y1 x2 y2 (snd kv) = true)
                  (c_items c))).*1 |}.

(** * Vocabulary of the statements *)

(** The loop at the end of [Ball.collide]. *)
Definition hit_bricks (game_objects : list loc) : M unit :=
  for_each game_objects (fun game_object =>
    bind (deref game_object) (fun o =>
      if is_brick o then Brick.hit game_object else ret tt)).

(** What one hit leaves of an object: a brick loses a point, anything else
    is skipped by the [isinstance] test. *)
Definition after_hit (o : Obj) : Obj :=
  match o with
  | BrickObj i wd ht h => BrickObj i wd ht (h - 1)
  | _ => o
  end.

(** A brick holds one of the counts its constructor accepts. *)
Definition sound_brick (o : Obj) : Prop :=
  forall i wd ht h, o = BrickObj i wd ht h -> 1 <= h <= 3.

(** An object that is on the heap, drawn on the canvas with four
    coordinates and, if it is a brick, holds a constructor-valid count. *)
Definition drawn (w : World) (l : loc) : Prop :=
  exists o a0 a1 a2 a3,
    heap w !! l = Some o /\
    Tk.coords (obj_item o) (canvas w) = [a0; a1; a2; a3] /\
    sound_brick o.

(** The guard of [Paddle.slide]. *)
Definition fits (w : World) (x0 x1 offset : Q) : bool :=
  Qle_bool 0 (x0 + offset) &&
  Qle_bool (x1 + offset) (inject_Z (winfo_width (canvas w))).

(** What a paddle needs for [slide] to run: it is drawn, and an attached
    ball is an object with a canvas item of its own. *)
Record paddle_ready (w : World) (p : loc) (it : item) (x0 y0 x1 y1 : Q)
  : Prop := {
  pr_obj : exists wd ht bl,
      heap w !! p = Some (PaddleObj it wd ht bl) /\
      forall b, bl = Some b ->
        exists o, heap w !! b = Some o /\ obj_item o <> it;
  pr_coords : Tk.coords it (canvas w) = [x0; y0; x1; y1]
}.

(** [hoare P m Q E]: started in a world satisfying [P], the computation [m]
    returns [a] in a world satisfying [Q a], or raises in a world
    satisfying [E]. *)
Definition hoare {A} (P : World -> Prop) (m : M A)
    (Q : A -> World -> Prop) (E : World -> Prop) : Prop :=
  forall w, P w ->
    match m w with
    | (Ret a, w') => Q a w'
    | (Raise _, w') => E w'
    end.

(** [keeps I m]: [m] ends, normally or by an exception, in a world
    satisfying [I] whenever it starts in one. *)
Definition keeps {A} (I : World -> Prop) (m : M A) : Prop :=
  hoare I m (fun _ => I) I.

(** An invariant [I] that constrains, at most, the directions of the balls
    on the heap (by [okdir]), the lives, the timers and the position of
    canvas items: it tolerates every update made by code that neither moves
    an item nor is [game_loop] itself. *)
Class Tolerant (I : World -> Prop) (okdir : Z * Z -> Prop) : Prop := {
  tol_create : forall w it,
      I w -> I (with_canvas (snd (Tk.create it (canvas w))) w);
  tol_delete : forall w i, I w -> I (with_canvas (Tk.delete i (canvas w)) w);
  tol_fill : forall w i c,
      I w -> I (with_canvas (Tk.itemconfig_fill i c (canvas w)) w);
  tol_text : forall w i t,
      I w -> I (with_canvas (Tk.itemconfig_text i t (canvas w)) w);
  tol_read : forall w l it r d s,
      I w -> heap w !! l = Some (BallObj it r d s) -> okdir d;
  tol_store : forall w l o n,
      I w -> (forall it r d s, o = BallObj it r d s -> okdir d) ->
      I (with_next_loc n (with_heap (<[l := o]> (heap w)) w));
  tol_fields : forall w wd ht its bl pd hd tx bd el,
      I w ->
      I (mkWorld (canvas w) (heap w) (next_loc w) (lives w) wd ht its bl pd
                 hd tx bd (timers w) el);
  tol_init : okdir (1, -1);
  tol_flip_x : forall d, okdir d -> okdir (fst d * -1, snd d);
  tol_flip_y : forall d, okdir d -> okdir (fst d, snd d * -1);
  tol_set_x : forall d v, v = 1 \/ v = -1 -> okdir d -> okdir (v, snd d)
}.

(** Both components are -1 or +1. *)
Definition unit_direction (d : Z * Z) : Prop :=
  (fst d = 1 \/ fst d = -1) /\ (snd d = 1 \/ snd d = -1).

(** Every ball on the heap has both direction components in {-1, +1}. *)
Definition balls_ok (w : World) : Prop :=
  forall l it r d s, heap w !! l = Some (BallObj it r d s) -> unit_direction d.

(** The part of a tick that follows [check_collisions]. *)
Definition after_collisions : M unit :=
  bind (gets (fun w => length (Tk.find_withtag "brick" (canvas w))))
    (fun num_bricks =>
  if (num_bricks =? 0)%nat then
    bind Game.the_ball (fun b =>
    bind (Ball.set_speed b None) (fun _ =>
    bind (Game.draw_text 300 200 "You win!" 40) (fun _ => ret tt)))
  else
    bind Game.the_ball (fun b =>
    bind (GameObject.get_position b) (fun pos =>
    bind (index pos 3) (fun bottom =>
    bind (gets height) (fun h =>
    if Qle_bool (inject_Z h) bottom then
      bind Game.the_ball (fun b =>
      bind (Ball.set_speed b None) (fun _ =>
      bind (modify (fun w => with_lives (lives w - 1) w)) (fun _ =>
      bind (gets lives) (fun n =>
      if n <=? 0 then
        bind (Game.draw_text 300 200 "Game Over" 40) (fun _ => ret tt)
      else
        bind Game.setup_game (fun _ => Game.after 1000 None)))))
    else
      bind Game.the_ball (fun b =>
      bind (Ball.update b) (fun _ =>
      Game.after 50 (Some CbGameLoop)))))))).

(** The canvas items [draw_text], [update_lives_text] and [Ball.__init__]
    create. *)
Definition message (s : string) : CItem :=
  mkCItem Text [300; 200]%Q "black" [] s (Some ("Helvetica"%string, 40)).

Definition ball_item (x y : Q) : CItem :=
  mkCItem Oval
    [x - inject_Z 10; y - inject_Z 10; x + inject_Z 10; y + inject_Z 10]%Q
    "white" [] "" None.

(** What [setup_game] does once the ball is in place. *)
Definition after_add_ball : M unit :=
  bind Game.update_lives_text (fun _ =>
  bind (Game.draw_text 300 200 "Press Space to start" 40) (fun t =>
  bind (modify (with_text (Some t))) (fun _ =>
  Game.bind_key "<space>" CbStartGame))).

Definition lives_item (n : Z) : CItem :=
  mkCItem Text [50; 20]%Q "black" [] ("Lives: " ++ pretty n)
          (Some ("Helvetica"%string, 15)).

(** The canvas after [update_lives_text]. *)
Definition hud_canvas (w : World) : Canvas :=
  match hud w with
  | None => snd (Tk.create (lives_item (lives w)) (canvas w))
  | Some i => Tk.itemconfig_text i ("Lives: " ++ pretty (lives w)) (canvas w)
  end.

(** Item [it] has not been moved: it is where it was, or gone; and the
    timers are as they were. *)
Definition unmoved (it : item) (c0 : list Q) (t : list (Z * callback))
    (w : World) : Prop :=
  (it < c_next (canvas w))%positive /\
  (Tk.coords it (canvas w) = c0 \/ Tk.coords it (canvas w) = []) /\
  timers w = t.

(** * Sample runs *)

(** The state [Game.__init__] builds, in a window whose canvas reports a
    width of 604. *)
Definition world0 : World := snd (Game.init (Game.blank 604)).

(** Presses of the left arrow before the game is started: the paddle stops
    at the left wall after twenty-six of them, the attached ball does not. *)
Definition press_left (n : nat) : M unit :=
  for_each (repeat (CbSlide (-10)) n) (@Game.fire box_toolkit).

Definition world_left : World := snd (press_left 29 world0).

(** Tk's main loop, as far as timers go: take the oldest timer and run its
    callback. *)
Definition next_timer `{Toolkit} : M unit :=
  bind (gets timers) (fun ts =>
  match ts with
  | [] => ret tt
  | (_, cb) :: rest => bind (modify (with_timers rest)) (fun _ => Game.fire cb)
  end).

Fixpoint mainloop `{Toolkit} (n : nat) : M unit :=
  match n with
  | O => ret tt
  | S k => bind next_timer (fun _ => mainloop k)
  end.

(** The game right after the space key started it, with the paddle never
    moved: the ball reaches the brick at column 6 of the bottom row when the
    20th tick is due, and the bottom of the canvas when the 48th is. *)
Definition started : World := snd (@Game.fire box_toolkit CbStartGame world0).

Definition world_at (n : nat) : World :=
  with_timers [] (snd (@mainloop box_toolkit n started)).

Definition world_hit : World := world_at 19.

Definition world_falling : World := world_at 47.

(** The same two moments with a single brick, respectively a single life,
    left. *)
Definition world_last_brick : World :=
  with_canvas
    (foldr Tk.delete (canvas world_hit)
       (filter (fun i => i <> 22%positive)
               (Tk.find_withtag "brick" (canvas world_hit))))
    world_hit.

Definition world_last_life : World := with_lives 1 world_falling.

(** A brick that has been destroyed: brick 4 of the initial state after its
    only hit. *)
Definition world_dead : World := snd (Brick.hit 4%positive world0).

(** * The game as a run of events *)

(** What the game relies on from [find_overlapping]: it reports handles of
    items that exist, each once. *)
Class LawfulToolkit (T : Toolkit) : Prop := {
  overlapping_exists : forall c x1 y1 x2 y2 (i : item),
      i ∈ find_overlapping c x1 y1 x2 y2 -> is_Some (c_items c !! i);
  overlapping_NoDup : forall c x1 y1 x2 y2,
      NoDup (find_overlapping c x1 y1 x2 y2)
}.

(** What Tk's main loop delivers: a key press, which runs the callback bound
    to the key if there is one, or the oldest timer falling due. *)
Inductive event :=
| Key (key : string)
| Timer.

Definition handle `{Toolkit} (e : event) : M unit :=
  match e with
  | Key key =>
      bind (gets bindings) (fun b =>
      match b !! key with
      | Some cb => Game.fire cb
      | None => ret tt
      end)
  | Timer => next_timer
  end.

Definition play `{Toolkit} (es : list event) : M unit := for_each es handle.

(** [Game(root)] in a window whose canvas reports width [w0]. *)
Definition new_game (w0 : Z) : World := snd (Game.init (Game.blank w0)).

(** A registered object as the canvas shows it: a paddle is drawn; a brick
    is drawn, tagged and colored by a count in 1..3, or gone with count 0. *)
Definition listed (w : World) (o : Obj) : Prop :=
  match o with
  | BallObj _ _ _ _ => False
  | PaddleObj i _ _ _ => length (Tk.coords i (canvas w)) = 4%nat
  | BrickObj i _ _ hits =>
      match c_items (canvas w) !! i with
      | Some ci =>
          1 <= hits <= 3 /\ Brick.COLORS !! hits = Some (ci_fill ci) /\
          length (ci_coords ci) = 4%nat /\ "brick"%string ∈ ci_tags ci
      | None => hits = 0
      end
  end.

(** The shape of the stores between two callbacks: [b] is the game's ball,
    drawn as item [bit]; [p] the paddle, drawn as [pit]; [h] the HUD item,
    showing [n] lives. *)
Record core (w : World) (b : loc) (bit : item) (p : loc) (pit : item)
    (h : item) (n : Z) : Prop := {
  c_heap_lt : forall (l : loc) o, heap w !! l = Some o -> (l < next_loc w)%positive;
  c_canvas_lt : forall (i : item) ci,
      c_items (canvas w) !! i = Some ci -> (i < c_next (canvas w))%positive;
  c_items_lt : forall (i : item) (l : loc),
      items w !! i = Some l -> (i < c_next (canvas w))%positive;
  c_listed : forall (i : item) (l : loc),
      items w !! i = Some l ->
      exists o, heap w !! l = Some o /\ obj_item o = i /\ listed w o;
  c_tagged : forall (i : item) ci,
      c_items (canvas w) !! i = Some ci -> "brick"%string ∈ ci_tags ci ->
      exists (l : loc) wd ht hits,
        items w !! i = Some l /\ heap w !! l = Some (BrickObj i wd ht hits);
  c_ball : ball w = Some b;
  c_ball_obj : exists r d s, heap w !! b = Some (BallObj bit r d s);
  c_ball_box : length (Tk.coords bit (canvas w)) = 4%nat;
  c_ball_free : items w !! bit = None;
  c_paddle : paddle w = Some p;
  c_paddle_obj : exists pb,
      heap w !! p = Some (PaddleObj pit 80 10 pb) /\ (pb = None \/ pb = Some b);
  c_paddle_reg : items w !! pit = Some p;
  c_hud : hud w = Some h;
  c_hud_item : exists ci,
      c_items (canvas w) !! h = Some ci /\
      ci_text ci = ("Lives: " ++ pretty n)%string;
  c_hud_free : h <> bit /\ items w !! h = None;
  c_text : forall t : item,
      text w = Some t ->
      t <> bit /\ t <> h /\ items w !! t = None /\
      (t < c_next (canvas w))%positive;
  c_keys : forall k cb,
      bindings w !! k = Some cb ->
      (k = "<Left>"%string /\ cb = CbSlide (-10)) \/
      (k = "<Right>"%string /\ cb = CbSlide 10) \/
      (k = "<space>"%string /\ cb = CbStartGame)
}.

(** The three phases of the game: stopped (won or over), waiting for the
    space key, and running with one tick pending. *)
Definition phase (w : World) (s : option Z) : Prop :=
  (timers w = [] /\ bindings w !! "<space>"%string = None) \/
  (timers w = [] /\ bindings w !! "<space>"%string = Some CbStartGame /\
   is_Some s /\ 1 <= lives w) \/
  (timers w = [(50, CbGameLoop)] /\ bindings w !! "<space>"%string = None /\
   is_Some s /\ 1 <= lives w).

Definition sane (w : World) : Prop :=
  exists (b : loc) (bit : item) (p : loc) (pit h : item) r d s,
    core w b bit p pit h (Z.max (lives w) 1) /\
    heap w !! b = Some (BallObj bit r d s) /\
    phase w s /\
    0 <= lives w <= 3.

(** A canvas whose items kept their handles and everything but their
    coordinates, which kept their number. *)
Definition retouched (c c' : Canvas) : Prop :=
  c_next c' = c_next c /\
  forall i : item,
    match c_items c !! i, c_items c' !! i with
    | Some a, Some a' =>
        ci_fill a' = ci_fill a /\ ci_tags a' = ci_tags a /\
        ci_text a' = ci_text a /\
        length (ci_coords a') = length (ci_coords a)
    | None, None => True
    | _, _ => False
    end.

(** Nothing but the heap and the canvas changed. *)
Definition quiet (w w' : World) : Prop :=
  lives w' = lives w /\ timers w' = timers w /\
  bindings w' = bindings w /\ height w' = height w.

(** The state in which a tick runs: its timer has been taken off the
    queue (or the space key has just been unbound), the ball has a numeric
    speed and a life is left. *)
Definition ready (w : World) (s : option Z) : Prop :=
  timers w = [] /\ bindings w !! "<space>"%string = None /\
  is_Some s /\ 1 <= lives w <= 3.

(** A ball played without touching the paddle: the space key, then [n]
    timers; and a whole game of three such balls. *)
Definition round (n : nat) : list event := Key "<space>" :: repeat Timer n.

Definition three_rounds : list event := round 60 ++ round 60 ++ round 60.

(** * Properties *)

(** ** Running computations *)

Lemma bind_ret {A B} (m : M A) (k : A -> M B) w a w' :
  m w = (Ret a, w') -> bind m k w = k a w'.
Proof. intros E. unfold bind. now rewrite E. Qed.

Lemma bind_raise {A B} (m : M A) (k : A -> M B) w e w' :
  m w = (Raise e, w') -> bind m k w = (Raise e, w').
Proof. intros E. unfold bind. now rewrite E. Qed.

Lemma deref_some l o w : heap w !! l = Some o -> deref l w = (Ret o, w).
Proof. intros E. unfold deref. now rewrite E. Qed.

Lemma get_position_some l o w :
  heap w !! l = Some o ->
  GameObject.get_position l w = (Ret (Tk.coords (obj_item o) (canvas w)), w).
Proof.
  intros E. unfold GameObject.get_position.
  now rewrite (bind_ret _ _ _ _ _ (deref_some _ _ _ E)).
Qed.

Lemma move_some l o x y w :
  heap w !! l = Some o ->
  GameObject.move l x y w =
  (Ret tt, with_canvas (Tk.move (obj_item o) x y (canvas w)) w).
Proof.
  intros E. unfold GameObject.move.
  now rewrite (bind_ret _ _ _ _ _ (deref_some _ _ _ E)).
Qed.

Lemma delete_some l o w :
  heap w !! l = Some o ->
  GameObject.delete l w =
  (Ret tt, with_canvas (Tk.delete (obj_item o) (canvas w)) w).
Proof.
  intros E. unfold GameObject.delete.
  now rewrite (bind_ret _ _ _ _ _ (deref_some _ _ _ E)).
Qed.

Lemma world_eta w :
  mkWorld (canvas w) (heap w) (next_loc w) (lives w) (width w) (height w)
          (items w) (ball w) (paddle w) (hud w) (text w) (bindings w)
          (timers w) (elapsed w) = w.
Proof. now destruct w. Qed.

Lemma with_heap_id w h : h = heap w -> with_heap h w = w.
Proof. intros ->. apply world_eta. Qed.

Lemma store_same l o w : heap w !! l = Some o -> store l o w = (Ret tt, w).
Proof.
  intros E. unfold store, modify. f_equal.
  apply with_heap_id. now apply insert_id.
Qed.

Lemma bind_gets {A B} (f : World -> A) (k : A -> M B) w :
  bind (gets f) k w = k (f w) w.
Proof. reflexivity. Qed.

Lemma bind_modify {B} (f : World -> World) (k : unit -> M B) w :
  bind (modify f) k w = k tt (f w).
Proof. reflexivity. Qed.

Lemma bind_pure {A B} (a : A) (k : A -> M B) w : bind (ret a) k w = k a w.
Proof. reflexivity. Qed.

Lemma bind_index {A B} (l : list A) i x (k : A -> M B) w :
  l !! i = Some x -> bind (index l i) k w = k x w.
Proof. intros E. unfold bind, index. now rewrite E. Qed.

Lemma bind_assoc {A B C} (m : M A) (k : A -> M B) (h : B -> M C) w :
  bind (bind m k) h w = bind m (fun a => bind (k a) h) w.
Proof. unfold bind. destruct (m w) as [[a|e] w']; reflexivity. Qed.

(** ** Attribute access on a ball *)

Section BallAttributes.
Variables (w : World) (b : loc) (it : item) (r dx dy : Z) (s : option Z).
Hypothesis Hb : heap w !! b = Some (BallObj it r (dx, dy) s).

Lemma get_direction_ball : Ball.get_direction b w = (Ret (dx, dy), w).
Proof.
  unfold Ball.get_direction.
  now rewrite (bind_ret _ _ _ _ _ (deref_some _ _ _ Hb)).
Qed.

Lemma get_speed_ball : Ball.get_speed b w = (Ret s, w).
Proof.
  unfold Ball.get_speed.
  now rewrite (bind_ret _ _ _ _ _ (deref_some _ _ _ Hb)).
Qed.

Lemma set_direction_ball d :
  Ball.set_direction b d w =
  (Ret tt, with_heap (<[b := BallObj it r d s]> (heap w)) w).
Proof.
  unfold Ball.set_direction.
  now rewrite (bind_ret _ _ _ _ _ (deref_some _ _ _ Hb)).
Qed.

Lemma set_speed_ball v :
  Ball.set_speed b v w =
  (Ret tt, with_heap (<[b := BallObj it r (dx, dy) v]> (heap w)) w).
Proof.
  unfold Ball.set_speed.
  now rewrite (bind_ret _ _ _ _ _ (deref_some _ _ _ Hb)).
Qed.

Lemma flip_x_ball :
  Ball.flip_x b w =
  (Ret tt, with_heap (<[b := BallObj it r (dx * -1, dy) s]> (heap w)) w).
Proof.
  unfold Ball.flip_x. rewrite (bind_ret _ _ _ _ _ get_direction_ball).
  apply set_direction_ball.
Qed.

Lemma flip_y_ball :
  Ball.flip_y b w =
  (Ret tt, with_heap (<[b := BallObj it r (dx, dy * -1) s]> (heap w)) w).
Proof.
  unfold Ball.flip_y. rewrite (bind_ret _ _ _ _ _ get_direction_ball).
  apply set_direction_ball.
Qed.

Lemma set_x_ball v :
  Ball.set_x b v w =
  (Ret tt, with_heap (<[b := BallObj it r (v, dy) s]> (heap w)) w).
Proof.
  unfold Ball.set_x. rewrite (bind_ret _ _ _ _ _ get_direction_ball).
  apply set_direction_ball.
Qed.

Lemma when_flip_x (c : bool) :
  (if c then Ball.flip_x b else ret tt) w =
  (Ret tt,
   with_heap (<[b := BallObj it r (if c then dx * -1 else dx, dy) s]>
                (heap w)) w).
Proof.
  destruct c; [apply flip_x_ball|].
  unfold ret. f_equal. symmetry. apply with_heap_id. now apply insert_id.
Qed.

Lemma when_flip_y (c : bool) :
  (if c then Ball.flip_y b else ret tt) w =
  (Ret tt,
   with_heap (<[b := BallObj it r (dx, if c then dy * -1 else dy) s]>
                (heap w)) w).
Proof.
  destruct c; [apply flip_y_ball|].
  unfold ret. f_equal. symmetry. apply with_heap_id. now apply insert_id.
Qed.

End BallAttributes.

Lemma heap_with_heap h w : heap (with_heap h w) = h.
Proof. reflexivity. Qed.

Lemma with_heap_twice h1 h2 w : with_heap h2 (with_heap h1 w) = with_heap h2 w.
Proof. reflexivity. Qed.

Lemma Qle_bool_false x y : Qle_bool x y = false <-> ~ (x <= y)%Q.
Proof.
  rewrite <- Qle_bool_iff. destruct (Qle_bool x y); split; intros; congruence.
Qed.

(** ** Ball.update *)

Lemma update_run (w : World) (b : loc) it r dx dy s x0 y0 x1 y1 :
  heap w !! b = Some (BallObj it r (dx, dy) (Some s)) ->
  Tk.coords it (canvas w) = [x0; y0; x1; y1] ->
  exists dx' dy',
    ((x0 <= 0 \/ inject_Z (winfo_width (canvas w)) <= x1)%Q -> dx' = - dx) /\
    (~ (x0 <= 0 \/ inject_Z (winfo_width (canvas w)) <= x1)%Q -> dx' = dx) /\
    ((y0 <= 0)%Q -> dy' = - dy) /\
    (~ (y0 <= 0)%Q -> dy' = dy) /\
    Ball.update b w =
      (Ret tt,
       with_canvas
         (Tk.move it (inject_Z (dx' * s)) (inject_Z (dy' * s)) (canvas w))
         (with_heap (<[b := BallObj it r (dx', dy') (Some s)]> (heap w)) w)) /\
    Tk.coords it
      (Tk.move it (inject_Z (dx' * s)) (inject_Z (dy' * s)) (canvas w)) =
    [x0 + inject_Z (dx' * s); y0 + inject_Z (dy' * s);
     x1 + inject_Z (dx' * s); y1 + inject_Z (dy' * s)]%Q.
Proof.
  intros Hb Hc.
  set (W := inject_Z (winfo_width (canvas w))).
  set (c1 := Qle_bool x0 0 || Qle_bool W x1).
  set (c2 := Qle_bool y0 0).
  exists (if c1 then dx * -1 else dx), (if c2 then dy * -1 else dy).
  repeat split.
  - intros H. assert (c1 = true) as ->; [|lia].
    subst c1. apply orb_true_iff. rewrite !Qle_bool_iff. exact H.
  - intros H. assert (c1 = false) as ->; [|lia].
    subst c1. apply orb_false_iff. rewrite !Qle_bool_false. tauto.
  - intros H. assert (c2 = true) as ->; [|lia].
    subst c2. now apply Qle_bool_iff.
  - intros H. assert (c2 = false) as ->; [|lia].
    subst c2. now apply Qle_bool_false.
  - unfold Ball.update.
    rewrite (bind_ret _ _ _ _ _ (get_position_some _ _ _ Hb)).
    cbn [obj_item]. rewrite Hc, bind_gets.
    rewrite (bind_index _ 0%nat x0) by reflexivity.
    assert (Hside :
      (if Qle_bool x0 0 then ret true
       else bind (index [x0; y0; x1; y1] 2)
                 (fun p2 => ret (Qle_bool W p2))) w = (Ret c1, w)).
    { subst c1. destruct (Qle_bool x0 0); reflexivity. }
    rewrite (bind_ret _ _ _ _ _ Hside).
    rewrite (bind_ret _ _ _ _ _ (when_flip_x _ _ _ _ _ _ _ Hb c1)).
    rewrite (bind_index _ 1%nat y0) by reflexivity.
    fold c2.
    match goal with |- context [with_heap ?h w] => set (h1 := h) end.
    assert (H1 : heap (with_heap h1 w) !! b =
                 Some (BallObj it r (if c1 then dx * -1 else dx, dy) (Some s)))
      by apply lookup_insert_eq.
    rewrite (bind_ret _ _ _ _ _ (when_flip_y _ _ _ _ _ _ _ H1 c2)).
    rewrite with_heap_twice, heap_with_heap. subst h1.
    rewrite insert_insert_eq.
    match goal with |- context [with_heap ?h w] => set (h2 := h) end.
    assert (H2 : heap (with_heap h2 w) !! b =
                 Some (BallObj it r (if c1 then dx * -1 else dx,
                                     if c2 then dy * -1 else dy) (Some s)))
      by apply lookup_insert_eq.
    rewrite (bind_ret _ _ _ _ _ (get_direction_ball _ _ _ _ _ _ _ H2)).
    rewrite (bind_ret _ _ _ _ _ (get_speed_ball _ _ _ _ _ _ _ H2)).
    cbn [Ball.times_speed fst snd]. rewrite bind_pure.
    rewrite (bind_ret _ _ _ _ _ (get_direction_ball _ _ _ _ _ _ _ H2)).
    rewrite (bind_ret _ _ _ _ _ (get_speed_ball _ _ _ _ _ _ _ H2)).
    cbn [Ball.times_speed fst snd]. rewrite bind_pure.
    rewrite (move_some _ _ _ _ _ H2). reflexivity.
  - unfold Tk.coords in *. unfold Tk.move. cbn [c_items].
    rewrite lookup_alter_eq.
    destruct (c_items (canvas w) !! it) as [ci|]; [|discriminate].
    cbn. now rewrite Hc.
Qed.

(** C3.  [Ball.update] on a ball drawn at [x0; y0; x1; y1] with a numeric
    speed: the x direction is negated exactly when the left edge is [<= 0]
    or the right edge is [>=] the canvas width, the y direction exactly when
    the top edge is [<= 0] (the bottom edge plays no role), and the ball is
    then moved by the new direction times the speed; nothing else changes. *)
Theorem Ball_update_spec (w : World) (b : loc) it r dx dy s x0 y0 x1 y1 :
  heap w !! b = Some (BallObj it r (dx, dy) (Some s)) ->
  Tk.coords it (canvas w) = [x0; y0; x1; y1] ->
  exists dx' dy',
    ((x0 <= 0 \/ inject_Z (winfo_width (canvas w)) <= x1)%Q -> dx' = - dx) /\
    (~ (x0 <= 0 \/ inject_Z (winfo_width (canvas w)) <= x1)%Q -> dx' = dx) /\
    ((y0 <= 0)%Q -> dy' = - dy) /\
    (~ (y0 <= 0)%Q -> dy' = dy) /\
    Ball.update b w =
      (Ret tt,
       with_canvas
         (Tk.move it (inject_Z (dx' * s)) (inject_Z (dy' * s)) (canvas w))
         (with_heap (<[b := BallObj it r (dx', dy') (Some s)]> (heap w)) w)) /\
    Tk.coords it
      (Tk.move it (inject_Z (dx' * s)) (inject_Z (dy' * s)) (canvas w)) =
    [x0 + inject_Z (dx' * s); y0 + inject_Z (dy' * s);
     x1 + inject_Z (dx' * s); y1 + inject_Z (dy' * s)]%Q.
Proof. exact (update_run w b it r dx dy s x0 y0 x1 y1). Qed.

(** ** Brick.__init__ and Brick.hit *)

Lemma COLORS_some h : 1 <= h <= 3 -> is_Some (Brick.COLORS !! h).
Proof.
  intros Hh.
  assert (h = 1 \/ h = 2 \/ h = 3) as [->|[->| ->]] by lia; now eexists.
Qed.

Lemma COLORS_none h : ~ 1 <= h <= 3 -> Brick.COLORS !! h = None.
Proof.
  intros Hh. unfold Brick.COLORS. cbn [list_to_map foldr uncurry fst snd].
  rewrite !lookup_insert_ne by lia. apply lookup_empty.
Qed.

(** One call of [Brick.hit], step by step. *)
Lemma hit_run w l i wd ht h :
  heap w !! l = Some (BrickObj i wd ht h) ->
  Brick.hit l w =
  let w1 := with_heap (<[l := BrickObj i wd ht (h - 1)]> (heap w)) w in
  if h - 1 =? 0 then (Ret tt, with_canvas (Tk.delete i (canvas w)) w1)
  else match Brick.COLORS !! (h - 1) with
       | Some c => (Ret tt, with_canvas (Tk.itemconfig_fill i c (canvas w)) w1)
       | None => (Raise KeyError, w1)
       end.
Proof.
  intros Hl. unfold Brick.hit.
  rewrite (bind_ret _ _ _ _ _ (deref_some _ _ _ Hl)).
  unfold store. rewrite bind_modify. cbv zeta.
  destruct (h - 1 =? 0).
  - erewrite delete_some by apply lookup_insert_eq. reflexivity.
  - unfold Brick.color. destruct (Brick.COLORS !! (h - 1)); reflexivity.
Qed.

(** C2.  A brick that is on the canvas and whose counter does not exceed
    the largest count a constructed brick can have: [Brick.hit] lowers the
    counter by exactly one; afterwards the brick is off the canvas exactly
    when the new count is zero; when the new count is positive the call
    returns normally and the brick is still on the canvas, unchanged but
    for its fill, which is the color of the new count.  Other canvas items
    are untouched. *)
Theorem Brick_hit_spec (w : World) (l : loc) i wd ht h ci :
  heap w !! l = Some (BrickObj i wd ht h) ->
  c_items (canvas w) !! i = Some ci ->
  h <= 3 ->
  exists out w',
    Brick.hit l w = (out, w') /\
    heap w' !! l = Some (BrickObj i wd ht (h - 1)) /\
    (c_items (canvas w') !! i = None <-> h - 1 = 0) /\
    (0 < h - 1 ->
     exists col,
       out = Ret tt /\ Brick.COLORS !! (h - 1) = Some col /\
       c_items (canvas w') !! i = Some (set_fill col ci)) /\
    (forall j, j <> i -> c_items (canvas w') !! j = c_items (canvas w) !! j).
Proof.
  intros Hl Hi Hh. rewrite (hit_run _ _ _ _ _ _ Hl). cbv zeta.
  destruct (h - 1 =? 0) eqn:E.
  - apply Z.eqb_eq in E. do 2 eexists. split; [reflexivity|].
    cbn [heap canvas with_canvas with_heap Tk.delete c_items].
    rewrite lookup_insert_eq, lookup_delete_eq.
    repeat split; try done; try lia.
    intros j Hj. now apply lookup_delete_ne.
  - apply Z.eqb_neq in E.
    destruct (Brick.COLORS !! (h - 1)) as [col|] eqn:Ec.
    + do 2 eexists. split; [reflexivity|].
      cbn [heap canvas with_canvas with_heap Tk.itemconfig_fill c_items].
      rewrite lookup_insert_eq, lookup_alter_eq, Hi.
      repeat split; try done.
      * intros _. now exists col.
      * intros j Hj. now apply lookup_alter_ne.
    + do 2 eexists. split; [reflexivity|].
      cbn [heap canvas with_canvas with_heap].
      rewrite lookup_insert_eq, Hi.
      repeat split; try done.
      intros Hpos. destruct (COLORS_some (h - 1)) as [c Hc]; [lia|congruence].
Qed.

(** The bound assumed of the counter is the one the constructor enforces. *)
Lemma Brick_init_run x y hits w :
  Brick.init x y hits w =
  match Brick.COLORS !! hits with
  | Some c =>
      let it := mkCItem Rectangle
                  [x - inject_Z 75 / 2; y - inject_Z 20 / 2;
                   x + inject_Z 75 / 2; y + inject_Z 20 / 2]%Q
                  c ["brick"%string] ""%string None in
      (Ret (next_loc w),
       with_next_loc (Pos.succ (next_loc w))
         (with_heap (<[next_loc w := BrickObj (c_next (canvas w)) 75 20 hits]>
                       (heap w))
            (with_canvas (snd (Tk.create it (canvas w))) w)))
  | None => (Raise KeyError, w)
  end.
Proof.
  unfold Brick.init, Brick.color. cbv zeta.
  destruct (Brick.COLORS !! hits); reflexivity.
Qed.

(** C10.  [Brick.COLORS] has exactly the keys 1, 2 and 3.  Constructing a
    brick with any other count raises [KeyError] (and creates nothing); with
    a count in 1..3 it returns a brick holding that count.  [Brick.hit]
    raises [KeyError] when the count after the decrement is neither zero
    nor in 1..3, and returns normally when the count before the call, or
    the count after the decrement, is in 1..3. *)
Theorem Brick_KeyError (w : World) :
  (forall x y hits, ~ 1 <= hits <= 3 ->
     Brick.init x y hits w = (Raise KeyError, w)) /\
  (forall x y hits, 1 <= hits <= 3 ->
     exists l w', Brick.init x y hits w = (Ret l, w') /\
       heap w' !! l = Some (BrickObj (c_next (canvas w)) 75 20 hits)) /\
  (forall l i wd ht h, heap w !! l = Some (BrickObj i wd ht h) ->
     h - 1 <> 0 -> ~ 1 <= h - 1 <= 3 ->
     exists w', Brick.hit l w = (Raise KeyError, w')) /\
  (forall l i wd ht h, heap w !! l = Some (BrickObj i wd ht h) ->
     1 <= h <= 3 \/ 1 <= h - 1 <= 3 ->
     exists w', Brick.hit l w = (Ret tt, w')).
Proof.
  repeat split.
  - intros x y hits Hh. rewrite Brick_init_run.
    now rewrite (COLORS_none _ Hh).
  - intros x y hits Hh. rewrite Brick_init_run.
    destruct (COLORS_some _ Hh) as [c ->]. cbv zeta.
    do 2 eexists. split; [reflexivity|]. apply lookup_insert_eq.
  - intros l i wd ht h Hl Hz Hh. rewrite (hit_run _ _ _ _ _ _ Hl). cbv zeta.
    apply Z.eqb_neq in Hz. rewrite Hz, (COLORS_none _ Hh). now eexists.
  - intros l i wd ht h Hl Hh. rewrite (hit_run _ _ _ _ _ _ Hl). cbv zeta.
    destruct (h - 1 =? 0) eqn:E; [now eexists|].
    apply Z.eqb_neq in E.
    destruct (COLORS_some (h - 1)) as [c ->]; [lia|]. now eexists.
Qed.

(** ** Ball.collide *)

Lemma Qlt_bool_iff x y : Qlt_bool x y = true <-> (x < y)%Q.
Proof.
  unfold Qlt_bool. rewrite negb_true_iff, Qle_bool_false.
  split; [apply Qnot_le_lt | apply Qlt_not_le].
Qed.

Lemma Qlt_bool_false x y : Qlt_bool x y = false <-> (y <= x)%Q.
Proof. unfold Qlt_bool. rewrite negb_false_iff. apply Qle_bool_iff. Qed.

Lemma hit_bricks_run (objs : list loc) : forall w,
  NoDup objs ->
  (forall l, l ∈ objs -> exists o, heap w !! l = Some o /\ sound_brick o) ->
  exists w',
    hit_bricks objs w = (Ret tt, w') /\
    forall l, heap w' !! l =
              if decide (l ∈ objs) then after_hit <$> heap w !! l
              else heap w !! l.
Proof.
  induction objs as [|g rest IH]; intros w Hnd Hobjs.
  - exists w. split; [reflexivity|]. intros l.
    destruct (decide (l ∈ [])) as [Hin|]; [|reflexivity].
    now apply not_elem_of_nil in Hin.
  - apply NoDup_cons in Hnd as [Hg Hnd].
    destruct (Hobjs g) as (o & Ho & Hs); [left|].
    assert (Hstep : exists w1,
      bind (deref g) (fun o => if is_brick o then Brick.hit g else ret tt) w
        = (Ret tt, w1) /\
      heap w1 = <[g := after_hit o]> (heap w)).
    { rewrite (bind_ret _ _ _ _ _ (deref_some _ _ _ Ho)).
      destruct o as [i r d s|i wd ht bl|i wd ht h]; cbn [is_brick after_hit].
      - exists w. split; [reflexivity|]. symmetry. now apply insert_id.
      - exists w. split; [reflexivity|]. symmetry. now apply insert_id.
      - rewrite (hit_run _ _ _ _ _ _ Ho). cbv zeta.
        specialize (Hs _ _ _ _ eq_refl).
        destruct (h - 1 =? 0) eqn:E; [now eexists|].
        apply Z.eqb_neq in E.
        destruct (COLORS_some (h - 1)) as [c Hc]; [lia|].
        rewrite Hc. now eexists. }
    destruct Hstep as (w1 & Hrun & Hheap).
    destruct (IH w1 Hnd) as (w' & Hrest & Hfinal).
    { intros l Hl. destruct (Hobjs l) as (o' & Ho' & Hs'); [now right|].
      exists o'. split; [|exact Hs'].
      rewrite Hheap, lookup_insert_ne; [exact Ho'|]. now intros ->. }
    exists w'. split.
    { unfold hit_bricks in *. cbn [for_each].
      now rewrite (bind_ret _ _ _ _ _ Hrun). }
    intros l. rewrite Hfinal, Hheap.
    destruct (decide (l = g)) as [->|Hne].
    + rewrite decide_False by exact Hg.
      rewrite decide_True by left.
      now rewrite lookup_insert_eq, Ho.
    + rewrite lookup_insert_ne by congruence.
      destruct (decide (l ∈ rest)) as [Hin|Hout].
      * rewrite decide_True by now right. reflexivity.
      * rewrite decide_False; [reflexivity|].
        intros [?|?]%elem_of_cons; contradiction.
Qed.

(** C1.  [Ball.collide] on a non-empty list of distinct drawn objects
    returns normally and leaves the ball with direction [d'] where: with
    more than one object [d'] is the old direction with y negated; with
    exactly one object, whose box is [a0..a2] horizontally, and [x] the
    ball's horizontal center, [d'] has x set to [+1] if [x > a2], x set to
    [-1] if [x < a0], and y negated otherwise.  Every brick of the list has
    its counter lowered by exactly one, and no other object changes. *)
Theorem Ball_collide_spec (w : World) (b : loc) it r dx dy s x0 y0 x1 y1
    (game_objects : list loc) :
  heap w !! b = Some (BallObj it r (dx, dy) s) ->
  Tk.coords it (canvas w) = [x0; y0; x1; y1] ->
  game_objects <> [] ->
  NoDup game_objects ->
  (forall l, l ∈ game_objects -> drawn w l) ->
  exists w' d',
    Ball.collide b game_objects w = (Ret tt, w') /\
    heap w' !! b = Some (BallObj it r d' s) /\
    ((1 < length game_objects)%nat -> d' = (dx, - dy)) /\
    (forall g o a0 a1 a2 a3,
       game_objects = [g] ->
       heap w !! g = Some o ->
       Tk.coords (obj_item o) (canvas w) = [a0; a1; a2; a3] ->
       (a0 <= a2)%Q ->
       let x := ((x0 + x1) * (1 # 2))%Q in
       ((a2 < x)%Q -> d' = (1, dy)) /\
       ((x < a0)%Q -> d' = (-1, dy)) /\
       ((a0 <= x)%Q /\ (x <= a2)%Q -> d' = (dx, - dy))) /\
    (forall l i wd ht h,
       l ∈ game_objects ->
       heap w !! l = Some (BrickObj i wd ht h) ->
       heap w' !! l = Some (BrickObj i wd ht (h - 1))) /\
    (forall l o,
       l <> b -> heap w !! l = Some o -> is_brick o = false \/ l ∉ game_objects ->
       heap w' !! l = Some o).
Proof.
  intros Hb Hc Hne Hnd Hdrawn.
  set (x := ((x0 + x1) * (1 # 2))%Q).
  (* the direction phase *)
  assert (Hdir : exists d',
    (if (1 <? length game_objects)%nat then Ball.flip_y b
     else if (length game_objects =? 1)%nat then
       bind (index game_objects 0) (fun game_object =>
       bind (GameObject.get_position game_object) (fun obj_pos =>
       bind (index obj_pos 2) (fun o2 =>
       if Qlt_bool o2 x then Ball.set_x b 1
       else bind (index obj_pos 0) (fun o0 =>
            if Qlt_bool x o0 then Ball.set_x b (-1) else Ball.flip_y b))))
     else ret tt) w
    = (Ret tt, with_heap (<[b := BallObj it r d' s]> (heap w)) w) /\
    ((1 < length game_objects)%nat -> d' = (dx, - dy)) /\
    (forall g o a0 a1 a2 a3,
       game_objects = [g] ->
       heap w !! g = Some o ->
       Tk.coords (obj_item o) (canvas w) = [a0; a1; a2; a3] ->
       (a0 <= a2)%Q ->
       ((a2 < x)%Q -> d' = (1, dy)) /\
       ((x < a0)%Q -> d' = (-1, dy)) /\
       ((a0 <= x)%Q /\ (x <= a2)%Q -> d' = (dx, - dy)))).
  { destruct game_objects as [|g [|g' rest]]; [done| |].
    - (* exactly one object *)
      cbn [length Nat.ltb Nat.leb Nat.eqb].
      destruct (Hdrawn g) as (o & a0 & a1 & a2 & a3 & Ho & Hco & _); [left|].
      rewrite (bind_index _ 0%nat g) by reflexivity.
      rewrite (bind_ret _ _ _ _ _ (get_position_some _ _ _ Ho)), Hco.
      rewrite (bind_index _ 2%nat a2) by reflexivity.
      destruct (Qlt_bool a2 x) eqn:E2.
      + exists (1, dy). split; [now apply (set_x_ball _ _ _ _ _ _ _ Hb)|].
        split; [cbn; lia|].
        intros g0 o0 b0 b1 b2 b3 [= <-] Ho0 Hco0 Hle.
        rewrite Ho in Ho0. injection Ho0 as <-.
        rewrite Hco in Hco0. injection Hco0 as <- <- <- <-.
        apply Qlt_bool_iff in E2.
        split; [done|split].
        * intros Hlt. exfalso. apply (Qlt_irrefl x).
          eapply Qlt_le_trans; [exact Hlt|].
          eapply Qle_trans; [exact Hle|]. now apply Qlt_le_weak.
        * intros [_ Hle2]. exfalso. now apply (Qlt_not_le _ _ E2).
      + rewrite (bind_index _ 0%nat a0) by reflexivity.
        apply Qlt_bool_false in E2.
        destruct (Qlt_bool x a0) eqn:E0.
        * exists (-1, dy). split; [now apply (set_x_ball _ _ _ _ _ _ _ Hb)|].
          split; [cbn; lia|].
          intros g0 o0 b0 b1 b2 b3 [= <-] Ho0 Hco0 Hle.
          rewrite Ho in Ho0. injection Ho0 as <-.
          rewrite Hco in Hco0. injection Hco0 as <- <- <- <-.
          apply Qlt_bool_iff in E0.
          split; [|split; [done|]].
          -- intros Hlt. exfalso. now apply (Qlt_not_le _ _ Hlt).
          -- intros [Hle0 _]. exfalso. now apply (Qlt_not_le _ _ E0).
        * exists (dx, dy * -1).
          split; [now apply (flip_y_ball _ _ _ _ _ _ _ Hb)|].
          split; [cbn; lia|].
          intros g0 o0 b0 b1 b2 b3 [= <-] Ho0 Hco0 Hle.
          rewrite Ho in Ho0. injection Ho0 as <-.
          rewrite Hco in Hco0. injection Hco0 as <- <- <- <-.
          apply Qlt_bool_false in E0.
          split; [|split].
          -- intros Hlt. exfalso. now apply (Qlt_not_le _ _ Hlt).
          -- intros Hlt. exfalso. now apply (Qlt_not_le _ _ Hlt).
          -- intros _. f_equal. lia.
    - (* more than one object *)
      cbn [length Nat.ltb Nat.leb].
      exists (dx, dy * -1).
      split; [now apply (flip_y_ball _ _ _ _ _ _ _ Hb)|].
      split; [intros _; f_equal; lia|].
      intros g0 o0 b0 b1 b2 b3 [=]. }
  destruct Hdir as (d' & Hrun & Hmany & Hone).
  set (w1 := with_heap (<[b := BallObj it r d' s]> (heap w)) w) in *.
  (* the hits *)
  destruct (hit_bricks_run game_objects w1 Hnd) as (w' & Hhits & Hfinal).
  { intros l Hl. destruct (decide (l = b)) as [->|Hlb].
    - exists (BallObj it r d' s). split; [apply lookup_insert_eq|].
      intros ? ? ? ? [=].
    - destruct (Hdrawn l Hl) as (o & ? & ? & ? & ? & Ho & _ & Hs).
      exists o. split; [|exact Hs].
      subst w1. cbn [heap with_heap]. now rewrite lookup_insert_ne. }
  exists w', d'. split; [|split; [|split; [|split; [|split]]]].
  - unfold Ball.collide.
    rewrite (bind_ret _ _ _ _ _ (get_position_some _ _ _ Hb)).
    cbn [obj_item]. rewrite Hc.
    rewrite (bind_index _ 0%nat x0) by reflexivity.
    rewrite (bind_index _ 2%nat x1) by reflexivity.
    cbv zeta. fold x.
    rewrite (bind_ret _ _ _ _ _ Hrun). exact Hhits.
  - rewrite Hfinal. subst w1. cbn [heap with_heap].
    rewrite lookup_insert_eq. now destruct (decide (b ∈ game_objects)).
  - exact Hmany.
  - exact Hone.
  - intros l i wd ht h Hl Ho. rewrite Hfinal, decide_True by exact Hl.
    subst w1. cbn [heap with_heap].
    rewrite lookup_insert_ne; [now rewrite Ho|].
    intros <-. rewrite Hb in Ho. discriminate.
  - intros l o Hlb Ho Hcase. rewrite Hfinal.
    subst w1. cbn [heap with_heap].
    rewrite lookup_insert_ne by congruence. rewrite Ho.
    destruct (decide (l ∈ game_objects)) as [Hin|]; [|reflexivity].
    destruct Hcase as [Hnb|Hout]; [|contradiction].
    destruct o; try discriminate; reflexivity.
Qed.

(** ** Paddle.slide *)

Lemma coords_move i j dx dy c :
  Tk.coords i (Tk.move j dx dy c) =
  if decide (i = j) then move_coords dx dy (Tk.coords i c) else Tk.coords i c.
Proof.
  unfold Tk.coords, Tk.move. cbn [c_items].
  destruct (decide (i = j)) as [->|Hne].
  - rewrite lookup_alter_eq. now destruct (c_items c !! j).
  - now rewrite lookup_alter_ne by congruence.
Qed.

Lemma Qplus_zero (y : Q) : (y + 0)%Q = y.
Proof.
  destruct y as [n d]. unfold Qplus. cbn [Qnum Qden].
  f_equal; [lia | apply Pos.mul_1_r].
Qed.

Lemma move_coords_box dx x0 y0 x1 y1 :
  move_coords dx 0 [x0; y0; x1; y1] = [x0 + dx; y0; x1 + dx; y1]%Q.
Proof. cbn [move_coords]. now rewrite !Qplus_zero. Qed.

Lemma fits_iff w x0 x1 offset :
  fits w x0 x1 offset = true <->
  (0 <= x0 + offset)%Q /\ (x1 + offset <= inject_Z (winfo_width (canvas w)))%Q.
Proof. unfold fits. now rewrite andb_true_iff, !Qle_bool_iff. Qed.

Lemma get_ball_paddle w p it wd ht bl :
  heap w !! p = Some (PaddleObj it wd ht bl) ->
  Paddle.get_ball p w = (Ret bl, w).
Proof.
  intros Hp. unfold Paddle.get_ball.
  now rewrite (bind_ret _ _ _ _ _ (deref_some _ _ _ Hp)).
Qed.

(** One call of [Paddle.slide], step by step. *)
Lemma slide_run w p it wd ht bl x0 y0 x1 y1 offset :
  heap w !! p = Some (PaddleObj it wd ht bl) ->
  Tk.coords it (canvas w) = [x0; y0; x1; y1] ->
  (forall b, bl = Some b -> is_Some (heap w !! b)) ->
  Paddle.slide p offset w =
  let c1 := if fits w x0 x1 offset then Tk.move it offset 0 (canvas w)
            else canvas w in
  (Ret tt,
   with_canvas
     match bl ≫= (fun b => heap w !! b) with
     | Some o => Tk.move (obj_item o) offset 0 c1
     | None => c1
     end w).
Proof.
  intros Hp Hc Hbl. unfold Paddle.slide.
  rewrite (bind_ret _ _ _ _ _ (get_position_some _ _ _ Hp)).
  cbn [obj_item]. rewrite Hc, bind_gets.
  rewrite (bind_index _ 0%nat x0) by reflexivity.
  assert (Hin :
    (if Qle_bool 0 (x0 + offset)
     then bind (index [x0; y0; x1; y1] 2) (fun c2 =>
            ret (Qle_bool (c2 + offset) (inject_Z (winfo_width (canvas w)))))
     else ret false) w = (Ret (fits w x0 x1 offset), w)).
  { unfold fits. destruct (Qle_bool 0 (x0 + offset)); reflexivity. }
  rewrite (bind_ret _ _ _ _ _ Hin). cbv zeta.
  set (c1 := if fits w x0 x1 offset then Tk.move it offset 0 (canvas w)
             else canvas w).
  assert (Hmv :
    (if fits w x0 x1 offset then GameObject.move p offset 0 else ret tt) w
    = (Ret tt, with_canvas c1 w)).
  { subst c1. destruct (fits w x0 x1 offset).
    - now rewrite (move_some _ _ _ _ _ Hp).
    - unfold ret. f_equal. now destruct w. }
  rewrite (bind_ret _ _ _ _ _ Hmv).
  assert (Hp' : heap (with_canvas c1 w) !! p = Some (PaddleObj it wd ht bl))
    by exact Hp.
  rewrite (bind_ret _ _ _ _ _ (get_ball_paddle _ _ _ _ _ _ Hp')).
  destruct bl as [b|]; cbn [mbind option_bind].
  - destruct (Hbl b eq_refl) as [o Ho]. rewrite Ho.
    assert (Ho' : heap (with_canvas c1 w) !! b = Some o) by exact Ho.
    now rewrite (move_some _ _ _ _ _ Ho').
  - reflexivity.
Qed.

Lemma slide_step w p it x0 y0 x1 y1 offset :
  paddle_ready w p it x0 y0 x1 y1 ->
  exists w' x0' x1',
    Paddle.slide p offset w = (Ret tt, w') /\
    paddle_ready w' p it x0' y0 x1' y1 /\
    winfo_width (canvas w') = winfo_width (canvas w) /\
    (fits w x0 x1 offset = true ->
     x0' = (x0 + offset)%Q /\ x1' = (x1 + offset)%Q) /\
    (fits w x0 x1 offset = false -> x0' = x0 /\ x1' = x1).
Proof.
  intros [(wd & ht & bl & Hp & Hbl) Hc].
  assert (Hbl' : forall b, bl = Some b -> is_Some (heap w !! b)).
  { intros b Hb. destruct (Hbl b Hb) as (o & -> & _). now eexists. }
  rewrite (slide_run _ _ _ _ _ _ _ _ _ _ offset Hp Hc Hbl'). cbv zeta.
  set (c1 := if fits w x0 x1 offset then Tk.move it offset 0 (canvas w)
             else canvas w).
  set (c2 := match bl ≫= (fun b => heap w !! b) with
             | Some o => Tk.move (obj_item o) offset 0 c1
             | None => c1
             end).
  assert (H2 : Tk.coords it c2 = Tk.coords it c1 /\
               winfo_width c2 = winfo_width c1).
  { subst c2. destruct bl as [b|]; cbn [mbind option_bind]; [|done].
    destruct (Hbl b eq_refl) as (o & -> & Hne).
    rewrite coords_move. now rewrite decide_False by congruence. }
  destruct H2 as [H2 HW2].
  exists (with_canvas c2 w),
    (if fits w x0 x1 offset then x0 + offset else x0)%Q,
    (if fits w x0 x1 offset then x1 + offset else x1)%Q.
  split; [reflexivity|]. split; [split|split; [|split]].
  - exists wd, ht, bl. split; [exact Hp|exact Hbl].
  - cbn [canvas with_canvas]. rewrite H2. subst c1.
    destruct (fits w x0 x1 offset); [|exact Hc].
    rewrite coords_move, decide_True by reflexivity.
    rewrite Hc. apply move_coords_box.
  - cbn [canvas with_canvas]. rewrite HW2. subst c1.
    now destruct (fits w x0 x1 offset).
  - now intros ->.
  - now intros ->.
Qed.

(** C7.  For a drawn paddle whose attached ball (if any) is another canvas
    item: each [Paddle.slide] leaves the paddle's y coordinates as they are
    and adds the offset to both x coordinates exactly when the shifted left
    edge is [>= 0] and the shifted right edge is [<=] the canvas width; and
    a paddle that starts within [0, width] is within [0, width], at the same
    height, after any sequence of [slide] calls. *)
Theorem Paddle_slide_spec (w : World) (p : loc) it x0 y0 x1 y1 :
  paddle_ready w p it x0 y0 x1 y1 ->
  let W := inject_Z (winfo_width (canvas w)) in
  (forall offset, exists w' x0' x1',
     Paddle.slide p offset w = (Ret tt, w') /\
     Tk.coords it (canvas w') = [x0'; y0; x1'; y1] /\
     ((0 <= x0 + offset /\ x1 + offset <= W)%Q ->
      x0' = (x0 + offset)%Q /\ x1' = (x1 + offset)%Q) /\
     (~ (0 <= x0 + offset /\ x1 + offset <= W)%Q -> x0' = x0 /\ x1' = x1)) /\
  (forall offsets, (0 <= x0)%Q -> (x1 <= W)%Q ->
     exists w' x0' x1',
       for_each offsets (Paddle.slide p) w = (Ret tt, w') /\
       Tk.coords it (canvas w') = [x0'; y0; x1'; y1] /\
       (0 <= x0')%Q /\ (x1' <= W)%Q).
Proof.
  intros Hready W. split.
  - intros offset.
    destruct (slide_step _ _ _ _ _ _ _ offset Hready)
      as (w' & x0' & x1' & Hrun & [_ Hc'] & _ & Hyes & Hno).
    exists w', x0', x1'. split; [exact Hrun|]. split; [exact Hc'|]. split.
    + intros H. apply Hyes. now apply fits_iff.
    + intros H. apply Hno. destruct (fits w x0 x1 offset) eqn:E; [|done].
      now apply fits_iff in E.
  - intros offsets. subst W. revert w x0 x1 Hready.
    induction offsets as [|offset rest IH]; intros w x0 x1 Hready H0 H1.
    + exists w, x0, x1. split; [reflexivity|].
      split; [apply Hready|]. now split.
    + destruct (slide_step _ _ _ _ _ _ _ offset Hready)
        as (w1 & x0' & x1' & Hrun & Hready' & HW & Hyes & Hno).
      destruct (IH w1 x0' x1' Hready') as (w' & a0 & a1 & Hrest & Hc & Ha0 & Ha1).
      * destruct (fits w x0 x1 offset) eqn:E.
        -- destruct (Hyes eq_refl) as [-> _]. now apply fits_iff in E.
        -- now destruct (Hno eq_refl) as [-> _].
      * rewrite HW. destruct (fits w x0 x1 offset) eqn:E.
        -- destruct (Hyes eq_refl) as [_ ->]. now apply fits_iff in E.
        -- now destruct (Hno eq_refl) as [_ ->].
      * exists w', a0, a1. split.
        { cbn [for_each]. now rewrite (bind_ret _ _ _ _ _ Hrun). }
        split; [exact Hc|]. split; [exact Ha0|]. now rewrite <- HW.
Qed.

(** C9.  While a ball is attached, [Paddle.slide] adds the offset to the
    ball's x coordinates whether or not the paddle itself moves; when the
    guard fails the paddle stays and only the ball moves.  So the ball can
    be displaced relative to the paddle and pushed off the canvas: after
    twenty-nine left presses from the initial state the paddle is at the
    left wall with the ball's left edge at 0, and one more press leaves the
    paddle in place and puts the ball's left edge at -10. *)
Theorem Paddle_slide_ball :
  (forall (w : World) (p b : loc) it wd ht o x0 y0 x1 y1 u0 v0 u1 v1 offset,
     heap w !! p = Some (PaddleObj it wd ht (Some b)) ->
     Tk.coords it (canvas w) = [x0; y0; x1; y1] ->
     heap w !! b = Some o ->
     obj_item o <> it ->
     Tk.coords (obj_item o) (canvas w) = [u0; v0; u1; v1] ->
     exists w',
       Paddle.slide p offset w = (Ret tt, w') /\
       Tk.coords (obj_item o) (canvas w') =
         [u0 + offset; v0; u1 + offset; v1]%Q /\
       (fits w x0 x1 offset = false ->
        Tk.coords it (canvas w') = [x0; y0; x1; y1])) /\
  (exists w',
     heap world_left !! 1%positive =
       Some (PaddleObj 1%positive 80 10 (Some 26%positive)) /\
     heap world_left !! 26%positive =
       Some (BallObj 26%positive 10 (1, -1) (Some 10)) /\
     Tk.coords 1%positive (canvas world_left) =
       [0 # 4; 642 # 2; 320 # 4; 662 # 2]%Q /\
     Tk.coords 26%positive (canvas world_left) = [0 # 32; 300; 640 # 32; 320]%Q /\
     Paddle.slide 1%positive (-10) world_left = (Ret tt, w') /\
     Tk.coords 1%positive (canvas w') = [0 # 4; 642 # 2; 320 # 4; 662 # 2]%Q /\
     Tk.coords 26%positive (canvas w') = [-320 # 32; 300; 320 # 32; 320]%Q /\
     (-320 # 32 < 0)%Q).
Proof.
  split.
  - intros w p b it wd ht o x0 y0 x1 y1 u0 v0 u1 v1 offset Hp Hc Hb Hne Hcb.
    assert (Hbl : forall b', Some b = Some b' -> is_Some (heap w !! b')).
    { intros b' [= <-]. now exists o. }
    rewrite (slide_run _ _ _ _ _ _ _ _ _ _ offset Hp Hc Hbl).
    cbn [mbind option_bind]. rewrite Hb. cbv zeta.
    eexists. split; [reflexivity|]. cbn [canvas with_canvas]. split.
    + rewrite coords_move, decide_True by reflexivity.
      destruct (fits w x0 x1 offset).
      * rewrite coords_move, decide_False by exact Hne.
        rewrite Hcb. apply move_coords_box.
      * rewrite Hcb. apply move_coords_box.
    + intros ->. rewrite coords_move, decide_False by congruence. exact Hc.
  - exists (snd (Paddle.slide 1%positive (-10) world_left)).
    repeat split; vm_compute; reflexivity.
Qed.

(** ** Invariants of computations *)

Lemma keeps_snd {A} I (m : M A) w : keeps I m -> I w -> I (snd (m w)).
Proof.
  intros Hk Hw. specialize (Hk w Hw). now destruct (m w) as [[a|e] w'].
Qed.

Lemma hoare_bind {A B} P (m : M A) (k : A -> M B) R Q E :
  hoare P m R E -> (forall a, hoare (R a) (k a) Q E) ->
  hoare P (bind m k) Q E.
Proof.
  intros Hm Hk w Hw. specialize (Hm w Hw). unfold bind.
  destruct (m w) as [[a|e] w']; [|exact Hm]. now apply Hk.
Qed.

Section Keeps.
Variable I : World -> Prop.

Lemma keeps_bind {A B} (m : M A) (k : A -> M B) :
  keeps I m -> (forall a, keeps I (k a)) -> keeps I (bind m k).
Proof. intros Hm Hk. now apply hoare_bind with (R := fun _ => I). Qed.

Lemma keeps_ret {A} (a : A) : keeps I (ret a).
Proof. now intros w Hw. Qed.

Lemma keeps_raise {A} e : keeps I (@raise A e).
Proof. now intros w Hw. Qed.

Lemma keeps_gets {A} (f : World -> A) : keeps I (gets f).
Proof. now intros w Hw. Qed.

Lemma keeps_index {A} (l : list A) i : keeps I (index l i).
Proof. intros w Hw. unfold index. now destruct (l !! i). Qed.

Lemma keeps_deref l : keeps I (deref l).
Proof. intros w Hw. unfold deref. now destruct (heap w !! l). Qed.

Lemma keeps_modify f : (forall w, I w -> I (f w)) -> keeps I (modify f).
Proof. intros Hf w Hw. now apply Hf. Qed.

Lemma keeps_for_each {A} (l : list A) body :
  (forall x, keeps I (body x)) -> keeps I (for_each l body).
Proof.
  intros Hb. induction l as [|x r IH]; cbn [for_each].
  - apply keeps_ret.
  - apply keeps_bind; [apply Hb|]. intros _. exact IH.
Qed.

Lemma keeps_get_position l : keeps I (GameObject.get_position l).
Proof.
  apply keeps_bind; [apply keeps_deref|]. intros o. apply keeps_gets.
Qed.

End Keeps.

Create HintDb keeps.

#[export] Hint Resolve keeps_ret keeps_raise keeps_gets keeps_index
  keeps_deref : keeps.

Ltac keeps_go :=
  repeat first
    [ solve [eauto with keeps]
    | apply keeps_bind; [|intros ?]
    | apply keeps_for_each; intros ?
    | match goal with
      | |- keeps _ (if ?c then _ else _) => destruct c
      | |- keeps _ (match ?x with _ => _ end) => destruct x
      end ].

Section Invariants.
Context (I : World -> Prop) (okdir : Z * Z -> Prop) `{!Tolerant I okdir}.

Lemma hoare_deref l :
  hoare I (deref l) (fun o w => I w /\ heap w !! l = Some o) I.
Proof.
  intros w Hw. unfold deref. destruct (heap w !! l) eqn:E; [now split|done].
Qed.

Lemma hoare_assume {A} (phi : World -> Prop) (m : M A) :
  (forall w, phi w -> I w) ->
  (forall w, phi w -> I (snd (m w))) ->
  hoare phi m (fun _ => I) I.
Proof.
  intros _ Hm w Hw. specialize (Hm w Hw).
  now destruct (m w) as [[a|e] w'].
Qed.

Lemma keeps_store l o :
  (forall it r d s, o = BallObj it r d s -> okdir d) -> keeps I (store l o).
Proof.
  intros Ho. apply keeps_modify. intros w Hw.
  exact (tol_store w l o (next_loc w) Hw Ho).
Qed.

Lemma keeps_alloc o :
  (forall it r d s, o = BallObj it r d s -> okdir d) -> keeps I (alloc o).
Proof. intros Ho w Hw. cbn. now apply tol_store. Qed.

Lemma keeps_new_item it : keeps I (create it).
Proof. intros w Hw. cbn. now apply tol_create. Qed.

Lemma keeps_position l : keeps I (GameObject.get_position l).
Proof. apply keeps_get_position. Qed.

Lemma keeps_deleted l : keeps I (GameObject.delete l).
Proof.
  apply keeps_bind; [apply keeps_deref|]. intros o.
  apply keeps_modify. intros w Hw. now apply tol_delete.
Qed.

Lemma keeps_fill i c : keeps I (on_canvas (Tk.itemconfig_fill i c)).
Proof. apply keeps_modify. intros w Hw. now apply tol_fill. Qed.

Lemma keeps_text i t : keeps I (on_canvas (Tk.itemconfig_text i t)).
Proof. apply keeps_modify. intros w Hw. now apply tol_text. Qed.

Lemma keeps_canvas_delete i : keeps I (on_canvas (Tk.delete i)).
Proof. apply keeps_modify. intros w Hw. now apply tol_delete. Qed.

Hint Resolve keeps_new_item keeps_position keeps_deleted keeps_fill
  keeps_text keeps_canvas_delete : keeps.

(** *** Ball *)

Lemma keeps_Ball_init x y : keeps I (Ball.init x y).
Proof.
  unfold Ball.init. keeps_go. apply keeps_alloc.
  intros ? ? ? ? [= <- <- <- <-]. apply tol_init.
Qed.

Lemma hoare_get_direction b :
  hoare I (Ball.get_direction b) (fun d w => I w /\ okdir d) I.
Proof.
  unfold Ball.get_direction.
  eapply hoare_bind; [apply hoare_deref|].
  intros o w [Hw Ho]. destruct o; try exact Hw.
  split; [exact Hw|]. eapply tol_read; eassumption.
Qed.

Lemma keeps_get_direction b : keeps I (Ball.get_direction b).
Proof. unfold Ball.get_direction. keeps_go. Qed.

Lemma keeps_get_speed b : keeps I (Ball.get_speed b).
Proof. unfold Ball.get_speed. keeps_go. Qed.

Lemma keeps_set_direction b d : okdir d -> keeps I (Ball.set_direction b d).
Proof.
  intros Hd. unfold Ball.set_direction. keeps_go.
  apply keeps_store. now intros ? ? ? ? [= <- <- <- <-].
Qed.

Lemma keeps_set_speed b v : keeps I (Ball.set_speed b v).
Proof.
  unfold Ball.set_speed.
  eapply hoare_bind; [apply hoare_deref|].
  intros o. apply hoare_assume; [now intros w [Hw _]|].
  intros w [Hw Ho]. destruct o; try exact Hw.
  cbn. apply (tol_store w b _ (next_loc w) Hw).
  intros ? ? ? ? [= <- <- <- <-]. eapply tol_read; eassumption.
Qed.

Lemma keeps_after_direction b (f : Z * Z -> Z * Z) :
  (forall d, okdir d -> okdir (f d)) ->
  keeps I (bind (Ball.get_direction b)
                (fun d => Ball.set_direction b (f d))).
Proof.
  intros Hf. eapply hoare_bind; [apply hoare_get_direction|].
  intros d. apply hoare_assume; [now intros w [Hw _]|].
  intros w [Hw Hd]. apply keeps_snd; [|exact Hw].
  now apply keeps_set_direction, Hf.
Qed.

Lemma keeps_flip_x b : keeps I (Ball.flip_x b).
Proof. apply (keeps_after_direction b (fun d => (fst d * -1, snd d))), tol_flip_x. Qed.

Lemma keeps_flip_y b : keeps I (Ball.flip_y b).
Proof. apply (keeps_after_direction b (fun d => (fst d, snd d * -1))), tol_flip_y. Qed.

Lemma keeps_set_x b v : v = 1 \/ v = -1 -> keeps I (Ball.set_x b v).
Proof.
  intros Hv. apply (keeps_after_direction b (fun d => (v, snd d))).
  intros d. now apply tol_set_x.
Qed.

Lemma keeps_times_speed n s : keeps I (Ball.times_speed n s).
Proof. unfold Ball.times_speed. keeps_go. Qed.

Hint Resolve keeps_get_direction keeps_get_speed keeps_set_speed
  keeps_flip_x keeps_flip_y keeps_set_x keeps_times_speed : keeps.

(** *** Brick *)

Lemma keeps_color h : keeps I (Brick.color h).
Proof. unfold Brick.color. keeps_go. Qed.

Hint Resolve keeps_color : keeps.

Lemma keeps_Brick_init x y hits : keeps I (Brick.init x y hits).
Proof.
  unfold Brick.init. keeps_go. apply keeps_alloc. intros ? ? ? ? [=].
Qed.

Lemma keeps_hit l : keeps I (Brick.hit l).
Proof.
  unfold Brick.hit. keeps_go. apply keeps_store. intros ? ? ? ? [=].
Qed.

Hint Resolve keeps_hit : keeps.

Lemma keeps_collide b objs : keeps I (Ball.collide b objs).
Proof.
  unfold Ball.collide. keeps_go.
Qed.

(** *** Paddle *)

Lemma keeps_Paddle_init x y : keeps I (Paddle.init x y).
Proof.
  unfold Paddle.init. keeps_go. apply keeps_alloc. intros ? ? ? ? [=].
Qed.

Lemma keeps_get_ball p : keeps I (Paddle.get_ball p).
Proof. unfold Paddle.get_ball. keeps_go. Qed.

Lemma keeps_set_ball p b : keeps I (Paddle.set_ball p b).
Proof.
  unfold Paddle.set_ball. keeps_go. apply keeps_store. intros ? ? ? ? [=].
Qed.

Hint Resolve keeps_get_ball keeps_set_ball : keeps.

(** The two methods that move canvas items. *)
Hypothesis tol_move : forall w i dx dy,
    I w -> I (with_canvas (Tk.move i dx dy (canvas w)) w).

Lemma keeps_moved l x y : keeps I (GameObject.move l x y).
Proof.
  apply keeps_bind; [apply keeps_deref|]. intros o.
  apply keeps_modify. intros w Hw. now apply tol_move.
Qed.

Hint Resolve keeps_moved : keeps.

Lemma keeps_update b : keeps I (Ball.update b).
Proof. unfold Ball.update. keeps_go. Qed.

Lemma keeps_slide p offset : keeps I (Paddle.slide p offset).
Proof. unfold Paddle.slide. keeps_go. Qed.

End Invariants.

#[export] Hint Resolve keeps_new_item keeps_position keeps_deleted
  keeps_fill keeps_text keeps_canvas_delete keeps_moved keeps_Ball_init
  keeps_set_speed keeps_update keeps_collide keeps_Brick_init
  keeps_Paddle_init keeps_set_ball keeps_slide : keeps.

Ltac keeps_field :=
  apply keeps_modify;
  let w := fresh "w" in
  let Hw := fresh "Hw" in
  intros w Hw; cbv beta;
  exact (tol_fields w _ _ _ _ _ _ _ _ _ Hw).

Section GameInvariants.
Context (I : World -> Prop) (okdir : Z * Z -> Prop) `{!Tolerant I okdir}.

Ltac game_go := repeat first [ progress keeps_go | keeps_field ].

Lemma keeps_the_ball : keeps I Game.the_ball.
Proof. unfold Game.the_ball. keeps_go. Qed.

Lemma keeps_the_paddle : keeps I Game.the_paddle.
Proof. unfold Game.the_paddle. keeps_go. Qed.

Lemma keeps_sleep ms : keeps I (Game.after ms None).
Proof. unfold Game.after. keeps_field. Qed.

Lemma keeps_bind_key key cb : keeps I (Game.bind_key key cb).
Proof. unfold Game.bind_key. keeps_field. Qed.

Lemma keeps_unbind key : keeps I (Game.unbind key).
Proof. unfold Game.unbind. keeps_field. Qed.

Lemma keeps_draw_text x y text size : keeps I (Game.draw_text x y text size).
Proof. unfold Game.draw_text. keeps_go. Qed.

Hint Resolve keeps_the_ball keeps_the_paddle keeps_sleep keeps_bind_key
  keeps_unbind keeps_draw_text : keeps.

Lemma keeps_update_lives_text : keeps I Game.update_lives_text.
Proof. unfold Game.update_lives_text. game_go. Qed.

Lemma keeps_add_ball : keeps I Game.add_ball.
Proof. unfold Game.add_ball. game_go. Qed.

Lemma keeps_add_brick x y hits : keeps I (Game.add_brick x y hits).
Proof. unfold Game.add_brick. game_go. Qed.

Hint Resolve keeps_update_lives_text keeps_add_ball keeps_add_brick : keeps.

Lemma keeps_setup_game : keeps I Game.setup_game.
Proof. unfold Game.setup_game. game_go. Qed.

Lemma keeps_check_collisions `{Toolkit} : keeps I Game.check_collisions.
Proof. unfold Game.check_collisions. game_go. Qed.

Hint Resolve keeps_setup_game : keeps.


(** From here on the invariant must not mention the lives. *)
Hypothesis tol_lives : forall w n, I w -> I (with_lives n w).


(** ... nor the timers or the position of canvas items. *)
Hypothesis tol_timers : forall w t, I w -> I (with_timers t w).
Hypothesis tol_move : forall w i dx dy,
    I w -> I (with_canvas (Tk.move i dx dy (canvas w)) w).

Lemma keeps_after ms func : keeps I (Game.after ms func).
Proof.
  destruct func as [cb|]; [|apply keeps_sleep].
  apply keeps_modify. intros w Hw. now apply tol_timers.
Qed.

Hint Resolve keeps_after : keeps.

Lemma keeps_game_loop `{Toolkit} : keeps I Game.game_loop.
Proof.
  unfold Game.game_loop.
  apply keeps_bind; [apply keeps_check_collisions|]. intros _.
  repeat first
    [ progress game_go
    | apply keeps_modify; intros ? ?; now apply tol_lives ].
Qed.

Lemma keeps_start_game `{Toolkit} : keeps I Game.start_game.
Proof.
  unfold Game.start_game. pose proof keeps_game_loop. game_go.
Qed.

Lemma keeps_fire `{Toolkit} cb : keeps I (Game.fire cb).
Proof.
  destruct cb; cbn [Game.fire].
  - game_go.
  - apply keeps_start_game.
  - apply keeps_game_loop.
Qed.

Lemma keeps_Game_init : keeps I Game.init.
Proof.
  unfold Game.init.
  apply keeps_bind; [|intros _; game_go].
  apply keeps_modify. intros w Hw. now apply tol_lives.
Qed.

End GameInvariants.

(** ** The direction invariant *)

#[export] Instance balls_ok_tolerant : Tolerant balls_ok unit_direction.
Proof.
  split.
  - intros w c Hw. exact Hw.
  - intros w c Hw. exact Hw.
  - intros w i c Hw. exact Hw.
  - intros w i t Hw. exact Hw.
  - intros w l it r d s Hw Hl. exact (Hw _ _ _ _ _ Hl).
  - intros w l o n Hw Ho l' it r d s. cbn [heap with_heap with_next_loc].
    destruct (decide (l = l')) as [->|Hne].
    + rewrite lookup_insert_eq. intros [= ->]. eapply Ho. reflexivity.
    + rewrite lookup_insert_ne by exact Hne. apply Hw.
  - intros w wd ht its bl pd hd tx bd el Hw. exact Hw.
  - split; [now left | now right].
  - intros [dx dy] [Hx Hy]. split; [cbn in *; lia | exact Hy].
  - intros [dx dy] [Hx Hy]. split; [exact Hx | cbn in *; lia].
  - intros [dx dy] v Hv [Hx Hy]. split; [exact Hv | exact Hy].
Qed.

(** Everything but [game_loop] itself leaves the lives and the timers
    alone. *)
#[export] Instance frame_tolerant (n : Z) (t : list (Z * callback)) :
  Tolerant (fun w => lives w = n /\ timers w = t) (fun _ => True).
Proof. split; try done. Qed.

(** C8.  A new ball has direction [(1, -1)], and [Ball.__init__],
    [Ball.update] and [Ball.collide], however they end, leave every ball
    with both direction components in {-1, +1} if that held before.  The
    same goes for every callback of the game, and the state built by
    [Game.__init__] satisfies it, so it holds throughout a run. *)
Theorem direction_invariant :
  (forall x y w,
     exists it, heap (snd (Ball.init x y w)) !! next_loc w =
                  Some (BallObj it 10 (1, -1) (Some 10)) /\
                fst (Ball.init x y w) = Ret (next_loc w)) /\
  (forall x y w, balls_ok w -> balls_ok (snd (Ball.init x y w))) /\
  (forall b w, balls_ok w -> balls_ok (snd (Ball.update b w))) /\
  (forall b game_objects w,
     balls_ok w -> balls_ok (snd (Ball.collide b game_objects w))) /\
  (forall (T : Toolkit) cb w, balls_ok w -> balls_ok (snd (Game.fire cb w))) /\
  (forall w0, balls_ok (snd (Game.init (Game.blank w0)))).
Proof.
  split; [|split; [|split; [|split; [|split]]]].
  - intros x y w. eexists. cbn. split; [apply lookup_insert_eq|reflexivity].
  - intros x y w. apply keeps_snd, (keeps_Ball_init _ unit_direction).
  - intros b w. apply keeps_snd, (keeps_update _ unit_direction).
    intros w1 ? ? ? Hw1. exact Hw1.
  - intros b objs w. apply keeps_snd, (keeps_collide _ unit_direction).
  - intros T cb w.
    apply keeps_snd, (keeps_fire _ unit_direction); intros w1; intros;
      assumption.
  - intros w0. apply keeps_snd.
    + apply (keeps_Game_init _ unit_direction). intros w1 ? Hw1. exact Hw1.
    + intros l it r d s Hl. cbn in Hl. now rewrite lookup_empty in Hl.
Qed.

(** ** Game.game_loop *)

Lemma game_loop_unfold `{Toolkit} :
  Game.game_loop = bind Game.check_collisions (fun _ => after_collisions).
Proof. reflexivity. Qed.

Lemma the_ball_some w b : ball w = Some b -> Game.the_ball w = (Ret b, w).
Proof. intros E. unfold Game.the_ball. rewrite bind_gets. now rewrite E. Qed.

Lemma the_paddle_some w p :
  paddle w = Some p -> Game.the_paddle w = (Ret p, w).
Proof. intros E. unfold Game.the_paddle. rewrite bind_gets. now rewrite E. Qed.

Lemma check_collisions_frame `{Toolkit} w :
  lives (snd (Game.check_collisions w)) = lives w /\
  timers (snd (Game.check_collisions w)) = timers w.
Proof.
  apply (keeps_snd (fun w' => lives w' = lives w /\ timers w' = timers w));
    [|now split].
  apply (keeps_check_collisions _ (fun _ => True)).
Qed.

Lemma game_loop_run `{Toolkit} w w1 :
  Game.check_collisions w = (Ret tt, w1) ->
  Game.game_loop w = after_collisions w1 /\
  lives w1 = lives w /\ timers w1 = timers w.
Proof.
  intros Hcc. split.
  - rewrite game_loop_unfold. now rewrite (bind_ret _ _ _ _ _ Hcc).
  - generalize (check_collisions_frame w). now rewrite Hcc.
Qed.

(** C5.  A tick whose collision check leaves no canvas item tagged
    'brick': whatever the ball's position, the tick sets the ball's speed to
    [None], draws 'You win!' at (300, 200) and ends; no timer is added, no
    life is lost and nothing else changes. *)
Theorem game_loop_win `{Toolkit} (w w1 : World) b it r d s :
  Game.check_collisions w = (Ret tt, w1) ->
  length (Tk.find_withtag "brick" (canvas w1)) = 0%nat ->
  ball w1 = Some b ->
  heap w1 !! b = Some (BallObj it r d s) ->
  exists w',
    Game.game_loop w = (Ret tt, w') /\
    w' = with_canvas (snd (Tk.create (message "You win!") (canvas w1)))
           (with_heap (<[b := BallObj it r d None]> (heap w1)) w1) /\
    heap w' !! b = Some (BallObj it r d None) /\
    c_items (canvas w') !! c_next (canvas w1) = Some (message "You win!") /\
    timers w' = timers w /\
    lives w' = lives w.
Proof.
  intros Hcc Hnum Hball Hb. destruct d as [dx dy].
  destruct (game_loop_run _ _ Hcc) as (Hloop & Hlives & Htimers).
  eexists. split; [|split; [reflexivity|]].
  - rewrite Hloop. unfold after_collisions. rewrite bind_gets, Hnum.
    cbn [Nat.eqb].
    rewrite (bind_ret _ _ _ _ _ (the_ball_some _ _ Hball)).
    rewrite (bind_ret _ _ _ _ _ (set_speed_ball _ _ _ _ _ _ _ Hb None)).
    reflexivity.
  - cbn [heap canvas timers lives with_canvas with_heap Tk.create snd c_items].
    rewrite !lookup_insert_eq. now rewrite Hlives, Htimers.
Qed.

(** ** Setting up a new ball *)

Lemma Ball_init_run x y w :
  Ball.init x y w =
  (Ret (next_loc w),
   with_next_loc (Pos.succ (next_loc w))
     (with_heap (<[next_loc w := BallObj (c_next (canvas w)) 10 (1, -1)
                                         (Some 10)]> (heap w))
        (with_canvas (snd (Tk.create (ball_item x y) (canvas w))) w))).
Proof. reflexivity. Qed.

Lemma coords_delete i j c :
  i <> j -> Tk.coords i (Tk.delete j c) = Tk.coords i c.
Proof.
  intros Hne. unfold Tk.coords, Tk.delete. cbn [c_items].
  now rewrite lookup_delete_ne by congruence.
Qed.

Lemma set_ball_paddle w p it wd ht bl v :
  heap w !! p = Some (PaddleObj it wd ht bl) ->
  Paddle.set_ball p v w =
  (Ret tt, with_heap (<[p := PaddleObj it wd ht v]> (heap w)) w).
Proof.
  intros Hp. unfold Paddle.set_ball.
  now rewrite (bind_ret _ _ _ _ _ (deref_some _ _ _ Hp)).
Qed.

Lemma add_ball_run w b ob p pit pw ph pb a0 a1 a2 a3 :
  ball w = Some b ->
  heap w !! b = Some ob ->
  paddle w = Some p ->
  heap w !! p = Some (PaddleObj pit pw ph pb) ->
  obj_item ob <> pit ->
  Tk.coords pit (canvas w) = [a0; a1; a2; a3] ->
  heap w !! next_loc w = None ->
  Game.add_ball w =
  (Ret tt,
   let x := ((a0 + a2) * (1 # 2))%Q in
   let c1 := Tk.delete (obj_item ob) (canvas w) in
   let nb := next_loc w in
   with_heap
     (<[p := PaddleObj pit pw ph (Some nb)]>
        (<[nb := BallObj (c_next c1) 10 (1, -1) (Some 10)]> (heap w)))
     (with_ball (Some nb)
        (with_next_loc (Pos.succ nb)
           (with_canvas (snd (Tk.create (ball_item x 310) c1)) w)))).
Proof.
  intros Hball Hb Hpad Hp Hne Hc Hfresh.
  unfold Game.add_ball. rewrite bind_gets, Hball.
  rewrite (bind_ret _ _ _ _ _ (delete_some _ _ _ Hb)).
  set (w1 := with_canvas (Tk.delete (obj_item ob) (canvas w)) w).
  rewrite (bind_ret _ _ _ _ _ (the_paddle_some w1 p Hpad)).
  assert (Hp1 : heap w1 !! p = Some (PaddleObj pit pw ph pb)) by exact Hp.
  rewrite (bind_ret _ _ _ _ _ (get_position_some _ _ _ Hp1)).
  cbn [obj_item]. subst w1. cbn [canvas with_canvas].
  rewrite coords_delete by congruence. rewrite Hc.
  rewrite (bind_index _ 0%nat a0) by reflexivity.
  rewrite (bind_index _ 2%nat a2) by reflexivity.
  cbv zeta.
  rewrite (bind_ret _ _ _ _ _ (Ball_init_run _ _ _)).
  rewrite bind_modify.
  match goal with |- bind _ _ ?w2 = _ => set (w2' := w2) end.
  rewrite (bind_ret _ _ _ _ _ (the_paddle_some w2' p Hpad)).
  assert (Hp2 : heap w2' !! p = Some (PaddleObj pit pw ph pb)).
  { subst w2'. cbn [heap with_heap with_ball with_next_loc with_canvas].
    rewrite lookup_insert_ne; [exact Hp|].
    intros E. change (next_loc w = p) in E. rewrite E in Hfresh. congruence. }
  rewrite (set_ball_paddle _ _ _ _ _ _ _ Hp2). reflexivity.
Qed.

Lemma after_add_ball_run w :
  after_add_ball w =
  (Ret tt,
   mkWorld (snd (Tk.create (message "Press Space to start") (hud_canvas w)))
           (heap w) (next_loc w) (lives w) (width w) (height w) (items w)
           (ball w) (paddle w)
           (match hud w with
            | None => Some (c_next (canvas w))
            | Some i => Some i
            end)
           (Some (c_next (hud_canvas w)))
           (<["<space>"%string := CbStartGame]> (bindings w))
           (timers w) (elapsed w)).
Proof.
  unfold after_add_ball, Game.update_lives_text, hud_canvas.
  destruct w as [c hp nl lv wd ht its bl pd [h|] tx bd tm el]; reflexivity.
Qed.

Lemma coords_itemconfig_text i j t c :
  Tk.coords i (Tk.itemconfig_text j t c) = Tk.coords i c.
Proof.
  unfold Tk.coords, Tk.itemconfig_text. cbn [c_items].
  destruct (decide (j = i)) as [->|Hne].
  - rewrite lookup_alter_eq. now destruct (c_items c !! i).
  - now rewrite lookup_alter_ne by exact Hne.
Qed.

Lemma coords_create i it c :
  i <> c_next c -> Tk.coords i (snd (Tk.create it c)) = Tk.coords i c.
Proof.
  intros Hne. unfold Tk.coords, Tk.create. cbn [c_items snd].
  now rewrite lookup_insert_ne by congruence.
Qed.

Lemma coords_created it c :
  Tk.coords (c_next c) (snd (Tk.create it c)) = ci_coords it.
Proof.
  unfold Tk.coords, Tk.create. cbn [c_items snd].
  now rewrite lookup_insert_eq.
Qed.

Lemma hud_canvas_next w :
  (c_next (canvas w) <= c_next (hud_canvas w))%positive.
Proof. unfold hud_canvas. destruct (hud w); cbn; lia. Qed.

Lemma hud_canvas_coords w i :
  (i < c_next (canvas w))%positive ->
  Tk.coords i (snd (Tk.create (message "Press Space to start") (hud_canvas w)))
  = Tk.coords i (canvas w).
Proof.
  intros Hi. pose proof (hud_canvas_next w) as Hn.
  rewrite coords_create by lia.
  unfold hud_canvas. destruct (hud w) as [h|].
  - apply coords_itemconfig_text.
  - apply coords_create. lia.
Qed.

Lemma setup_game_unfold :
  Game.setup_game = bind Game.add_ball (fun _ => after_add_ball).
Proof. reflexivity. Qed.

(** C4.  A tick whose collision check leaves at least one brick and the
    ball's bottom edge at or below the canvas height: the lost ball's speed
    is set to [None] and the lives go down by exactly one.  If no life is
    left, 'Game Over' is drawn and the tick ends there.  Otherwise
    [setup_game] runs at once: the old ball leaves the canvas, a fresh ball
    (direction (1, -1), speed 10) is created centered over the paddle at
    height 310, becomes the game's ball and is attached to the paddle, and
    the space key is bound to start the game.  Either way no timer is added.
    The game starts with 3 lives. *)
Theorem game_loop_ball_lost `{Toolkit} (w w1 : World) b it r d s x0 y0 x1 y1 :
  Game.check_collisions w = (Ret tt, w1) ->
  length (Tk.find_withtag "brick" (canvas w1)) <> 0%nat ->
  ball w1 = Some b ->
  heap w1 !! b = Some (BallObj it r d s) ->
  Tk.coords it (canvas w1) = [x0; y0; x1; y1] ->
  (inject_Z (height w1) <= y1)%Q ->
  (lives w - 1 <= 0 ->
   exists w',
     Game.game_loop w = (Ret tt, w') /\
     w' = with_canvas (snd (Tk.create (message "Game Over") (canvas w1)))
            (with_lives (lives w - 1)
               (with_heap (<[b := BallObj it r d None]> (heap w1)) w1)) /\
     heap w' !! b = Some (BallObj it r d None) /\
     lives w' = lives w - 1 /\
     c_items (canvas w') !! c_next (canvas w1) = Some (message "Game Over") /\
     timers w' = timers w) /\
  (0 < lives w - 1 ->
   forall p pit pw ph pb a0 a1 a2 a3,
     paddle w1 = Some p ->
     heap w1 !! p = Some (PaddleObj pit pw ph pb) ->
     pit <> it ->
     Tk.coords pit (canvas w1) = [a0; a1; a2; a3] ->
     heap w1 !! next_loc w1 = None ->
     (it < c_next (canvas w1))%positive ->
     exists w' b',
       Game.game_loop w = (Ret tt, w') /\
       heap w' !! b = Some (BallObj it r d None) /\
       lives w' = lives w - 1 /\
       b' <> b /\
       ball w' = Some b' /\
       heap w' !! b' =
         Some (BallObj (c_next (canvas w1)) 10 (1, -1) (Some 10)) /\
       heap w' !! p = Some (PaddleObj pit pw ph (Some b')) /\
       Tk.coords (c_next (canvas w1)) (canvas w') =
         ci_coords (ball_item ((a0 + a2) * (1 # 2)) 310) /\
       Tk.coords it (canvas w') = [] /\
       bindings w' !! "<space>"%string = Some CbStartGame /\
       timers w' = timers w) /\
  (forall w0, lives (snd (Game.init (Game.blank w0))) = 3).
Proof.
  intros Hcc Hnum Hball Hb Hc Hlow. destruct d as [dx dy].
  destruct (game_loop_run _ _ Hcc) as (Hloop & Hlives & Htimers).
  set (w2 := with_lives (lives w1 - 1)
               (with_heap (<[b := BallObj it r (dx, dy) None]> (heap w1)) w1)).
  assert (Hcommon : Game.game_loop w =
    (if lives w1 - 1 <=? 0
     then bind (Game.draw_text 300 200 "Game Over" 40) (fun _ => ret tt)
     else bind Game.setup_game (fun _ => Game.after 1000 None)) w2).
  { rewrite Hloop. unfold after_collisions. rewrite bind_gets.
    apply Nat.eqb_neq in Hnum. rewrite Hnum.
    rewrite (bind_ret _ _ _ _ _ (the_ball_some _ _ Hball)).
    rewrite (bind_ret _ _ _ _ _ (get_position_some _ _ _ Hb)).
    cbn [obj_item]. rewrite Hc.
    rewrite (bind_index _ 3%nat y1) by reflexivity.
    rewrite bind_gets. apply Qle_bool_iff in Hlow. rewrite Hlow.
    rewrite (bind_ret _ _ _ _ _ (the_ball_some _ _ Hball)).
    rewrite (bind_ret _ _ _ _ _ (set_speed_ball _ _ _ _ _ _ _ Hb None)).
    rewrite bind_modify, bind_gets. reflexivity. }
  assert (Hb2 : heap w2 !! b = Some (BallObj it r (dx, dy) None))
    by apply lookup_insert_eq.
  split; [|split].
  - intros Hover. eexists. split; [|split; [reflexivity|]].
    + rewrite Hcommon. apply Z.leb_le in Hover. rewrite Hlives, Hover.
      subst w2. rewrite Hlives. reflexivity.
    + cbn [heap canvas lives timers with_canvas with_lives with_heap
           Tk.create snd c_items].
      rewrite !lookup_insert_eq. now rewrite Htimers.
  - intros Hleft p pit pw ph pb a0 a1 a2 a3 Hpad Hp Hne Hcp Hfresh Hold.
    assert (Hpb : p <> b).
    { intros ->. rewrite Hb in Hp. discriminate. }
    assert (Hnb : next_loc w1 <> b).
    { intros E. rewrite E in Hfresh. rewrite Hb in Hfresh. discriminate. }
    assert (Hnp : next_loc w1 <> p).
    { intros E. rewrite E in Hfresh. rewrite Hp in Hfresh. discriminate. }
    assert (Hp2 : heap w2 !! p = Some (PaddleObj pit pw ph pb)).
    { subst w2. cbn [heap with_lives with_heap].
      now rewrite lookup_insert_ne by congruence. }
    assert (Hfresh2 : heap w2 !! next_loc w2 = None).
    { subst w2. cbn [heap next_loc with_lives with_heap].
      now rewrite lookup_insert_ne by congruence. }
    assert (Hab := add_ball_run w2 b _ p pit pw ph pb a0 a1 a2 a3
                     Hball Hb2 Hpad Hp2 (not_eq_sym Hne) Hcp Hfresh2).
    cbv zeta in Hab. cbn [obj_item] in Hab.
    eexists _, (next_loc w1). split.
    { rewrite Hcommon.
      assert ((lives w1 - 1 <=? 0) = false) as -> by (apply Z.leb_gt; lia).
      rewrite setup_game_unfold, bind_assoc.
      rewrite (bind_ret _ _ _ _ _ Hab).
      rewrite (bind_ret _ _ _ _ _ (after_add_ball_run _)).
      reflexivity. }
    cbn [heap canvas lives timers ball bindings with_canvas with_lives
         with_heap with_ball with_next_loc with_elapsed].
    subst w2.
    cbn [heap canvas lives next_loc with_canvas with_lives with_heap].
    split; [|split; [|split; [|split; [|split; [|split; [|split; [|split;
      [|split]]]]]]]].
    + rewrite !lookup_insert_ne by congruence. apply lookup_insert_eq.
    + now rewrite Hlives.
    + exact Hnb.
    + reflexivity.
    + rewrite lookup_insert_ne by congruence. apply lookup_insert_eq.
    + apply lookup_insert_eq.
    + rewrite hud_canvas_coords by (cbn; lia).
      cbn [canvas with_canvas with_heap with_ball with_next_loc].
      apply (coords_created _ (Tk.delete it (canvas w1))).
    + rewrite hud_canvas_coords by (cbn; lia).
      cbn [canvas with_canvas with_heap with_ball with_next_loc].
      rewrite coords_create by (cbn; lia).
      unfold Tk.coords, Tk.delete. cbn [c_items].
      now rewrite lookup_delete_eq.
    + apply lookup_insert_eq.
    + exact Htimers.
  - intros w0. reflexivity.
Qed.

(** ** The shape of a tick *)

Lemma coords_itemconfig_fill i j col c :
  Tk.coords i (Tk.itemconfig_fill j col c) = Tk.coords i c.
Proof.
  unfold Tk.coords, Tk.itemconfig_fill. cbn [c_items].
  destruct (decide (j = i)) as [->|Hne].
  - rewrite lookup_alter_eq. now destruct (c_items c !! i).
  - now rewrite lookup_alter_ne by exact Hne.
Qed.

Lemma coords_deleted i c : Tk.coords i (Tk.delete i c) = [].
Proof.
  unfold Tk.coords, Tk.delete. cbn [c_items]. now rewrite lookup_delete_eq.
Qed.

#[export] Instance unmoved_tolerant it c0 t :
  Tolerant (unmoved it c0 t) (fun _ => True).
Proof.
  split; try done.
  - intros w ci (Hlt & Hc & Ht). split; [cbn; lia|]. split; [|exact Ht].
    cbn [canvas with_canvas]. rewrite coords_create by lia. exact Hc.
  - intros w i (Hlt & Hc & Ht). split; [exact Hlt|]. split; [|exact Ht].
    cbn [canvas with_canvas].
    destruct (decide (it = i)) as [->|Hne].
    + right. apply coords_deleted.
    + rewrite coords_delete by exact Hne. exact Hc.
  - intros w i c (Hlt & Hc & Ht). split; [exact Hlt|]. split; [|exact Ht].
    cbn [canvas with_canvas]. rewrite coords_itemconfig_fill. exact Hc.
  - intros w i c (Hlt & Hc & Ht). split; [exact Hlt|]. split; [|exact Ht].
    cbn [canvas with_canvas]. rewrite coords_itemconfig_text. exact Hc.
Qed.

Lemma check_collisions_run `{Toolkit} w b ob x0 y0 x1 y1 :
  ball w = Some b ->
  heap w !! b = Some ob ->
  Tk.coords (obj_item ob) (canvas w) = [x0; y0; x1; y1] ->
  Game.check_collisions w =
  Ball.collide b
    (omap (fun x => items w !! x) (find_overlapping (canvas w) x0 y0 x1 y1)) w.
Proof.
  intros Hball Hb Hc. unfold Game.check_collisions.
  rewrite (bind_ret _ _ _ _ _ (the_ball_some _ _ Hball)).
  rewrite (bind_ret _ _ _ _ _ (get_position_some _ _ _ Hb)), Hc.
  rewrite !bind_gets.
  now rewrite (bind_ret _ _ _ _ _ (the_ball_some _ _ Hball)).
Qed.


(** ** The theorems at the sample runs *)

Ltac compute_it := vm_compute; reflexivity.

Lemma Ball_update_witness :
  exists dx' dy',
    dx' = 1 /\ dy' = -1 /\
    fst (Ball.update 26%positive started) = Ret tt /\
    Tk.coords 26%positive (canvas (snd (Ball.update 26%positive started))) =
    [(9600 # 32) + inject_Z (dx' * 10); 290 + inject_Z (dy' * 10);
     (10240 # 32) + inject_Z (dx' * 10); 310 + inject_Z (dy' * 10)]%Q.
Proof.
  destruct (Ball_update_spec started 26%positive 26%positive 10 1 (-1) 10
              (9600 # 32) 290 (10240 # 32) 310)
    as (dx' & dy' & _ & Hx & _ & Hy & Hrun & Hco);
    [compute_it | compute_it |].
  exists dx', dy'.
  split; [apply Hx; intros [E|E]; apply E; reflexivity|].
  split; [apply Hy; intros E; apply E; reflexivity|].
  rewrite Hrun. split; [reflexivity|exact Hco].
Defined.

Lemma run_pair (m : M unit) w : fst (m w) = Ret tt -> m w = (Ret tt, snd (m w)).
Proof. destruct (m w) as [[[]|e] w']; cbn; intros E; congruence. Qed.

Lemma Ball_collide_witness :
  exists w',
    Ball.collide 26%positive [22%positive] world_hit = (Ret tt, w') /\
    heap w' !! 26%positive = Some (BallObj 26%positive 10 (1, 1) (Some 10)) /\
    heap w' !! 22%positive = Some (BrickObj 22%positive 75 20 0).
Proof.
  destruct (Ball_collide_spec world_hit 26%positive 26%positive 10 1 (-1)
              (Some 10) (15680 # 32) 100 (16320 # 32) 120 [22%positive])
    as (w' & d' & Hrun & Hb & _ & Hone & Hhit & _).
  - compute_it.
  - compute_it.
  - discriminate.
  - apply NoDup_singleton.
  - intros l Hl. apply list_elem_of_singleton in Hl. subst l.
    exists (BrickObj 22%positive 75 20 1),
      (1820 # 4), (160 # 2), (2120 # 4), (200 # 2).
    split; [compute_it|]. split; [compute_it|].
    intros ? ? ? ? [= <- <- <- <-]. lia.
  - exists w'. split; [exact Hrun|].
    destruct (Hone 22%positive (BrickObj 22%positive 75 20 1)
                (1820 # 4) (160 # 2) (2120 # 4) (200 # 2))
      as (_ & _ & Hmid);
      [reflexivity | compute_it | compute_it | discriminate |].
    rewrite Hmid in Hb; [|split; discriminate].
    split; [exact Hb|].
    apply (Hhit 22%positive 22%positive 75 20 1); [left|compute_it].
Defined.

Lemma Brick_hit_witness :
  exists w',
    Brick.hit 2%positive world0 = (Ret tt, w') /\
    heap w' !! 2%positive = Some (BrickObj 2%positive 75 20 2) /\
    exists ci, c_items (canvas w') !! 2%positive = Some ci /\
               ci_fill ci = "#555555"%string.
Proof.
  destruct (Brick_hit_spec world0 2%positive 2%positive 75 20 3
              (mkCItem Rectangle [20 # 4; 80 # 2; 320 # 4; 120 # 2]%Q
                       "#222222" ["brick"%string] "" None))
    as (out & w' & Hrun & Hheap & _ & Hpos & _);
    [compute_it | compute_it | lia |].
  destruct Hpos as (col & -> & Hcol & Hitem); [lia|].
  exists w'. split; [exact Hrun|]. split; [exact Hheap|].
  eexists. split; [exact Hitem|]. cbn [ci_fill set_fill].
  assert (Some col = Some "#555555"%string) as [= ->]; [|reflexivity].
  rewrite <- Hcol. reflexivity.
Defined.

Ltac compute_ne := vm_compute; discriminate.


Lemma game_loop_ball_lost_witness :
  (exists w' b',
     @Game.game_loop box_toolkit world_falling = (Ret tt, w') /\
     lives w' = 2 /\
     ball w' = Some b' /\
     heap w' !! b' = Some (BallObj 29%positive 10 (1, -1) (Some 10)) /\
     heap w' !! 1%positive = Some (PaddleObj 1%positive 80 10 (Some b')) /\
     heap w' !! 26%positive = Some (BallObj 26%positive 10 (-1, 1) None)) /\
  (exists w',
     @Game.game_loop box_toolkit world_last_life = (Ret tt, w') /\
     lives w' = 0 /\
     c_items (canvas w') !! 29%positive = Some (message "Game Over")).
Proof.
  split.
  - destruct (@game_loop_ball_lost box_toolkit world_falling world_falling
                26%positive 26%positive 10 (-1, 1) (Some 10)
                (13120 # 32) 380 (13760 # 32) 400)
      as (_ & Hnew & _);
      [compute_it | compute_ne | compute_it | compute_it | compute_it
      | compute_ne |].
    destruct (Hnew ltac:(compute_it) 1%positive 1%positive 80 10 None
                (1040 # 4)%Q (642 # 2)%Q (1360 # 4)%Q (662 # 2)%Q)
      as (w' & b' & Hrun & Hold & Hlives & _ & Hball & Hb' & Hp & _);
      [compute_it | compute_it | discriminate | compute_it | compute_it
      | compute_it |].
    exists w', b'. repeat split; assumption.
  - destruct (@game_loop_ball_lost box_toolkit world_last_life world_last_life
                26%positive 26%positive 10 (-1, 1) (Some 10)
                (13120 # 32) 380 (13760 # 32) 400)
      as (Hover & _ & _);
      [compute_it | compute_ne | compute_it | compute_it | compute_it
      | compute_ne |].
    destruct (Hover ltac:(compute_ne))
      as (w' & Hrun & _ & _ & Hlives & Htext & _).
    exists w'. repeat split; assumption.
Defined.

Lemma game_loop_win_witness :
  exists w',
    @Game.game_loop box_toolkit world_last_brick = (Ret tt, w') /\
    heap w' !! 26%positive = Some (BallObj 26%positive 10 (1, 1) None) /\
    c_items (canvas w') !! 29%positive = Some (message "You win!") /\
    timers w' = [] /\
    lives w' = 3.
Proof.
  destruct (@game_loop_win box_toolkit world_last_brick
              (snd (@Game.check_collisions box_toolkit world_last_brick))
              26%positive 26%positive 10 (1, 1) (Some 10))
    as (w' & Hrun & _ & Hb & Htext & Htimers & Hlives);
    [apply run_pair; compute_it | compute_it | compute_it | compute_it |].
  exists w'. split; [exact Hrun|]. split; [exact Hb|].
  split; [rewrite <- Htext; f_equal; compute_it|].
  split; [rewrite Htimers; compute_it | rewrite Hlives; compute_it].
Defined.


Lemma Paddle_slide_witness :
  (exists w' x0' x1',
     Paddle.slide 1%positive 10 world0 = (Ret tt, w') /\
     Tk.coords 1%positive (canvas w') = [x0'; 642 # 2; x1'; 662 # 2]%Q /\
     x0' = ((1040 # 4) + 10)%Q /\ x1' = ((1360 # 4) + 10)%Q) /\
  (exists w' x0' x1',
     for_each [500; -10; -1000; 10]%Q (Paddle.slide 1%positive) world0 =
       (Ret tt, w') /\
     Tk.coords 1%positive (canvas w') = [x0'; 642 # 2; x1'; 662 # 2]%Q /\
     (0 <= x0')%Q /\ (x1' <= 604)%Q).
Proof.
  assert (Hready : paddle_ready world0 1%positive 1%positive
                     (1040 # 4) (642 # 2) (1360 # 4) (662 # 2)).
  { split; [|compute_it].
    exists 80, 10, (Some 26%positive). split; [compute_it|].
    intros b [= <-]. exists (BallObj 26%positive 10 (1, -1) (Some 10)).
    split; [compute_it|discriminate]. }
  destruct (Paddle_slide_spec world0 1%positive 1%positive
              (1040 # 4) (642 # 2) (1360 # 4) (662 # 2) Hready)
    as [Hone Hseq].
  split.
  - destruct (Hone 10%Q) as (w' & x0' & x1' & Hrun & Hc & Hyes & _).
    exists w', x0', x1'. split; [exact Hrun|]. split; [exact Hc|].
    apply Hyes. split; compute_ne.
  - destruct (Hseq [500; -10; -1000; 10]%Q)
      as (w' & x0' & x1' & Hrun & Hc & H0 & H1);
      [compute_ne | compute_ne |].
    exists w', x0', x1'. repeat split; assumption.
Defined.

Lemma balls_ok_with_timers t w : balls_ok w -> balls_ok (with_timers t w).
Proof. intros Hw l it r d s Hl. exact (Hw l it r d s Hl). Qed.

Lemma direction_invariant_witness :
  balls_ok world0 /\
  balls_ok started /\
  balls_ok (snd (Ball.update 26%positive started)) /\
  balls_ok (snd (Ball.collide 26%positive [22%positive] world_hit)) /\
  balls_ok (snd (Ball.init 300 310 world_falling)).
Proof.
  destruct direction_invariant
    as (Hnew & Hinit & Hupdate & Hcollide & Hfire & Hgame).
  assert (H0 : balls_ok world0) by apply Hgame.
  assert (H1 : balls_ok started) by (apply Hfire; exact H0).
  assert (Hloop : forall n w, balls_ok w ->
            balls_ok (snd (@mainloop box_toolkit n w))).
  { induction n as [|n IH]; intros w Hw; [exact Hw|].
    cbn [mainloop]. unfold bind at 1.
    assert (Hstep : balls_ok (snd (@next_timer box_toolkit w))).
    { unfold next_timer. rewrite bind_gets.
      destruct (timers w) as [|[ms cb] rest]; [exact Hw|].
      rewrite bind_modify. apply Hfire. exact Hw. }
    destruct (@next_timer box_toolkit w) as [[[]|e] w']; [|exact Hstep].
    apply IH. exact Hstep. }
  assert (Hat : forall n, balls_ok (world_at n)).
  { intros n. unfold world_at.
    apply (balls_ok_with_timers [] (snd (@mainloop box_toolkit n started))).
    apply Hloop. exact H1. }
  split; [exact H0|]. split; [exact H1|].
  split; [apply Hupdate; exact H1|].
  split.
  - apply Hcollide. exact (Hat 19%nat).
  - apply Hinit. exact (Hat 47%nat).
Defined.

Lemma Paddle_slide_ball_witness :
  exists w',
    Paddle.slide 1%positive (-10) world_left = (Ret tt, w') /\
    Tk.coords 26%positive (canvas w') =
      [(0 # 32) + -10; 300; (640 # 32) + -10; 320]%Q /\
    Tk.coords 1%positive (canvas w') = [0 # 4; 642 # 2; 320 # 4; 662 # 2]%Q.
Proof.
  destruct (proj1 Paddle_slide_ball world_left 1%positive 26%positive
              1%positive 80 10 (BallObj 26%positive 10 (1, -1) (Some 10))
              (0 # 4)%Q (642 # 2)%Q (320 # 4)%Q (662 # 2)%Q
              (0 # 32)%Q 300%Q (640 # 32)%Q 320%Q (-10)%Q)
    as (w' & Hrun & Hball & Hpaddle);
    [compute_it | compute_it | compute_it | discriminate | compute_it |].
  exists w'. split; [exact Hrun|]. split; [exact Hball|].
  apply Hpaddle. compute_it.
Defined.

Lemma Brick_KeyError_witness :
  Brick.init 30 40 4 world0 = (Raise KeyError, world0) /\
  (exists l w', Brick.init 30 40 2 world0 = (Ret l, w')) /\
  (exists w', Brick.hit 4%positive world_dead = (Raise KeyError, w')) /\
  (exists w', Brick.hit 2%positive world0 = (Ret tt, w')).
Proof.
  split; [|split; [|split]].
  - apply (proj1 (Brick_KeyError world0)). lia.
  - destruct (proj1 (proj2 (Brick_KeyError world0)) 30%Q 40%Q 2)
      as (l & w' & Hrun & _); [lia|].
    now exists l, w'.
  - apply (proj1 (proj2 (proj2 (Brick_KeyError world_dead)))
             4%positive 4%positive 75 20 0); [compute_it | lia | lia].
  - apply (proj2 (proj2 (proj2 (Brick_KeyError world0)))
             2%positive 2%positive 75 20 3); [compute_it | lia].
Defined.

(** * Runs of the whole game *)

(** ** Canvas changes that keep the look of every item *)

Lemma move_coords_length dx dy l :
  length (move_coords dx dy l) = length l.
Proof.
  enough (forall l,
    length (move_coords dx dy l) = length l /\
    forall x, length (move_coords dx dy (x :: l)) = length (x :: l))
    as Hboth by apply Hboth.
  clear l. induction l as [|a l [IH1 IH2]].
  - split; [reflexivity|]. intros x. reflexivity.
  - split; [apply IH2|]. intros x. cbn [move_coords length]. now rewrite IH1.
Qed.

Lemma retouched_refl c : retouched c c.
Proof. split; [reflexivity|]. intros i. now destruct (c_items c !! i). Qed.

Lemma retouched_trans c1 c2 c3 :
  retouched c1 c2 -> retouched c2 c3 -> retouched c1 c3.
Proof.
  intros [Hn1 H1] [Hn2 H2]. split; [congruence|]. intros i.
  specialize (H1 i). specialize (H2 i).
  destruct (c_items c1 !! i), (c_items c2 !! i), (c_items c3 !! i);
    try done.
  destruct H1 as (? & ? & ? & ?), H2 as (? & ? & ? & ?).
  repeat split; congruence.
Qed.

Lemma retouched_move c (i : item) dx dy : retouched c (Tk.move i dx dy c).
Proof.
  split; [reflexivity|]. intros j. unfold Tk.move. cbn [c_items].
  destruct (decide (i = j)) as [->|Hne].
  - rewrite lookup_alter_eq. destruct (c_items c !! j) as [a|]; [|done].
    cbn. repeat split. apply move_coords_length.
  - rewrite lookup_alter_ne by exact Hne. now destruct (c_items c !! j).
Qed.

Lemma retouched_coords c c' (i : item) :
  retouched c c' -> length (Tk.coords i c') = length (Tk.coords i c).
Proof.
  intros [_ H]. specialize (H i). unfold Tk.coords.
  destruct (c_items c !! i), (c_items c' !! i); try done. apply H.
Qed.

Lemma core_retouched w b bit p pit h n c' :
  core w b bit p pit h n -> retouched (canvas w) c' ->
  core (with_canvas c' w) b bit p pit h n.
Proof.
  intros [H1 H2 H3 H4 H5 H6 H7 H8 H9 H10 H11 H12 H13 H14 H15 H16 H17]
         Hr.
  pose proof Hr as [Hn Hi].
  split; cbn [heap canvas items ball paddle hud text bindings next_loc
              with_canvas]; try assumption.
  - intros i ci Hci. rewrite Hn. specialize (Hi i). rewrite Hci in Hi.
    destruct (c_items (canvas w) !! i) as [a|] eqn:E; simpl in Hi; [|done].
    eauto.
  - intros i l Hl. rewrite Hn. eauto.
  - intros i l Hl. destruct (H4 i l Hl) as (o & Ho & Hit & Hlist).
    exists o. split; [exact Ho|]. split; [exact Hit|].
    destruct o as [| i' ? ? ? | i' ? ? hits]; cbn [listed canvas with_canvas] in *.
    + done.
    + now rewrite (retouched_coords _ _ _ Hr).
    + specialize (Hi i').
      destruct (c_items (canvas w) !! i') as [a|],
               (c_items c' !! i') as [a'|]; try done.
      destruct Hi as (-> & -> & _ & ->). exact Hlist.
  - intros i ci Hci Htag. specialize (Hi i). rewrite Hci in Hi.
    destruct (c_items (canvas w) !! i) as [a|] eqn:E; simpl in Hi; [|done].
    destruct Hi as (_ & Ht & _). rewrite Ht in Htag. eauto.
  - now rewrite (retouched_coords _ _ _ Hr).
  - destruct H14 as (ci & Hci & Htx). specialize (Hi h). rewrite Hci in Hi.
    destruct (c_items c' !! h) as [a'|]; simpl in Hi; [|done].
    exists a'. split; [reflexivity|]. destruct Hi as (_ & _ & -> & _). exact Htx.
  - intros t Ht. rewrite Hn. auto.
Qed.

(** ** Updates that keep the shape of the stores *)

Lemma coords_drawn (i : item) c :
  length (Tk.coords i c) = 4%nat -> is_Some (c_items c !! i).
Proof.
  unfold Tk.coords. destruct (c_items c !! i); [now eexists|discriminate].
Qed.

Lemma coords_four (l : list Q) :
  length l = 4%nat -> exists a0 a1 a2 a3, l = [a0; a1; a2; a3].
Proof.
  destruct l as [|a0 [|a1 [|a2 [|a3 [|]]]]]; try discriminate.
  intros _. now exists a0, a1, a2, a3.
Qed.

Section Core.
Context (w : World) (b : loc) (bit : item) (p : loc) (pit h : item) (n : Z).
Hypothesis Hcore : core w b bit p pit h n.

Lemma core_ball_lt : (bit < c_next (canvas w))%positive.
Proof.
  destruct (coords_drawn _ _ (c_ball_box _ _ _ _ _ _ _ Hcore)) as [ci Hci].
  exact (c_canvas_lt _ _ _ _ _ _ _ Hcore _ _ Hci).
Qed.

Lemma core_hud_lt : (h < c_next (canvas w))%positive.
Proof.
  destruct (c_hud_item _ _ _ _ _ _ _ Hcore) as (ci & Hci & _).
  exact (c_canvas_lt _ _ _ _ _ _ _ Hcore _ _ Hci).
Qed.

Lemma core_fresh_loc : heap w !! next_loc w = None.
Proof.
  destruct (heap w !! next_loc w) as [o|] eqn:E; [|reflexivity].
  pose proof (c_heap_lt _ _ _ _ _ _ _ Hcore _ _ E). lia.
Qed.

Lemma core_fresh_item : items w !! c_next (canvas w) = None.
Proof.
  destruct (items w !! c_next (canvas w)) as [l|] eqn:E; [|reflexivity].
  pose proof (c_items_lt _ _ _ _ _ _ _ Hcore _ _ E). lia.
Qed.

Lemma core_ball_store r d s :
  core (with_heap (<[b := BallObj bit r d s]> (heap w)) w) b bit p pit h n.
Proof.
  destruct Hcore as [H1 H2 H3 H4 H5 H6 H7 H8 H9 H10 H11 H12 H13 H14 H15 H16 H17].
  destruct H7 as (r0 & d0 & s0 & Hb).
  split; cbn [heap canvas items ball paddle hud text bindings next_loc
              with_heap]; try assumption.
  - intros l o. destruct (decide (b = l)) as [<-|Hne].
    + intros _. eauto.
    + rewrite lookup_insert_ne by exact Hne. apply H1.
  - intros i l Hl. destruct (H4 i l Hl) as (o & Ho & Hit & Hlist).
    exists o. split; [|now split].
    rewrite lookup_insert_ne; [exact Ho|].
    intros <-. rewrite Hb in Ho. injection Ho as <-. exact Hlist.
  - intros i ci Hci Htag.
    destruct (H5 i ci Hci Htag) as (l & wd & ht & hits & Hl & Ho).
    exists l, wd, ht, hits. split; [exact Hl|].
    rewrite lookup_insert_ne; [exact Ho|].
    intros <-. rewrite Hb in Ho. discriminate.
  - exists r, d, s. apply lookup_insert_eq.
  - destruct H11 as (pb & Hp & Hpb). exists pb. split; [|exact Hpb].
    rewrite lookup_insert_ne; [exact Hp|].
    intros <-. rewrite Hb in Hp. discriminate.
Qed.

Lemma core_paddle_store pb :
  pb = None \/ pb = Some b ->
  core (with_heap (<[p := PaddleObj pit 80 10 pb]> (heap w)) w) b bit p pit h n.
Proof.
  intros Hpb.
  destruct Hcore as [H1 H2 H3 H4 H5 H6 H7 H8 H9 H10 H11 H12 H13 H14 H15 H16 H17].
  destruct H7 as (r0 & d0 & s0 & Hb). destruct H11 as (pb0 & Hp & _).
  split; cbn [heap canvas items ball paddle hud text bindings next_loc
              with_heap]; try assumption.
  - intros l o. destruct (decide (p = l)) as [<-|Hne].
    + intros _. eauto.
    + rewrite lookup_insert_ne by exact Hne. apply H1.
  - intros i l Hl. destruct (H4 i l Hl) as (o & Ho & Hit & Hlist).
    destruct (decide (p = l)) as [<-|Hne].
    + rewrite Hp in Ho. injection Ho as <-.
      exists (PaddleObj pit 80 10 pb). split; [apply lookup_insert_eq|].
      split; [exact Hit|exact Hlist].
    + exists o. split; [|now split]. now rewrite lookup_insert_ne.
  - intros i ci Hci Htag.
    destruct (H5 i ci Hci Htag) as (l & wd & ht & hits & Hl & Ho).
    exists l, wd, ht, hits. split; [exact Hl|].
    rewrite lookup_insert_ne; [exact Ho|].
    intros <-. rewrite Hp in Ho. discriminate.
  - exists r0, d0, s0. rewrite lookup_insert_ne; [exact Hb|].
    intros <-. rewrite Hp in Hb. discriminate.
  - exists pb. split; [apply lookup_insert_eq|exact Hpb].
Qed.

(** A new canvas item that is not tagged as a brick. *)
Lemma core_create ci0 :
  "brick"%string ∉ ci_tags ci0 ->
  core (with_canvas (snd (Tk.create ci0 (canvas w))) w) b bit p pit h n.
Proof.
  intros Hplain.
  pose proof core_ball_lt as Hbit. pose proof core_hud_lt as Hh.
  destruct Hcore as [H1 H2 H3 H4 H5 H6 H7 H8 H9 H10 H11 H12 H13 H14 H15 H16 H17].
  split; cbn [heap canvas items ball paddle hud text bindings next_loc
              with_canvas]; try assumption.
  - intros i ci. cbn [Tk.create snd c_items c_next].
    destruct (decide (c_next (canvas w) = i)) as [<-|Hne].
    + intros _. lia.
    + rewrite lookup_insert_ne by exact Hne. intros Hci.
      pose proof (H2 i ci Hci). lia.
  - intros i l Hl. pose proof (H3 i l Hl). cbn. lia.
  - intros i l Hl. destruct (H4 i l Hl) as (o & Ho & Hit & Hlist).
    exists o. split; [exact Ho|]. split; [exact Hit|].
    pose proof (H3 i l Hl) as Hlt. subst i.
    destruct o as [| i ? ? ? | i ? ? hits];
      cbn [listed obj_item canvas with_canvas] in *.
    + done.
    + rewrite coords_create by lia. exact Hlist.
    + cbn [Tk.create snd c_items].
      rewrite lookup_insert_ne by lia. exact Hlist.
  - intros i ci. cbn [Tk.create snd c_items].
    destruct (decide (c_next (canvas w) = i)) as [<-|Hne].
    + rewrite lookup_insert_eq. intros [= <-] Htag. contradiction.
    + rewrite lookup_insert_ne by exact Hne. apply H5.
  - rewrite coords_create by lia. exact H8.
  - destruct H14 as (ci & Hci & Htx). exists ci. split; [|exact Htx].
    cbn [Tk.create snd c_items].
    rewrite lookup_insert_ne by lia. exact Hci.
  - intros t Ht. destruct (H16 t Ht) as (? & ? & ? & ?).
    repeat split; try assumption. cbn. lia.
Qed.

(** Deleting a canvas item that is neither the ball, nor the HUD, nor
    registered. *)
Lemma core_delete (t : item) :
  t <> bit -> t <> h -> items w !! t = None ->
  core (with_canvas (Tk.delete t (canvas w)) w) b bit p pit h n.
Proof.
  intros Htb Hth Hti.
  destruct Hcore as [H1 H2 H3 H4 H5 H6 H7 H8 H9 H10 H11 H12 H13 H14 H15 H16 H17].
  split; cbn [heap canvas items ball paddle hud text bindings next_loc
              with_canvas]; try assumption.
  - intros i ci Hci. cbn [Tk.delete c_items c_next] in *.
    apply lookup_delete_Some in Hci as [_ Hci]. eauto.
  - intros i l Hl. destruct (H4 i l Hl) as (o & Ho & Hit & Hlist).
    exists o. split; [exact Ho|]. split; [exact Hit|].
    assert (Hne : i <> t) by (intros ->; congruence). subst i.
    destruct o as [| i ? ? ? | i ? ? hits];
      cbn [listed obj_item canvas with_canvas] in *.
    + done.
    + rewrite coords_delete by exact Hne. exact Hlist.
    + cbn [Tk.delete c_items].
      rewrite lookup_delete_ne by congruence. exact Hlist.
  - intros i ci Hci. cbn [Tk.delete c_items] in Hci.
    apply lookup_delete_Some in Hci as [_ Hci]. eauto.
  - rewrite coords_delete by congruence. exact H8.
  - destruct H14 as (ci & Hci & Htx). exists ci. split; [|exact Htx].
    cbn [Tk.delete c_items].
    rewrite lookup_delete_ne by congruence. exact Hci.
Qed.

(** [update_lives_text] on an existing HUD. *)
Lemma core_hud_text (m : Z) :
  core (with_canvas
          (Tk.itemconfig_text h ("Lives: " ++ pretty m) (canvas w)) w)
       b bit p pit h m.
Proof.
  destruct Hcore as [H1 H2 H3 H4 H5 H6 H7 H8 H9 H10 H11 H12 H13 H14 H15 H16 H17].
  destruct H15 as [Hhb Hhi].
  split; cbn [heap canvas items ball paddle hud text bindings next_loc
              with_canvas];
    try assumption; try (split; assumption).
  - intros i ci Hci. cbn [Tk.itemconfig_text c_items c_next] in *.
    apply lookup_alter_Some in Hci.
    destruct Hci as [(_ & ci' & Hci' & _)|[_ Hci']]; eauto.
  - intros i l Hl. destruct (H4 i l Hl) as (o & Ho & Hit & Hlist).
    exists o. split; [exact Ho|]. split; [exact Hit|].
    assert (Hne : h <> i) by (intros ->; congruence). subst i.
    destruct o as [| i ? ? ? | i ? ? hits];
      cbn [listed obj_item canvas with_canvas] in *.
    + done.
    + rewrite coords_itemconfig_text. exact Hlist.
    + cbn [Tk.itemconfig_text c_items].
      rewrite lookup_alter_ne by exact Hne. exact Hlist.
  - intros i ci Hci Htag. cbn [Tk.itemconfig_text c_items] in Hci.
    apply lookup_alter_Some in Hci.
    destruct Hci as [(-> & ci' & Hci' & ->)|[_ Hci']]; eauto.
  - rewrite coords_itemconfig_text. exact H8.
  - destruct H14 as (ci & Hci & _).
    exists (set_text ("Lives: " ++ pretty m) ci).
    split; [|reflexivity]. cbn [Tk.itemconfig_text c_items].
    rewrite lookup_alter_eq, Hci. reflexivity.
Qed.

End Core.

Section CoreUpdates.
Context (w : World) (b : loc) (bit : item) (p : loc) (pit h : item) (n : Z).
Hypothesis Hcore : core w b bit p pit h n.

(** One hit on a registered brick that is on the canvas. *)
Lemma core_hit (i : item) (l : loc) wd ht hits ci :
  items w !! i = Some l ->
  heap w !! l = Some (BrickObj i wd ht hits) ->
  c_items (canvas w) !! i = Some ci ->
  exists c',
    Brick.hit l w =
      (Ret tt,
       with_canvas c'
         (with_heap (<[l := BrickObj i wd ht (hits - 1)]> (heap w)) w)) /\
    core (with_canvas c'
            (with_heap (<[l := BrickObj i wd ht (hits - 1)]> (heap w)) w))
         b bit p pit h n /\
    (forall j : item, j <> i -> c_items c' !! j = c_items (canvas w) !! j) /\
    (c_items c' !! i = None <-> hits - 1 = 0).
Proof.
  intros Hil Hl Hci.
  destruct Hcore as [H1 H2 H3 H4 H5 H6 H7 H8 H9 H10 H11 H12 H13 H14 H15 H16 H17].
  destruct (H4 i l Hil) as (o & Ho & _ & Hlist).
  rewrite Hl in Ho. injection Ho as <-.
  cbn [listed] in Hlist. rewrite Hci in Hlist.
  destruct Hlist as (Hhits & Hcol & Hlen & Htag).
  destruct H7 as (r0 & d0 & s0 & Hb). destruct H11 as (pb & Hp & Hpb).
  destruct H15 as [Hhb Hhi].
  assert (Hib : i <> bit) by (intros ->; congruence).
  assert (Hih : i <> h) by (intros ->; congruence).
  assert (Hlb : l <> b) by (intros ->; congruence).
  assert (Hlp : l <> p) by (intros ->; congruence).
  set (c' := if hits - 1 =? 0 then Tk.delete i (canvas w)
             else match Brick.COLORS !! (hits - 1) with
                  | Some c => Tk.itemconfig_fill i c (canvas w)
                  | None => canvas w
                  end).
  assert (Hother : forall j : item,
            j <> i -> c_items c' !! j = c_items (canvas w) !! j).
  { intros j Hj. subst c'. destruct (hits - 1 =? 0).
    - cbn. now rewrite lookup_delete_ne by congruence.
    - destruct (Brick.COLORS !! (hits - 1)); [|reflexivity].
      cbn. now rewrite lookup_alter_ne by congruence. }
  assert (Hnext : c_next c' = c_next (canvas w)).
  { subst c'. destruct (hits - 1 =? 0); [reflexivity|].
    now destruct (Brick.COLORS !! (hits - 1)). }
  assert (Hself :
    match c_items c' !! i with
    | Some a => 1 <= hits - 1 <= 3 /\
                Brick.COLORS !! (hits - 1) = Some (ci_fill a) /\
                length (ci_coords a) = 4%nat /\ "brick"%string ∈ ci_tags a
    | None => hits - 1 = 0
    end).
  { subst c'. destruct (hits - 1 =? 0) eqn:E.
    - apply Z.eqb_eq in E. cbn. now rewrite lookup_delete_eq.
    - apply Z.eqb_neq in E.
      destruct (COLORS_some (hits - 1)) as [c Hc]; [lia|]. rewrite Hc.
      cbn. rewrite lookup_alter_eq, Hci. cbn.
      repeat split; try assumption; lia. }
  assert (Hcoords : forall j : item,
            j <> i -> Tk.coords j c' = Tk.coords j (canvas w)).
  { intros j Hj. unfold Tk.coords. now rewrite Hother. }
  exists c'. split; [|split; [|split]].
  - rewrite (hit_run _ _ _ _ _ _ Hl). cbv zeta. subst c'.
    destruct (hits - 1 =? 0) eqn:E; [reflexivity|].
    apply Z.eqb_neq in E.
    destruct (COLORS_some (hits - 1)) as [c Hc]; [lia|]. now rewrite Hc.
  - split; cbn [heap canvas items ball paddle hud text bindings next_loc
                with_canvas with_heap]; try assumption;
      try (split; assumption).
    + intros l' o'. destruct (decide (l = l')) as [<-|Hne].
      * intros _. eauto.
      * rewrite lookup_insert_ne by exact Hne. apply H1.
    + intros j cj Hcj. rewrite Hnext.
      destruct (decide (j = i)) as [->|Hne]; [eauto|].
      rewrite Hother in Hcj by exact Hne. eauto.
    + intros j l' Hj. rewrite Hnext. eauto.
    + intros j l' Hj. destruct (H4 j l' Hj) as (o & Ho & Hit & Hlist).
      destruct (decide (l = l')) as [<-|Hne].
      * rewrite Hl in Ho. injection Ho as <-. cbn in Hit. subst j.
        exists (BrickObj i wd ht (hits - 1)).
        split; [apply lookup_insert_eq|]. split; [reflexivity|].
        cbn [listed canvas with_canvas]. exact Hself.
      * exists o. split; [now rewrite lookup_insert_ne|].
        split; [exact Hit|].
        assert (Hji : j <> i) by (intros ->; congruence). subst j.
        destruct o as [| j ? ? ? | j ? ? hj];
          cbn [listed obj_item canvas with_canvas] in *.
        -- done.
        -- now rewrite Hcoords.
        -- now rewrite Hother.
    + intros j cj Hcj Htg. destruct (decide (j = i)) as [->|Hne].
      * exists l, wd, ht, (hits - 1). split; [exact Hil|].
        apply lookup_insert_eq.
      * rewrite Hother in Hcj by exact Hne.
        destruct (H5 j cj Hcj Htg) as (l' & wd' & ht' & hj & Hl' & Ho').
        exists l', wd', ht', hj. split; [exact Hl'|].
        rewrite lookup_insert_ne; [exact Ho'|].
        intros <-. rewrite Hl in Ho'. congruence.
    + exists r0, d0, s0. now rewrite lookup_insert_ne.
    + now rewrite Hcoords by congruence.
    + exists pb. split; [|exact Hpb]. now rewrite lookup_insert_ne.
    + destruct H14 as (ch & Hch & Htx). exists ch. split; [|exact Htx].
      now rewrite Hother by congruence.
    + intros t Ht. rewrite Hnext. auto.
  - exact Hother.
  - destruct (c_items c' !! i) as [a|] eqn:E.
    + split; [discriminate|]. lia.
    + split; [intros _; exact Hself | reflexivity].
Qed.

(** Changing the fields the shape does not mention. *)
Lemma core_with_text (t : item) :
  t <> bit -> t <> h -> items w !! t = None ->
  (t < c_next (canvas w))%positive ->
  core (with_text (Some t) w) b bit p pit h n.
Proof.
  intros Ha Hb Hc Hd.
  destruct Hcore as [H1 H2 H3 H4 H5 H6 H7 H8 H9 H10 H11 H12 H13 H14 H15 H16 H17].
  split; try assumption. intros t' [= <-]. auto.
Qed.

Lemma core_bind_space :
  core (with_bindings (<["<space>"%string := CbStartGame]> (bindings w)) w)
       b bit p pit h n.
Proof.
  destruct Hcore as [H1 H2 H3 H4 H5 H6 H7 H8 H9 H10 H11 H12 H13 H14 H15 H16 H17].
  split; try assumption. intros k cb. cbn [bindings with_bindings].
  destruct (decide ("<space>"%string = k)) as [<-|Hne].
  - rewrite lookup_insert_eq. intros [= <-]. auto.
  - rewrite lookup_insert_ne by exact Hne. apply H17.
Qed.

Lemma core_unbind k :
  core (with_bindings (base.delete k (bindings w)) w) b bit p pit h n.
Proof.
  destruct Hcore as [H1 H2 H3 H4 H5 H6 H7 H8 H9 H10 H11 H12 H13 H14 H15 H16 H17].
  split; try assumption. intros k' cb Hk. cbn [bindings with_bindings] in Hk.
  apply lookup_delete_Some in Hk as [_ Hk]. eauto.
Qed.

Lemma core_with_lives m : core (with_lives m w) b bit p pit h n.
Proof. destruct Hcore. split; assumption. Qed.

Lemma core_with_timers t : core (with_timers t w) b bit p pit h n.
Proof. destruct Hcore. split; assumption. Qed.

Lemma core_with_elapsed e : core (with_elapsed e w) b bit p pit h n.
Proof. destruct Hcore. split; assumption. Qed.

End CoreUpdates.

(** ** The collision check in a well-shaped state *)

Lemma NoDup_omap_inj {A B} (f : A -> option B) (l : list A) :
  NoDup l ->
  (forall x y z, f x = Some z -> f y = Some z -> x = y) ->
  NoDup (omap f l).
Proof.
  intros Hnd Hinj. induction Hnd as [|x l Hx Hnd IH]; cbn.
  - constructor.
  - destruct (f x) as [z|] eqn:E; [|exact IH].
    constructor; [|exact IH].
    intros Hz. apply list_elem_of_omap in Hz as (y & Hy & Hfy).
    assert (x = y) by (eapply Hinj; eassumption). now subst y.
Qed.

(** [Ball.collide] up to its loop: the ball gets some direction [d']. *)
Lemma collide_run w (b : loc) (bit : item) r d s (objs : list loc) :
  heap w !! b = Some (BallObj bit r d s) ->
  length (Tk.coords bit (canvas w)) = 4%nat ->
  (forall g, objs = [g] ->
     exists o, heap w !! g = Some o /\
               length (Tk.coords (obj_item o) (canvas w)) = 4%nat) ->
  exists d',
    Ball.collide b objs w =
    hit_bricks objs (with_heap (<[b := BallObj bit r d' s]> (heap w)) w).
Proof.
  intros Hb Hlen Hone. destruct d as [dx dy].
  destruct (coords_four _ Hlen) as (x0 & y0 & x1 & y1 & Hc).
  assert (Hprefix :
    Ball.collide b objs w =
    bind (if (1 <? length objs)%nat then Ball.flip_y b
          else if (length objs =? 1)%nat then
            bind (index objs 0) (fun game_object =>
            bind (GameObject.get_position game_object) (fun obj_pos =>
            bind (index obj_pos 2) (fun o2 =>
            if Qlt_bool o2 ((x0 + x1) * (1 # 2)) then Ball.set_x b 1
            else bind (index obj_pos 0) (fun o0 =>
                 if Qlt_bool ((x0 + x1) * (1 # 2)) o0
                 then Ball.set_x b (-1) else Ball.flip_y b))))
          else ret tt)
         (fun _ => hit_bricks objs) w).
  { unfold Ball.collide.
    rewrite (bind_ret _ _ _ _ _ (get_position_some _ _ _ Hb)).
    cbn [obj_item]. rewrite Hc.
    rewrite (bind_index _ 0%nat x0) by reflexivity.
    rewrite (bind_index _ 2%nat x1) by reflexivity. reflexivity. }
  rewrite Hprefix. clear Hprefix.
  destruct objs as [|g [|g' rest]].
  - exists (dx, dy). cbn [length Nat.ltb Nat.leb Nat.eqb].
    rewrite bind_pure. f_equal. symmetry. apply with_heap_id.
    now apply insert_id.
  - destruct (Hone g eq_refl) as (o & Ho & Hlo).
    destruct (coords_four _ Hlo) as (a0 & a1 & a2 & a3 & Hco).
    cbn [length Nat.ltb Nat.leb Nat.eqb].
    assert (Hphase : exists d',
      bind (index [g] 0) (fun game_object =>
      bind (GameObject.get_position game_object) (fun obj_pos =>
      bind (index obj_pos 2) (fun o2 =>
      if Qlt_bool o2 ((x0 + x1) * (1 # 2)) then Ball.set_x b 1
      else bind (index obj_pos 0) (fun o0 =>
           if Qlt_bool ((x0 + x1) * (1 # 2)) o0
           then Ball.set_x b (-1) else Ball.flip_y b)))) w =
      (Ret tt, with_heap (<[b := BallObj bit r d' s]> (heap w)) w)).
    { rewrite (bind_index _ 0%nat g) by reflexivity.
      rewrite (bind_ret _ _ _ _ _ (get_position_some _ _ _ Ho)), Hco.
      rewrite (bind_index _ 2%nat a2) by reflexivity.
      destruct (Qlt_bool a2 _).
      - eexists. apply (set_x_ball _ _ _ _ _ _ _ Hb).
      - rewrite (bind_index _ 0%nat a0) by reflexivity.
        destruct (Qlt_bool _ a0).
        + eexists. apply (set_x_ball _ _ _ _ _ _ _ Hb).
        + eexists. apply (flip_y_ball _ _ _ _ _ _ _ Hb). }
    destruct Hphase as (d' & Hrun). exists d'.
    now rewrite (bind_ret _ _ _ _ _ Hrun).
  - exists (dx, dy * -1). cbn [length Nat.ltb Nat.leb].
    now rewrite (bind_ret _ _ _ _ _ (flip_y_ball _ _ _ _ _ _ _ Hb)).
Qed.

Section Loop.
Context (b : loc) (bit : item) (p : loc) (pit h : item) (n : Z).

(** The hits of a tick keep the shape, whatever bricks they destroy. *)
Lemma hit_bricks_core (objs : list loc) : forall w,
  core w b bit p pit h n ->
  NoDup objs ->
  (forall l, l ∈ objs ->
     exists i : item, items w !! i = Some l /\ is_Some (c_items (canvas w) !! i)) ->
  exists w',
    hit_bricks objs w = (Ret tt, w') /\
    core w' b bit p pit h n /\
    quiet w w' /\
    heap w' !! b = heap w !! b.
Proof.
  induction objs as [|g rest IH]; intros w Hcore Hnd Hobjs.
  - exists w. split; [reflexivity|]. split; [exact Hcore|].
    split; [now repeat split|reflexivity].
  - apply NoDup_cons in Hnd as [Hg Hnd].
    destruct (Hobjs g) as (i & Hi & [ci Hci]); [left|].
    destruct (c_listed _ _ _ _ _ _ _ Hcore i g Hi) as (o & Ho & Hit & Hlist).
    destruct (c_ball_obj _ _ _ _ _ _ _ Hcore) as (r0 & d0 & s0 & Hb).
    assert (Hstep : exists w1,
      bind (deref g) (fun o => if is_brick o then Brick.hit g else ret tt) w
        = (Ret tt, w1) /\
      core w1 b bit p pit h n /\ quiet w w1 /\
      heap w1 !! b = heap w !! b /\ items w1 = items w /\
      forall j : item, j <> i ->
        c_items (canvas w1) !! j = c_items (canvas w) !! j).
    { rewrite (bind_ret _ _ _ _ _ (deref_some _ _ _ Ho)).
      destruct o as [| |i' wd ht hits]; cbn [is_brick].
      - destruct Hlist.
      - exists w. split; [reflexivity|]. split; [exact Hcore|].
        split; [now repeat split|]. now repeat split.
      - cbn in Hit. subst i'.
        destruct (core_hit _ _ _ _ _ _ _ Hcore i g wd ht hits ci Hi Ho Hci)
          as (c' & Hrun & Hcore' & Hother & _).
        eexists. split; [exact Hrun|]. split; [exact Hcore'|].
        split; [now repeat split|].
        split; [|split; [reflexivity|exact Hother]].
        cbn [heap with_canvas with_heap].
        rewrite lookup_insert_ne; [reflexivity|].
        intros ->. rewrite Hb in Ho. discriminate. }
    destruct Hstep as (w1 & Hrun & Hcore1 & Hq1 & Hb1 & Hitems1 & Hother).
    destruct (IH w1 Hcore1 Hnd) as (w' & Hrest & Hcore' & Hq' & Hb').
    { intros l Hl. destruct (Hobjs l) as (j & Hj & Hon); [now right|].
      exists j. rewrite Hitems1. split; [exact Hj|].
      rewrite Hother; [exact Hon|].
      intros ->. rewrite Hi in Hj. injection Hj as ->. contradiction. }
    exists w'. split.
    { unfold hit_bricks in *. cbn [for_each].
      now rewrite (bind_ret _ _ _ _ _ Hrun). }
    split; [exact Hcore'|]. split; [|congruence].
    destruct Hq1 as (? & ? & ? & ?), Hq' as (? & ? & ? & ?).
    repeat split; congruence.
Qed.

(** The collision check of a tick: it returns, keeps the shape, touches
    neither lives, timers nor bindings, and leaves the ball its speed. *)
Lemma check_collisions_core `{T : Toolkit} `{!LawfulToolkit T} w r d s :
  core w b bit p pit h n ->
  heap w !! b = Some (BallObj bit r d s) ->
  exists w' d',
    Game.check_collisions w = (Ret tt, w') /\
    core w' b bit p pit h n /\
    quiet w w' /\
    heap w' !! b = Some (BallObj bit r d' s).
Proof.
  intros Hcore Hb.
  destruct (coords_four _ (c_ball_box _ _ _ _ _ _ _ Hcore))
    as (x0 & y0 & x1 & y1 & Hc).
  rewrite (check_collisions_run w b _ x0 y0 x1 y1
             (c_ball _ _ _ _ _ _ _ Hcore) Hb Hc).
  set (found := find_overlapping (canvas w) x0 y0 x1 y1).
  set (objs := omap (fun x : item => items w !! x) found).
  assert (Hreg : forall l, l ∈ objs ->
    exists i : item, items w !! i = Some l /\
                     is_Some (c_items (canvas w) !! i)).
  { intros l Hl. apply list_elem_of_omap in Hl as (i & Hi & Hil).
    exists i. split; [exact Hil|]. eapply overlapping_exists. exact Hi. }
  assert (Hnd : NoDup objs).
  { apply NoDup_omap_inj; [apply overlapping_NoDup|].
    intros x y z Hx Hy.
    destruct (c_listed _ _ _ _ _ _ _ Hcore x z Hx) as (o & Ho & Hit & _).
    destruct (c_listed _ _ _ _ _ _ _ Hcore y z Hy) as (o' & Ho' & Hit' & _).
    congruence. }
  destruct (collide_run w b bit r d s objs Hb
              (c_ball_box _ _ _ _ _ _ _ Hcore)) as (d' & Hrun).
  { intros g ->. destruct (Hreg g) as (i & Hi & [ci Hci]); [left|].
    destruct (c_listed _ _ _ _ _ _ _ Hcore i g Hi) as (o & Ho & Hit & Hlist).
    exists o. split; [exact Ho|]. subst i.
    destruct o as [| j ? ? ? | j ? ? hj]; cbn [listed obj_item] in *.
    - destruct Hlist.
    - exact Hlist.
    - rewrite Hci in Hlist. unfold Tk.coords. rewrite Hci. apply Hlist. }
  rewrite Hrun.
  destruct (hit_bricks_core objs _ (core_ball_store _ _ _ _ _ _ _ Hcore r d' s)
              Hnd Hreg) as (w' & Hhits & Hcore' & Hq & Hb').
  exists w', d'. split; [exact Hhits|]. split; [exact Hcore'|].
  split; [exact Hq|]. rewrite Hb'. apply lookup_insert_eq.
Qed.

End Loop.

(** ** Setting up the next ball in a well-shaped state *)

Section Setup.
Context (w : World) (b : loc) (bit : item) (p : loc) (pit h : item) (n : Z).
Hypothesis Hcore : core w b bit p pit h n.

Lemma core_paddle_box :
  exists a0 a1 a2 a3, Tk.coords pit (canvas w) = [a0; a1; a2; a3].
Proof.
  destruct (c_listed _ _ _ _ _ _ _ Hcore pit p
              (c_paddle_reg _ _ _ _ _ _ _ Hcore)) as (o & Ho & Hit & Hlist).
  destruct (c_paddle_obj _ _ _ _ _ _ _ Hcore) as (pb & Hp & _).
  rewrite Hp in Ho. injection Ho as <-. apply coords_four. exact Hlist.
Qed.

Lemma core_add_ball :
  exists w',
    Game.add_ball w = (Ret tt, w') /\
    core w' (next_loc w) (c_next (canvas w)) p pit h n /\
    heap w' !! next_loc w =
      Some (BallObj (c_next (canvas w)) 10 (1, -1) (Some 10)) /\
    quiet w w' /\ hud w' = hud w.
Proof.
  pose proof (core_ball_lt _ _ _ _ _ _ _ Hcore) as Hbit.
  pose proof (core_hud_lt _ _ _ _ _ _ _ Hcore) as Hhlt.
  pose proof (core_fresh_loc _ _ _ _ _ _ _ Hcore) as Hfresh.
  pose proof (core_fresh_item _ _ _ _ _ _ _ Hcore) as Hfreshi.
  destruct core_paddle_box as (a0 & a1 & a2 & a3 & Hpc).
  destruct Hcore as [H1 H2 H3 H4 H5 H6 H7 H8 H9 H10 H11 H12 H13 H14 H15 H16 H17].
  destruct H7 as (r0 & d0 & s0 & Hb). destruct H11 as (pb & Hp & _).
  destruct H15 as [Hhb Hhi].
  assert (Hbp : bit <> pit) by (intros E; rewrite E in H9; congruence).
  assert (Hnp : next_loc w <> p) by (intros E; rewrite E in Hfresh; congruence).
  assert (Hplt : (pit < c_next (canvas w))%positive) by eauto.
  rewrite (add_ball_run w b _ p pit 80 10 pb a0 a1 a2 a3 H6 Hb H10 Hp Hbp Hpc
             Hfresh).
  cbv zeta. cbn [obj_item].
  set (x := ((a0 + a2) * (1 # 2))%Q).
  set (cn := c_next (canvas w)) in *.
  set (nb := next_loc w) in *.
  set (c' := snd (Tk.create (ball_item x 310) (Tk.delete bit (canvas w)))).
  assert (Hnew : c_items c' !! cn = Some (ball_item x 310)).
  { subst c'. cbn. apply lookup_insert_eq. }
  assert (Hother : forall j : item,
            j <> cn -> j <> bit -> c_items c' !! j = c_items (canvas w) !! j).
  { intros j Hj1 Hj2. subst c'. cbn.
    rewrite lookup_insert_ne by exact (not_eq_sym Hj1).
    now rewrite lookup_delete_ne by exact (not_eq_sym Hj2). }
  assert (Hsub : forall (j : item) cj,
            c_items c' !! j = Some cj -> j <> cn ->
            j <> bit /\ c_items (canvas w) !! j = Some cj).
  { intros j cj Hj Hne. subst c'. cbn in Hj.
    rewrite lookup_insert_ne in Hj by exact (not_eq_sym Hne).
    now apply lookup_delete_Some in Hj. }
  assert (Hnext : c_next c' = Pos.succ cn) by reflexivity.
  assert (Hcoords : forall j : item,
            j <> cn -> j <> bit -> Tk.coords j c' = Tk.coords j (canvas w)).
  { intros j Hj1 Hj2. unfold Tk.coords. now rewrite Hother. }
  eexists. split; [reflexivity|]. split; [|split; [|split]].
  - split; cbn [heap canvas items ball paddle hud text bindings next_loc
                with_canvas with_heap with_ball with_next_loc];
      fold c'; try assumption; try reflexivity.
    + intros l o. destruct (decide (p = l)) as [<-|Hne1].
      { intros _. pose proof (H1 _ _ Hp). lia. }
      rewrite lookup_insert_ne by exact Hne1.
      destruct (decide (nb = l)) as [<-|Hne2]; [intros _; lia|].
      rewrite lookup_insert_ne by exact Hne2.
      intros Hl. pose proof (H1 _ _ Hl). lia.
    + intros j cj Hj. rewrite Hnext.
      destruct (decide (j = cn)) as [->|Hne]; [lia|].
      destruct (Hsub j cj Hj Hne) as [_ Hj']. pose proof (H2 _ _ Hj'). lia.
    + intros j l Hj. rewrite Hnext. pose proof (H3 _ _ Hj). lia.
    + intros j l Hj. destruct (H4 j l Hj) as (o & Ho & Hit & Hlist).
      pose proof (H3 _ _ Hj) as Hjlt.
      assert (Hjb : j <> bit) by (intros ->; congruence).
      assert (Hln : nb <> l).
      { intros <-. rewrite Hfresh in Ho. discriminate. }
      destruct (decide (p = l)) as [<-|Hne].
      * rewrite Hp in Ho. injection Ho as <-. cbn in Hit. subst j.
        exists (PaddleObj pit 80 10 (Some nb)).
        split; [apply lookup_insert_eq|]. split; [reflexivity|].
        cbn [listed canvas with_canvas] in *.
        rewrite Hcoords by (congruence || lia). exact Hlist.
      * exists o. split; [now rewrite !lookup_insert_ne|].
        split; [exact Hit|]. subst j.
        destruct o as [| j ? ? ? | j ? ? hj];
          cbn [listed obj_item canvas with_canvas] in *.
        -- done.
        -- rewrite Hcoords by (congruence || lia). exact Hlist.
        -- rewrite Hother by (congruence || lia). exact Hlist.
    + intros j cj Hj Htag. destruct (decide (j = cn)) as [->|Hne].
      { rewrite Hnew in Hj. injection Hj as <-. cbn in Htag.
        now apply not_elem_of_nil in Htag. }
      destruct (Hsub j cj Hj Hne) as [_ Hj'].
      destruct (H5 j cj Hj' Htag) as (l & wd & ht & hj & Hl & Ho).
      exists l, wd, ht, hj. split; [exact Hl|].
      rewrite !lookup_insert_ne; [exact Ho| |].
      * intros <-. rewrite Hfresh in Ho. discriminate.
      * intros <-. rewrite Hp in Ho. discriminate.
    + exists 10, (1, -1), (Some 10).
      rewrite lookup_insert_ne by congruence. apply lookup_insert_eq.
    + unfold Tk.coords. now rewrite Hnew.
    + exists (Some nb). split; [apply lookup_insert_eq|now right].
    + destruct H14 as (ch & Hch & Htx). exists ch. split; [|exact Htx].
      rewrite Hother by (congruence || lia). exact Hch.
    + split; [lia|exact Hhi].
    + intros t Ht. destruct (H16 t Ht) as (? & ? & ? & ?). rewrite Hnext.
      repeat split; try assumption; lia.
  - cbn [heap with_heap with_ball with_next_loc with_canvas].
    rewrite lookup_insert_ne by congruence. apply lookup_insert_eq.
  - now repeat split.
  - reflexivity.
Qed.

Lemma core_after_add_ball :
  exists w',
    after_add_ball w = (Ret tt, w') /\
    core w' b bit p pit h (lives w) /\
    lives w' = lives w /\ timers w' = timers w /\ heap w' = heap w /\
    bindings w' !! "<space>"%string = Some CbStartGame.
Proof.
  pose proof (c_hud _ _ _ _ _ _ _ Hcore) as Hhud.
  rewrite after_add_ball_run. unfold hud_canvas. rewrite Hhud.
  set (c1 := Tk.itemconfig_text h ("Lives: " ++ pretty (lives w)) (canvas w)).
  set (w1 := with_canvas c1 w).
  set (w2 := with_canvas
               (snd (Tk.create (message "Press Space to start") c1)) w1).
  set (w3 := with_text (Some (c_next c1)) w2).
  set (w4 := with_bindings
               (<["<space>"%string := CbStartGame]> (bindings w3)) w3).
  assert (H1 : core w1 b bit p pit h (lives w))
    by apply (core_hud_text _ _ _ _ _ _ _ Hcore).
  assert (H2 : core w2 b bit p pit h (lives w)).
  { apply (core_create _ _ _ _ _ _ _ H1). cbn. apply not_elem_of_nil. }
  assert (H3 : core w3 b bit p pit h (lives w)).
  { pose proof (core_ball_lt _ _ _ _ _ _ _ H1) as Hb1.
    pose proof (core_hud_lt _ _ _ _ _ _ _ H1) as Hh1.
    pose proof (core_fresh_item _ _ _ _ _ _ _ H1) as Hf1.
    unfold w1 in Hb1, Hh1. cbn [canvas with_canvas] in Hb1, Hh1.
    apply (core_with_text _ _ _ _ _ _ _ H2).
    - lia.
    - lia.
    - exact Hf1.
    - cbn. lia. }
  assert (H4 : core w4 b bit p pit h (lives w))
    by apply (core_bind_space _ _ _ _ _ _ _ H3).
  exists w4. split.
  - f_equal. subst w4 w3 w2 w1.
    unfold with_bindings, with_text, with_canvas. cbn. now rewrite Hhud.
  - split; [exact H4|]. repeat split. apply lookup_insert_eq.
Qed.

End Setup.

(** ** One tick, one key press *)

Lemma draw_text_run x y t size w :
  Game.draw_text x y t size w =
  (Ret (c_next (canvas w)),
   with_canvas
     (snd (Tk.create (mkCItem Text [x; y] "black" [] t
                              (Some ("Helvetica"%string, size))) (canvas w)))
     w).
Proof. reflexivity. Qed.

Ltac hud_shows v :=
  match goal with
  | |- core _ _ _ _ _ _ ?m => replace m with v by (cbn; lia)
  end.

Lemma tick_sane `{T : Toolkit} `{!LawfulToolkit T} w
    (b : loc) (bit : item) (p : loc) (pit h : item) r d s :
  core w b bit p pit h (Z.max (lives w) 1) ->
  heap w !! b = Some (BallObj bit r d s) ->
  ready w s ->
  exists w',
    Game.game_loop w = (Ret tt, w') /\ sane w' /\
    lives w - 1 <= lives w' <= lives w.
Proof.
  intros Hcore Hb (Htm & Hsp & [s0 ->] & Hlv).
  destruct (check_collisions_core b bit p pit h _ w r d (Some s0) Hcore Hb)
    as (w1 & [dx dy] & Hcc & Hcore1 & (Hl1 & Ht1 & Hb1 & Hh1) & Hball1).
  destruct (game_loop_run _ _ Hcc) as (Hloop & _ & _).
  rewrite Hloop. unfold after_collisions. rewrite bind_gets.
  pose proof (c_ball _ _ _ _ _ _ _ Hcore1) as Hgb.
  destruct (length (Tk.find_withtag "brick" (canvas w1)) =? 0)%nat.
  - (* won *)
    rewrite (bind_ret _ _ _ _ _ (the_ball_some _ _ Hgb)).
    rewrite (bind_ret _ _ _ _ _ (set_speed_ball _ _ _ _ _ _ _ Hball1 None)).
    rewrite (bind_ret _ _ _ _ _ (draw_text_run _ _ _ _ _)).
    eexists. split; [reflexivity|]. split; [|cbn; lia].
    exists b, bit, p, pit, h, r, (dx, dy), None.
    split; [|split; [|split]].
    + hud_shows (Z.max (lives w) 1).
      apply core_create; [|cbn; apply not_elem_of_nil].
      now apply core_ball_store.
    + cbn. apply lookup_insert_eq.
    + left. cbn. rewrite Ht1, Hb1. now split.
    + cbn. lia.
  - rewrite (bind_ret _ _ _ _ _ (the_ball_some _ _ Hgb)).
    rewrite (bind_ret _ _ _ _ _ (get_position_some _ _ _ Hball1)).
    cbn [obj_item].
    destruct (coords_four _ (c_ball_box _ _ _ _ _ _ _ Hcore1))
      as (x0 & y0 & x1 & y1 & Hc).
    rewrite Hc. rewrite (bind_index _ 3%nat y1) by reflexivity.
    rewrite bind_gets.
    destruct (Qle_bool (inject_Z (height w1)) y1).
    + (* ball lost *)
      rewrite (bind_ret _ _ _ _ _ (the_ball_some _ _ Hgb)).
      rewrite (bind_ret _ _ _ _ _ (set_speed_ball _ _ _ _ _ _ _ Hball1 None)).
      rewrite bind_modify, bind_gets.
      set (w2 := with_lives (lives w1 - 1)
                   (with_heap (<[b := BallObj bit r (dx, dy) None]> (heap w1))
                      w1)).
      assert (Hcore2 : core w2 b bit p pit h (Z.max (lives w) 1)).
      { apply core_with_lives. now apply core_ball_store. }
      assert (Hb2 : heap w2 !! b = Some (BallObj bit r (dx, dy) None))
        by apply lookup_insert_eq.
      cbn [lives with_lives with_heap]. fold w2.
      destruct (lives w1 - 1 <=? 0) eqn:E.
      * (* game over *)
        apply Z.leb_le in E.
        rewrite (bind_ret _ _ _ _ _ (draw_text_run _ _ _ _ _)).
        eexists. split; [reflexivity|]. split; [|cbn; lia].
        exists b, bit, p, pit, h, r, (dx, dy), None.
        split; [|split; [|split]].
        -- hud_shows (Z.max (lives w) 1).
           apply core_create; [exact Hcore2|cbn; apply not_elem_of_nil].
        -- cbn. apply lookup_insert_eq.
        -- left. cbn. rewrite Ht1, Hb1. now split.
        -- cbn. lia.
      * (* another ball *)
        apply Z.leb_gt in E.
        rewrite setup_game_unfold, bind_assoc.
        destruct (core_add_ball _ _ _ _ _ _ _ Hcore2)
          as (w3 & Hadd & Hcore3 & Hb3 & (Hl3 & Ht3 & Hbd3 & _) & _).
        rewrite (bind_ret _ _ _ _ _ Hadd).
        destruct (core_after_add_ball _ _ _ _ _ _ _ Hcore3)
          as (w4 & Haft & Hcore4 & Hl4 & Ht4 & Hh4 & Hsp4).
        rewrite (bind_ret _ _ _ _ _ Haft).
        eexists. split; [reflexivity|].
        assert (Hlives : lives w4 = lives w1 - 1) by (rewrite Hl4, Hl3; reflexivity).
        split; [|cbn; lia].
        exists (next_loc w2), (c_next (canvas w2)), p, pit, h,
          10, (1, -1), (Some 10).
        split; [|split; [|split]].
        -- hud_shows (lives w3). apply core_with_elapsed. exact Hcore4.
        -- cbn [heap with_elapsed]. rewrite Hh4. exact Hb3.
        -- right; left. cbn [timers bindings lives with_elapsed].
           rewrite Ht4, Ht3. split; [cbn; congruence|].
           split; [exact Hsp4|]. split; [now eexists|lia].
        -- cbn [lives with_elapsed]. lia.
    + (* the ball moves on *)
      rewrite (bind_ret _ _ _ _ _ (the_ball_some _ _ Hgb)).
      destruct (update_run _ _ _ _ _ _ _ _ _ _ _ Hball1 Hc)
        as (dx' & dy' & _ & _ & _ & _ & Hup & _).
      rewrite (bind_ret _ _ _ _ _ Hup).
      eexists. split; [reflexivity|]. split; [|cbn; lia].
      exists b, bit, p, pit, h, r, (dx', dy'), (Some s0).
      split; [|split; [|split]].
      * hud_shows (Z.max (lives w) 1). apply core_with_timers.
        apply (core_retouched
                 (with_heap (<[b := BallObj bit r (dx', dy') (Some s0)]>
                               (heap w1)) w1)).
        -- now apply core_ball_store.
        -- apply retouched_move.
      * cbn. apply lookup_insert_eq.
      * right; right. cbn. rewrite Ht1, Htm, Hb1.
        split; [reflexivity|]. split; [exact Hsp|]. split; [now eexists|lia].
      * cbn. lia.
Qed.

(** What a step can change besides the canvas: nothing, when it is a slide
    or finds nothing to run. *)
Lemma slide_sane `{T : Toolkit} w offset :
  sane w ->
  exists w',
    Game.fire (CbSlide offset) w = (Ret tt, w') /\
    sane w' /\ quiet w w' /\ heap w' = heap w /\
    retouched (canvas w) (canvas w').
Proof.
  intros (b & bit & p & pit & h & r & d & s & Hcore & Hb & Hph & Hlv).
  cbn [Game.fire].
  rewrite (bind_ret _ _ _ _ _
             (the_paddle_some _ _ (c_paddle _ _ _ _ _ _ _ Hcore))).
  destruct (core_paddle_box _ _ _ _ _ _ _ Hcore) as (a0 & a1 & a2 & a3 & Hpc).
  destruct (c_paddle_obj _ _ _ _ _ _ _ Hcore) as (pb & Hp & Hpb).
  rewrite (slide_run w p pit 80 10 pb a0 a1 a2 a3 offset Hp Hpc).
  2: { intros b' ->. destruct Hpb as [|[= ->]]; [discriminate|].
       exists (BallObj bit r d s). exact Hb. }
  cbv zeta.
  set (c1 := if fits w a0 a2 offset then Tk.move pit offset 0 (canvas w)
             else canvas w).
  set (c2 := match pb ≫= (fun b => heap w !! b) with
             | Some o => Tk.move (obj_item o) offset 0 c1
             | None => c1
             end).
  assert (Hr : retouched (canvas w) c2).
  { apply (retouched_trans _ c1).
    - subst c1. destruct (fits w a0 a2 offset);
        [apply retouched_move|apply retouched_refl].
    - subst c2. destruct (pb ≫= _);
        [apply retouched_move|apply retouched_refl]. }
  exists (with_canvas c2 w). split; [reflexivity|].
  split; [|split; [now repeat split|split; [reflexivity|exact Hr]]].
  exists b, bit, p, pit, h, r, d, s. split; [|now repeat split].
  now apply core_retouched.
Qed.

Lemma start_game_sane `{T : Toolkit} `{!LawfulToolkit T} w :
  sane w ->
  bindings w !! "<space>"%string = Some CbStartGame ->
  exists w',
    Game.start_game w = (Ret tt, w') /\ sane w' /\
    lives w - 1 <= lives w' <= lives w.
Proof.
  intros (b & bit & p & pit & h & r & d & s & Hcore & Hb & Hph & Hlv) Hsp.
  destruct Hph as [[_ Hno]|[(Htm & _ & Hs & Hl1)|(_ & Hno & _)]];
    [congruence| |congruence].
  unfold Game.start_game, Game.unbind. rewrite bind_modify, bind_gets.
  set (w1 := with_bindings (base.delete "<space>"%string (bindings w)) w).
  assert (Hcore1 : core w1 b bit p pit h (Z.max (lives w) 1))
    by now apply core_unbind.
  set (w2 := match text w with
             | Some t => with_canvas (Tk.delete t (canvas w1)) w1
             | None => w1
             end).
  assert (Hcore2 : core w2 b bit p pit h (Z.max (lives w) 1)).
  { subst w2. destruct (text w) as [t|] eqn:Et; [|exact Hcore1].
    destruct (c_text _ _ _ _ _ _ _ Hcore t Et) as (? & ? & ? & _).
    now apply core_delete. }
  assert (Hrun2 :
    match text w1 with
    | Some i => on_canvas (Tk.delete i)
    | None => ret tt
    end w1 = (Ret tt, w2)).
  { subst w2. change (text w1) with (text w). now destruct (text w). }
  change (text w1) with (text w) in Hrun2.
  change (text w1) with (text w).
  rewrite (bind_ret _ _ _ _ _ Hrun2).
  assert (Hpad2 : paddle w2 = Some p).
  { exact (c_paddle _ _ _ _ _ _ _ Hcore2). }
  rewrite (bind_ret _ _ _ _ _ (the_paddle_some _ _ Hpad2)).
  destruct (c_paddle_obj _ _ _ _ _ _ _ Hcore2) as (pb & Hp & _).
  rewrite (bind_ret _ _ _ _ _ (set_ball_paddle _ _ _ _ _ _ None Hp)).
  set (w3 := with_heap (<[p := PaddleObj pit 80 10 None]> (heap w2)) w2).
  assert (Hlives : lives w3 = lives w).
  { subst w3 w2 w1. now destruct (text w). }
  assert (Hcore3 : core w3 b bit p pit h (Z.max (lives w3) 1)).
  { rewrite Hlives. apply core_paddle_store; [exact Hcore2|now left]. }
  assert (Hb3 : heap w3 !! b = Some (BallObj bit r d s)).
  { subst w3. cbn [heap with_heap].
    rewrite lookup_insert_ne.
    - subst w2 w1. now destruct (text w).
    - intros <-. destruct (c_ball_obj _ _ _ _ _ _ _ Hcore2) as (? & ? & ? & E).
      rewrite Hp in E. discriminate. }
  destruct (tick_sane w3 b bit p pit h r d s Hcore3 Hb3)
    as (w' & Hrun & Hsane & Hl').
  { split; [subst w3 w2 w1; now destruct (text w)|].
    split; [|split; [exact Hs|rewrite Hlives; lia]].
    subst w3 w2 w1. destruct (text w); cbn; apply lookup_delete_eq. }
  exists w'. split; [exact Hrun|]. split; [exact Hsane|]. lia.
Qed.

(** Every event the main loop delivers to a well-shaped game is handled
    without an exception and leaves a well-shaped game, with the same
    lives or one less. *)
Lemma handle_sane `{T : Toolkit} `{!LawfulToolkit T} e w :
  sane w ->
  exists w',
    handle e w = (Ret tt, w') /\ sane w' /\
    lives w - 1 <= lives w' <= lives w.
Proof.
  intros Hsane. destruct e as [key|]; cbn [handle].
  - rewrite bind_gets. destruct (bindings w !! key) as [cb|] eqn:Ek.
    + pose proof Hsane
        as (b & bit & p & pit & h & r & d & s & Hcore & Hb & Hph & Hlv).
      destruct (c_keys _ _ _ _ _ _ _ Hcore key cb Ek)
        as [[-> ->]|[[-> ->]|[-> ->]]].
      * destruct (slide_sane w (-10) Hsane)
          as (w' & Hrun & Hs' & (Hl & _) & _).
        exists w'. split; [exact Hrun|]. split; [exact Hs'|]. lia.
      * destruct (slide_sane w 10 Hsane)
          as (w' & Hrun & Hs' & (Hl & _) & _).
        exists w'. split; [exact Hrun|]. split; [exact Hs'|]. lia.
      * cbn [Game.fire]. now apply start_game_sane.
    + exists w. split; [reflexivity|]. split; [exact Hsane|]. lia.
  - unfold next_timer. rewrite bind_gets.
    pose proof Hsane
      as (b & bit & p & pit & h & r & d & s & Hcore & Hb & Hph & Hlv).
    destruct Hph as [[Htm _]|[(Htm & _)|(Htm & Hno & Hs & Hl1)]].
    + rewrite Htm. exists w. split; [reflexivity|]. split; [exact Hsane|]. lia.
    + rewrite Htm. exists w. split; [reflexivity|]. split; [exact Hsane|]. lia.
    + rewrite Htm. rewrite bind_modify. cbn [Game.fire].
      apply (tick_sane (with_timers [] w) b bit p pit h r d s).
      * now apply core_with_timers.
      * exact Hb.
      * split; [reflexivity|]. split; [exact Hno|]. split; [exact Hs|].
        cbn. lia.
Qed.

Lemma play_sane `{T : Toolkit} `{!LawfulToolkit T} es : forall w,
  sane w ->
  exists w', play es w = (Ret tt, w') /\ sane w' /\ lives w' <= lives w.
Proof.
  induction es as [|e es IH]; intros w Hsane.
  - exists w. split; [reflexivity|]. split; [exact Hsane|]. lia.
  - destruct (handle_sane e w Hsane) as (w1 & Hrun & Hs1 & Hl1).
    destruct (IH w1 Hs1) as (w' & Hrest & Hs' & Hl').
    exists w'. split.
    + unfold play in *. cbn [for_each]. now rewrite (bind_ret _ _ _ _ _ Hrun).
    + split; [exact Hs'|]. lia.
Qed.

(** ** The state [Game.__init__] builds *)

Ltac each_entry H :=
  apply elem_of_map_to_list in H; vm_compute in H;
  repeat (apply elem_of_cons in H; destruct H as [H|H];
          [injection H as -> ->|]);
  [..|now apply elem_of_nil in H].

Ltac give_object :=
  match goal with
  | |- exists o, ?m !! ?l = Some o /\ _ =>
      let v := eval vm_compute in (m !! l) in
      match v with
      | Some ?o => exists o; split; [vm_compute; reflexivity|]
      end
  end.

Lemma init_sane w0 :
  fst (Game.init (Game.blank w0)) = Ret tt /\ sane (new_game w0).
Proof.
  split; [vm_compute; reflexivity|].
  exists 26%positive, 26%positive, 1%positive, 1%positive, 27%positive,
    10, (1, -1), (Some 10).
  split; [|split; [vm_compute; reflexivity|split]].
  - split.
    + intros l o Hl. each_entry Hl; vm_compute; reflexivity.
    + intros i ci Hi. each_entry Hi; vm_compute; reflexivity.
    + intros i l Hi. each_entry Hi; vm_compute; reflexivity.
    + intros i l Hi. each_entry Hi; give_object;
        (split; [reflexivity|]); vm_compute;
        repeat split; try discriminate; try reflexivity; try (now left).
    + intros i ci Hi Htag. each_entry Hi;
        try (vm_compute in Htag; now apply elem_of_nil in Htag).
      all: match goal with
           | |- exists l wd ht hits, ?m !! ?i = Some l /\ _ =>
               let v := eval vm_compute in (m !! i) in
               match v with
               | Some ?l => exists l
               end
           end.
      all: do 3 eexists; split; vm_compute; reflexivity.
    + vm_compute; reflexivity.
    + do 3 eexists. vm_compute. reflexivity.
    + vm_compute; reflexivity.
    + vm_compute; reflexivity.
    + vm_compute; reflexivity.
    + eexists. split; [vm_compute; reflexivity|now right].
    + vm_compute; reflexivity.
    + vm_compute; reflexivity.
    + eexists. split; vm_compute; reflexivity.
    + split; [discriminate|vm_compute; reflexivity].
    + intros t Ht. vm_compute in Ht. injection Ht as <-.
      repeat split; try discriminate; vm_compute; reflexivity.
    + intros k cb Hk. each_entry Hk; auto.
  - right; left. split; [vm_compute; reflexivity|].
    split; [vm_compute; reflexivity|]. split; [now eexists|].
    vm_compute. discriminate.
  - vm_compute. split; discriminate.
Qed.

(** ** Whole runs *)

Lemma for_each_app {A} (l1 l2 : list A) (body : A -> M unit) w :
  for_each (l1 ++ l2) body w =
  bind (for_each l1 body) (fun _ => for_each l2 body) w.
Proof.
  revert w. induction l1 as [|x l1 IH]; intros w; cbn [for_each app].
  - reflexivity.
  - rewrite bind_assoc.
    destruct (body x w) as [[[]|e] w1] eqn:E.
    + rewrite !(bind_ret _ _ _ _ _ E). apply IH.
    + now rewrite !(bind_raise _ _ _ _ _ E).
Qed.

Lemma reach_sane `{T : Toolkit} `{!LawfulToolkit T} w0 es :
  fst (play es (new_game w0)) = Ret tt /\
  sane (snd (play es (new_game w0))).
Proof.
  destruct (play_sane es (new_game w0) (proj2 (init_sane w0)))
    as (w' & Hrun & Hs & _).
  rewrite Hrun. now split.
Qed.

(** The sample toolkit is lawful. *)
#[export] Instance box_lawful : LawfulToolkit box_toolkit.
Proof.
  split.
  - intros c x1 y1 x2 y2 i Hi. cbn [find_overlapping box_toolkit] in Hi.
    apply list_elem_of_fmap in Hi as ([j ci] & -> & Hi).
    apply elem_of_map_to_list in Hi.
    apply map_lookup_filter_Some in Hi as [Hi _]. now exists ci.
  - intros c x1 y1 x2 y2. apply NoDup_fst_map_to_list.
Qed.

(** X1.  With a toolkit whose [find_overlapping] reports existing items,
    each once: [Game.__init__] returns normally, and so does every callback
    in every run of key presses and timers from the state it builds. *)
Theorem game_never_raises `{T : Toolkit} `{!LawfulToolkit T} (w0 : Z)
    (es : list event) :
  fst (Game.init (Game.blank w0)) = Ret tt /\
  fst (play es (new_game w0)) = Ret tt.
Proof. split; [apply init_sane | apply reach_sane]. Qed.

Lemma game_never_raises_witness :
  fst (@play box_toolkit
         [Key "<Left>"; Key "<space>"; Timer; Key "<Right>"; Timer;
          Key "<space>"; Key "q"; Timer]
         (new_game 604)) = Ret tt.
Proof. apply (@game_never_raises box_toolkit box_lawful). Defined.

(** X2.  In every state of every run at most one [game_loop] timer is
    pending, and none while the space key is bound: the loop is never
    doubled. *)
Theorem one_game_loop `{T : Toolkit} `{!LawfulToolkit T} (w0 : Z)
    (es : list event) :
  let w := snd (play es (new_game w0)) in
  (timers w = [] \/ timers w = [(50, CbGameLoop)]) /\
  (is_Some (bindings w !! "<space>"%string) -> timers w = []).
Proof.
  destruct (reach_sane w0 es)
    as (_ & b & bit & p & pit & h & r & d & s & _ & _ & Hph & _).
  cbv zeta.
  destruct Hph as [[Htm Hsp]|[(Htm & Hsp & _)|(Htm & Hsp & _)]].
  - split; [now left|]. intros _. exact Htm.
  - split; [now left|]. intros _. exact Htm.
  - split; [now right|]. rewrite Hsp. now intros [? [=]].
Qed.

Lemma one_game_loop_witness :
  timers (snd (@play box_toolkit [Key "<space>"; Timer; Key "<space>"; Timer]
                 (new_game 604))) = [] \/
  timers (snd (@play box_toolkit [Key "<space>"; Timer; Key "<space>"; Timer]
                 (new_game 604))) = [(50, CbGameLoop)].
Proof.
  exact (proj1 (@one_game_loop box_toolkit box_lawful 604
                  [Key "<space>"; Timer; Key "<space>"; Timer])).
Defined.

(** X3.  Lives stay between 0 and 3 and never go up along a run; once they
    are 0 no timer is pending and the space key is unbound. *)
Theorem lives_only_drop `{T : Toolkit} `{!LawfulToolkit T} (w0 : Z)
    (es es' : list event) :
  let w := snd (play es (new_game w0)) in
  let w' := snd (play (es ++ es') (new_game w0)) in
  0 <= lives w' /\ lives w' <= lives w /\ lives w <= 3 /\
  (lives w = 0 ->
   timers w = [] /\ bindings w !! "<space>"%string = None).
Proof.
  cbv zeta.
  destruct (play_sane es (new_game w0) (proj2 (init_sane w0)))
    as (w & Hrun & Hs & _).
  destruct (play_sane es' w Hs) as (w' & Hrun' & Hs' & Hl').
  unfold play in *. rewrite for_each_app, (bind_ret _ _ _ _ _ Hrun).
  rewrite Hrun, Hrun'. cbn [snd].
  destruct Hs as (b & bit & p & pit & h & r & d & s & _ & _ & Hph & Hlv).
  destruct Hs' as (? & ? & ? & ? & ? & ? & ? & ? & _ & _ & _ & Hlv').
  split; [lia|]. split; [lia|]. split; [lia|]. intros H0.
  destruct Hph as [[Htm Hsp]|[(_ & _ & _ & Hl)|(_ & _ & _ & Hl)]];
    [now split|lia|lia].
Qed.

Lemma lives_only_drop_witness :
  0 <= lives (snd (@play box_toolkit (round 60 ++ round 60) (new_game 604))) /\
  lives (snd (@play box_toolkit (round 60 ++ round 60) (new_game 604))) <=
  lives (snd (@play box_toolkit (round 60) (new_game 604))).
Proof.
  destruct (@lives_only_drop box_toolkit box_lawful 604 (round 60) (round 60))
    as (H0 & H1 & _).
  split; [exact H0|exact H1].
Defined.

(** X4.  In every state of every run, each registered brick agrees with the
    canvas: either its item is there, tagged 'brick' and filled with the
    color of its count, which is 1, 2 or 3; or its item is gone and its
    count is 0. *)
Theorem bricks_match_canvas `{T : Toolkit} `{!LawfulToolkit T} (w0 : Z)
    (es : list event) (i i' : item) (l : loc) wd ht hits :
  let w := snd (play es (new_game w0)) in
  items w !! i = Some l ->
  heap w !! l = Some (BrickObj i' wd ht hits) ->
  i' = i /\
  match c_items (canvas w) !! i with
  | Some ci =>
      1 <= hits <= 3 /\ Brick.COLORS !! hits = Some (ci_fill ci) /\
      "brick"%string ∈ ci_tags ci
  | None => hits = 0
  end.
Proof.
  cbv zeta. intros Hi Hl.
  destruct (reach_sane w0 es)
    as (_ & b & bit & p & pit & h & r & d & s & Hcore & _).
  destruct (c_listed _ _ _ _ _ _ _ Hcore i l Hi) as (o & Ho & Hit & Hlist).
  rewrite Hl in Ho. injection Ho as <-. cbn in Hit. subst i'.
  split; [reflexivity|]. cbn [listed] in Hlist.
  destruct (c_items _ !! i) as [ci|]; [|exact Hlist].
  destruct Hlist as (? & ? & _ & ?). now repeat split.
Qed.

Lemma bricks_match_canvas_witness :
  22%positive = 22%positive /\
  match c_items (canvas (snd (@play box_toolkit (round 30) (new_game 604))))
          !! 22%positive with
  | Some ci =>
      1 <= 0 <= 3 /\ Brick.COLORS !! 0 = Some (ci_fill ci) /\
      "brick"%string ∈ ci_tags ci
  | None => 0 = 0
  end.
Proof.
  apply (@bricks_match_canvas box_toolkit box_lawful 604 (round 30)
           22%positive 22%positive 22%positive 75 20 0);
    vm_compute; reflexivity.
Defined.

(** X5.  In every state of every run the HUD item shows "Lives: n" with [n]
    the current lives, except that at 0 lives it still shows 1: the HUD is
    not refreshed when the last ball is lost. *)
Theorem hud_shows_lives `{T : Toolkit} `{!LawfulToolkit T} (w0 : Z)
    (es : list event) :
  let w := snd (play es (new_game w0)) in
  exists (h : item) ci,
    hud w = Some h /\ c_items (canvas w) !! h = Some ci /\
    ci_text ci = ("Lives: " ++ pretty (Z.max (lives w) 1))%string.
Proof.
  cbv zeta.
  destruct (reach_sane w0 es)
    as (_ & b & bit & p & pit & h & r & d & s & Hcore & _).
  destruct (c_hud_item _ _ _ _ _ _ _ Hcore) as (ci & Hci & Htx).
  exists h, ci. split; [exact (c_hud _ _ _ _ _ _ _ Hcore)|]. now split.
Qed.

Lemma hud_shows_lives_witness :
  lives (snd (@play box_toolkit three_rounds (new_game 604))) = 0 /\
  exists (h : item) ci,
    hud (snd (@play box_toolkit three_rounds (new_game 604))) = Some h /\
    c_items (canvas (snd (@play box_toolkit three_rounds (new_game 604))))
      !! h = Some ci /\
    ci_text ci = "Lives: 1"%string.
Proof.
  assert (H0 : lives (snd (@play box_toolkit three_rounds (new_game 604))) = 0)
    by (vm_compute; reflexivity).
  split; [exact H0|].
  destruct (@hud_shows_lives box_toolkit box_lawful 604 three_rounds)
    as (h & ci & Hh & Hci & Htx).
  exists h, ci. split; [exact Hh|]. split; [exact Hci|].
  rewrite Htx, H0. reflexivity.
Defined.

(** ** After the end of the game *)

Lemma stopped_step `{T : Toolkit} e w :
  sane w -> timers w = [] -> bindings w !! "<space>"%string = None ->
  exists w',
    handle e w = (Ret tt, w') /\ sane w' /\ quiet w w' /\
    heap w' = heap w /\ retouched (canvas w) (canvas w').
Proof.
  intros Hsane Htm Hsp.
  assert (Hstay : exists w',
    (Ret tt, w) = (Ret tt, w') /\ sane w' /\ quiet w w' /\
    heap w' = heap w /\ retouched (canvas w) (canvas w')).
  { exists w. split; [reflexivity|]. split; [exact Hsane|].
    split; [now repeat split|]. split; [reflexivity|apply retouched_refl]. }
  destruct e as [key|]; cbn [handle].
  - rewrite bind_gets. destruct (bindings w !! key) as [cb|] eqn:Ek;
      [|exact Hstay].
    pose proof Hsane
      as (b & bit & p & pit & h & r & d & s & Hcore & _).
    destruct (c_keys _ _ _ _ _ _ _ Hcore key cb Ek)
      as [[-> ->]|[[-> ->]|[-> ->]]].
    + now apply slide_sane.
    + now apply slide_sane.
    + congruence.
  - unfold next_timer. rewrite bind_gets, Htm. exact Hstay.
Qed.

(** X6.  A run that has reached a state with no timer pending and the space
    key unbound (the game is won or over) is finished: whatever events
    follow, none raises, and heap, lives, timers and bindings stay as they
    are; on the canvas no item appears, disappears or changes its fill,
    tags or text. *)
Theorem stopped_is_final `{T : Toolkit} `{!LawfulToolkit T} (w0 : Z)
    (es es' : list event) :
  let w := snd (play es (new_game w0)) in
  timers w = [] ->
  bindings w !! "<space>"%string = None ->
  exists w',
    play es' w = (Ret tt, w') /\
    heap w' = heap w /\ lives w' = lives w /\ timers w' = [] /\
    bindings w' = bindings w /\ retouched (canvas w) (canvas w').
Proof.
  cbv zeta. intros Htm Hsp.
  destruct (reach_sane w0 es) as [_ Hsane].
  revert Hsane Htm Hsp. generalize (snd (play es (new_game w0))).
  induction es' as [|e es' IH]; intros w Hsane Htm Hsp.
  - exists w. split; [reflexivity|]. split; [reflexivity|].
    split; [reflexivity|]. split; [exact Htm|]. split; [reflexivity|].
    apply retouched_refl.
  - destruct (stopped_step e w Hsane Htm Hsp)
      as (w1 & Hrun & Hs1 & (Hl1 & Ht1 & Hb1 & _) & Hh1 & Hr1).
    destruct (IH w1 Hs1) as (w' & Hrest & Hh & Hl & Ht & Hb & Hr).
    { congruence. }
    { congruence. }
    exists w'. split.
    { unfold play in *. cbn [for_each]. now rewrite (bind_ret _ _ _ _ _ Hrun). }
    split; [congruence|]. split; [congruence|]. split; [exact Ht|].
    split; [congruence|].
    exact (retouched_trans _ (canvas w1) _ Hr1 Hr).
Qed.

Lemma stopped_is_final_witness :
  exists w',
    @play box_toolkit [Key "<Left>"; Timer; Key "<space>"; Key "<Right>"]
      (snd (@play box_toolkit three_rounds (new_game 604))) = (Ret tt, w') /\
    heap w' = heap (snd (@play box_toolkit three_rounds (new_game 604))) /\
    lives w' = lives (snd (@play box_toolkit three_rounds (new_game 604))) /\
    timers w' = [] /\
    bindings w' =
      bindings (snd (@play box_toolkit three_rounds (new_game 604))) /\
    retouched (canvas (snd (@play box_toolkit three_rounds (new_game 604))))
              (canvas w').
Proof.
  refine (@stopped_is_final box_toolkit box_lawful 604 three_rounds
            [Key "<Left>"; Timer; Key "<space>"; Key "<Right>"] _ _);
    vm_compute; reflexivity.
Defined.

(** ** Winning *)

Lemma elem_of_find_withtag tag c (i : item) :
  i ∈ Tk.find_withtag tag c <->
  exists ci, c_items c !! i = Some ci /\ tag ∈ ci_tags ci.
Proof.
  unfold Tk.find_withtag. rewrite list_elem_of_fmap. split.
  - intros ([j ci] & -> & H). apply elem_of_map_to_list in H.
    apply map_lookup_filter_Some in H as [H1 H2]. exists ci.
    split; [exact H1|]. cbn in H2. unfold Tk.has_tag in H2.
    now apply bool_decide_eq_true in H2.
  - intros (ci & H1 & H2). exists (i, ci). split; [reflexivity|].
    apply elem_of_map_to_list, map_lookup_filter_Some.
    split; [exact H1|]. cbn. unfold Tk.has_tag.
    now apply bool_decide_eq_true.
Qed.

(** X7.  In every state of every run, [game_loop]'s win test (no canvas item
    tagged 'brick') holds exactly when every registered brick has been
    destroyed, that is has count 0. *)
Theorem win_iff_cleared `{T : Toolkit} `{!LawfulToolkit T} (w0 : Z)
    (es : list event) :
  let w := snd (play es (new_game w0)) in
  length (Tk.find_withtag "brick" (canvas w)) = 0%nat <->
  (forall (i i' : item) (l : loc) wd ht hits,
     items w !! i = Some l ->
     heap w !! l = Some (BrickObj i' wd ht hits) ->
     hits = 0).
Proof.
  cbv zeta.
  destruct (reach_sane w0 es)
    as (_ & b & bit & p & pit & h & r & d & s & Hcore & _).
  set (w := snd (play es (new_game w0))) in *. split.
  - intros Hlen i i' l wd ht hits Hi Hl.
    apply nil_length_inv in Hlen.
    destruct (c_listed _ _ _ _ _ _ _ Hcore i l Hi) as (o & Ho & Hit & Hlist).
    rewrite Hl in Ho. injection Ho as <-. cbn in Hit. subst i'.
    cbn [listed] in Hlist.
    destruct (c_items (canvas w) !! i) as [ci|] eqn:Eci; [|exact Hlist].
    exfalso. destruct Hlist as (_ & _ & _ & Htag).
    assert (Hin : i ∈ Tk.find_withtag "brick" (canvas w)).
    { apply elem_of_find_withtag. now exists ci. }
    rewrite Hlen in Hin. now apply elem_of_nil in Hin.
  - intros Hall.
    destruct (Tk.find_withtag "brick" (canvas w)) as [|i rest] eqn:E;
      [reflexivity|exfalso].
    assert (Hin : i ∈ Tk.find_withtag "brick" (canvas w))
      by (rewrite E; left).
    apply elem_of_find_withtag in Hin as (ci & Hci & Htag).
    destruct (c_tagged _ _ _ _ _ _ _ Hcore i ci Hci Htag)
      as (l & wd & ht & hits & Hi & Hl).
    pose proof (Hall i i l wd ht hits Hi Hl) as ->.
    destruct (c_listed _ _ _ _ _ _ _ Hcore i l Hi) as (o & Ho & _ & Hlist).
    rewrite Hl in Ho. injection Ho as <-. cbn [listed] in Hlist.
    rewrite Hci in Hlist. lia.
Qed.

Lemma win_iff_cleared_witness :
  length (Tk.find_withtag "brick"
            (canvas (snd (@play box_toolkit (round 30) (new_game 604)))))
    = 0%nat <->
  (forall (i i' : item) (l : loc) wd ht hits,
     items (snd (@play box_toolkit (round 30) (new_game 604))) !! i = Some l ->
     heap (snd (@play box_toolkit (round 30) (new_game 604))) !! l =
       Some (BrickObj i' wd ht hits) ->
     hits = 0).
Proof. exact (@win_iff_cleared box_toolkit box_lawful 604 (round 30)). Defined.

(** ** Single methods at their edges *)

(** X8.  A game object whose canvas item has been deleted: [delete]
    returns normally, after which [get_position] returns the empty list and
    [move] and a second [delete] change nothing. *)
Theorem deleted_object (w : World) (l : loc) (o : Obj) :
  heap w !! l = Some o ->
  exists w1,
    GameObject.delete l w = (Ret tt, w1) /\
    GameObject.get_position l w1 = (Ret [], w1) /\
    (forall x y, GameObject.move l x y w1 = (Ret tt, w1)) /\
    GameObject.delete l w1 = (Ret tt, w1).
Proof.
  intros Hl. rewrite (delete_some _ _ _ Hl).
  set (w1 := with_canvas (Tk.delete (obj_item o) (canvas w)) w).
  assert (Hl1 : heap w1 !! l = Some o) by exact Hl.
  exists w1. split; [reflexivity|]. split; [|split].
  - rewrite (get_position_some _ _ _ Hl1). f_equal. f_equal.
    apply coords_deleted.
  - intros x y. rewrite (move_some _ _ _ _ _ Hl1). f_equal.
    subst w1. unfold with_canvas, Tk.move, Tk.delete. cbn. f_equal. f_equal.
    apply map_eq. intros j. destruct (decide (obj_item o = j)) as [<-|Hne].
    + now rewrite lookup_alter_eq, lookup_delete_eq.
    + now rewrite lookup_alter_ne by exact Hne.
  - rewrite (delete_some _ _ _ Hl1). f_equal.
    subst w1. unfold with_canvas, Tk.delete. cbn. f_equal. f_equal.
    apply delete_id. apply lookup_delete_eq.
Qed.

Lemma deleted_object_witness :
  exists w1,
    GameObject.delete 26%positive (new_game 604) = (Ret tt, w1) /\
    GameObject.get_position 26%positive w1 = (Ret [], w1) /\
    (forall x y, GameObject.move 26%positive x y w1 = (Ret tt, w1)) /\
    GameObject.delete 26%positive w1 = (Ret tt, w1).
Proof.
  apply (deleted_object (new_game 604) 26%positive
           (BallObj 26%positive 10 (1, -1) (Some 10))).
  vm_compute; reflexivity.
Defined.

(** X9.  [Ball.update] on a ball whose speed is [None] raises [TypeError]:
    the ball is not moved, but the direction flips at the walls have
    already been made. *)
Theorem update_stopped_ball (w : World) (b : loc) it r dx dy x0 y0 x1 y1 :
  heap w !! b = Some (BallObj it r (dx, dy) None) ->
  Tk.coords it (canvas w) = [x0; y0; x1; y1] ->
  exists dx' dy',
    Ball.update b w =
      (Raise TypeError,
       with_heap (<[b := BallObj it r (dx', dy') None]> (heap w)) w) /\
    ((x0 <= 0 \/ inject_Z (winfo_width (canvas w)) <= x1)%Q -> dx' = - dx) /\
    (~ (x0 <= 0 \/ inject_Z (winfo_width (canvas w)) <= x1)%Q -> dx' = dx) /\
    ((y0 <= 0)%Q -> dy' = - dy) /\
    (~ (y0 <= 0)%Q -> dy' = dy).
Proof.
  intros Hb Hc.
  set (W := inject_Z (winfo_width (canvas w))).
  set (c1 := Qle_bool x0 0 || Qle_bool W x1).
  set (c2 := Qle_bool y0 0).
  exists (if c1 then dx * -1 else dx), (if c2 then dy * -1 else dy).
  split; [|split; [|split; [|split]]].
  - unfold Ball.update.
    rewrite (bind_ret _ _ _ _ _ (get_position_some _ _ _ Hb)).
    cbn [obj_item]. rewrite Hc, bind_gets.
    rewrite (bind_index _ 0%nat x0) by reflexivity.
    assert (Hside :
      (if Qle_bool x0 0 then ret true
       else bind (index [x0; y0; x1; y1] 2)
                 (fun p2 => ret (Qle_bool W p2))) w = (Ret c1, w)).
    { subst c1. destruct (Qle_bool x0 0); reflexivity. }
    rewrite (bind_ret _ _ _ _ _ Hside).
    rewrite (bind_ret _ _ _ _ _ (when_flip_x _ _ _ _ _ _ _ Hb c1)).
    rewrite (bind_index _ 1%nat y0) by reflexivity.
    fold c2.
    match goal with |- context [with_heap ?h w] => set (h1 := h) end.
    assert (H1 : heap (with_heap h1 w) !! b =
                 Some (BallObj it r (if c1 then dx * -1 else dx, dy) None))
      by apply lookup_insert_eq.
    rewrite (bind_ret _ _ _ _ _ (when_flip_y _ _ _ _ _ _ _ H1 c2)).
    rewrite with_heap_twice, heap_with_heap. subst h1.
    rewrite insert_insert_eq.
    match goal with |- context [with_heap ?h w] => set (h2 := h) end.
    assert (H2 : heap (with_heap h2 w) !! b =
                 Some (BallObj it r (if c1 then dx * -1 else dx,
                                     if c2 then dy * -1 else dy) None))
      by apply lookup_insert_eq.
    rewrite (bind_ret _ _ _ _ _ (get_direction_ball _ _ _ _ _ _ _ H2)).
    rewrite (bind_ret _ _ _ _ _ (get_speed_ball _ _ _ _ _ _ _ H2)).
    reflexivity.
  - intros H. assert (c1 = true) as ->; [|lia].
    subst c1. apply orb_true_iff. rewrite !Qle_bool_iff. exact H.
  - intros H. assert (c1 = false) as ->; [|lia].
    subst c1. apply orb_false_iff. rewrite !Qle_bool_false. tauto.
  - intros H. assert (c2 = true) as ->; [|lia].
    subst c2. now apply Qle_bool_iff.
  - intros H. assert (c2 = false) as ->; [|lia].
    subst c2. now apply Qle_bool_false.
Qed.

Lemma update_stopped_ball_witness :
  exists dx' dy',
    Ball.update 28%positive
      (snd (@play box_toolkit three_rounds (new_game 604))) =
      (Raise TypeError,
       with_heap
         (<[28%positive := BallObj 31%positive 10 (dx', dy') None]>
            (heap (snd (@play box_toolkit three_rounds (new_game 604)))))
         (snd (@play box_toolkit three_rounds (new_game 604)))) /\
    ((11840 # 32 <= 0 \/
      inject_Z (winfo_width
                  (canvas (snd (@play box_toolkit three_rounds
                                  (new_game 604))))) <= 12480 # 32)%Q ->
     dx' = - -1) /\
    (~ (11840 # 32 <= 0 \/
        inject_Z (winfo_width
                    (canvas (snd (@play box_toolkit three_rounds
                                    (new_game 604))))) <= 12480 # 32)%Q ->
     dx' = -1) /\
    ((380 <= 0)%Q -> dy' = - 1) /\
    (~ (380 <= 0)%Q -> dy' = 1).
Proof.
  apply (update_stopped_ball
           (snd (@play box_toolkit three_rounds (new_game 604)))
           28%positive 31%positive 10 (-1) 1
           (11840 # 32)%Q 380%Q (12480 # 32)%Q 400%Q);
    vm_compute; reflexivity.
Defined.

(** ** The dictionary of obstacles *)

(** X10.  In every state of every run the dictionary [items] holds the
    paddle under its handle, and every object in it is a paddle or a brick
    registered under the handle of its own item; the items of the ball, of
    the HUD and of the message are not in it, so [check_collisions] never
    hands them to [Ball.collide]. *)
Theorem registry_of_obstacles `{T : Toolkit} `{!LawfulToolkit T} (w0 : Z)
    (es : list event) :
  let w := snd (play es (new_game w0)) in
  (exists (p : loc) (pit : item) pb,
     paddle w = Some p /\ heap w !! p = Some (PaddleObj pit 80 10 pb) /\
     items w !! pit = Some p) /\
  (forall (i : item) (l : loc),
     items w !! i = Some l ->
     (exists wd ht pb, heap w !! l = Some (PaddleObj i wd ht pb)) \/
     (exists wd ht hits, heap w !! l = Some (BrickObj i wd ht hits))) /\
  (exists (b : loc) (bit : item) r d s,
     ball w = Some b /\ heap w !! b = Some (BallObj bit r d s) /\
     items w !! bit = None) /\
  (exists h : item, hud w = Some h /\ items w !! h = None) /\
  (forall t : item, text w = Some t -> items w !! t = None).
Proof.
  cbv zeta.
  destruct (reach_sane w0 es)
    as (_ & b & bit & p & pit & h & r & d & s & Hcore & Hb & _).
  split; [|split; [|split; [|split]]].
  - destruct (c_paddle_obj _ _ _ _ _ _ _ Hcore) as (pb & Hp & _).
    exists p, pit, pb. split; [exact (c_paddle _ _ _ _ _ _ _ Hcore)|].
    split; [exact Hp|exact (c_paddle_reg _ _ _ _ _ _ _ Hcore)].
  - intros i l Hi.
    destruct (c_listed _ _ _ _ _ _ _ Hcore i l Hi) as (o & Ho & Hit & Hlist).
    destruct o as [it r' d' s'|it wd ht pb|it wd ht hits];
      cbn [obj_item] in Hit; subst it.
    + destruct Hlist.
    + left. now exists wd, ht, pb.
    + right. now exists wd, ht, hits.
  - exists b, bit, r, d, s. split; [exact (c_ball _ _ _ _ _ _ _ Hcore)|].
    split; [exact Hb|exact (c_ball_free _ _ _ _ _ _ _ Hcore)].
  - exists h. split; [exact (c_hud _ _ _ _ _ _ _ Hcore)|].
    exact (proj2 (c_hud_free _ _ _ _ _ _ _ Hcore)).
  - intros t Ht.
    destruct (c_text _ _ _ _ _ _ _ Hcore t Ht) as (_ & _ & Hfree & _).
    exact Hfree.
Qed.

Lemma registry_of_obstacles_witness :
  exists (b : loc) (bit : item) r d s,
    ball (snd (@play box_toolkit (round 30) (new_game 604))) = Some b /\
    heap (snd (@play box_toolkit (round 30) (new_game 604))) !! b =
      Some (BallObj bit r d s) /\
    items (snd (@play box_toolkit (round 30) (new_game 604))) !! bit = None.
Proof.
  exact (proj1 (proj2 (proj2
           (@registry_of_obstacles box_toolkit box_lawful 604 (round 30))))).
Defined.

(** X11.  [check_collisions] when none of the handles reported by
    [find_overlapping] is registered in [items] (the ball's own item always
    overlaps it and never is): it returns normally and changes nothing,
    neither the direction of the ball nor any brick. *)
Theorem check_collisions_idle `{T : Toolkit} (w : World) (b : loc) ob
    x0 y0 x1 y1 :
  ball w = Some b ->
  heap w !! b = Some ob ->
  Tk.coords (obj_item ob) (canvas w) = [x0; y0; x1; y1] ->
  omap (fun x => items w !! x) (find_overlapping (canvas w) x0 y0 x1 y1) = [] ->
  Game.check_collisions w = (Ret tt, w).
Proof.
  intros Hball Hb Hc Hnone.
  rewrite (check_collisions_run w b ob x0 y0 x1 y1 Hball Hb Hc), Hnone.
  unfold Ball.collide.
  rewrite (bind_ret _ _ _ _ _ (get_position_some _ _ _ Hb)), Hc.
  reflexivity.
Qed.

Lemma check_collisions_idle_witness :
  @Game.check_collisions box_toolkit (new_game 604) = (Ret tt, new_game 604).
Proof.
  apply (@check_collisions_idle box_toolkit (new_game 604) 26%positive
           (BallObj 26%positive 10 (1, -1) (Some 10))
           (9280 # 32)%Q 300%Q (9920 # 32)%Q 320%Q);
    vm_compute; reflexivity.
Defined.

(** ** What the callbacks leave alone *)

(** A property of the world that depends only on the canvas, on [items],
    on the paddle and on the height, and is kept by deleting, recoloring,
    relabeling and moving canvas items and by creating items without the
    'brick' tag, is kept by every callback: none of them builds a brick,
    registers an object or replaces the paddle. *)
Section Untouched.
Variable I : World -> Prop.
Hypothesis I_frame : forall w w',
    canvas w' = canvas w -> items w' = items w -> paddle w' = paddle w ->
    height w' = height w -> I w -> I w'.
Hypothesis I_create : forall w it,
    "brick"%string ∉ ci_tags it ->
    I w -> I (with_canvas (snd (Tk.create it (canvas w))) w).
Hypothesis I_delete : forall w i,
    I w -> I (with_canvas (Tk.delete i (canvas w)) w).
Hypothesis I_fill : forall w i col,
    I w -> I (with_canvas (Tk.itemconfig_fill i col (canvas w)) w).
Hypothesis I_text : forall w i s,
    I w -> I (with_canvas (Tk.itemconfig_text i s (canvas w)) w).
Hypothesis I_move : forall w i dx dy,
    I w -> I (with_canvas (Tk.move i dx dy (canvas w)) w).

Ltac untouched_go :=
  repeat
    match goal with
    | |- keeps _ (ret _) => apply keeps_ret
    | |- keeps _ (raise _) => apply keeps_raise
    | |- keeps _ (gets _) => apply keeps_gets
    | |- keeps _ (index _ _) => apply keeps_index
    | |- keeps _ (deref _) => apply keeps_deref
    | |- keeps _ (alloc _) =>
        let w := fresh "w" in
        let Hw := fresh in
        intros w Hw; now apply (I_frame w)
    | |- keeps _ (create _) =>
        let Hw := fresh in
        intros ? Hw; apply I_create; [apply not_elem_of_nil|exact Hw]
    | |- keeps _ (modify _) =>
        let w := fresh "w" in
        let Hw := fresh in
        apply keeps_modify; intros w Hw;
        first [ now apply (I_frame w) | apply I_delete, Hw
              | apply I_fill, Hw | apply I_text, Hw | apply I_move, Hw ]
    | |- keeps _ (bind _ _) => apply keeps_bind; [|intros ?]
    | |- keeps _ (for_each _ _) => apply keeps_for_each; intros ?
    | |- keeps _ (if ?c then _ else _) => destruct c
    | |- keeps _ (match ?x with _ => _ end) => destruct x
    end.

Lemma untouched_hit l : keeps I (Brick.hit l).
Proof.
  unfold Brick.hit, GameObject.delete, Brick.color, store, on_canvas.
  untouched_go.
Qed.

Lemma untouched_collide b objs :
  keeps I (Ball.collide b objs).
Proof.
  unfold Ball.collide, Ball.flip_y, Ball.set_x, Ball.set_direction,
    Ball.get_direction, GameObject.get_position, store.
  repeat first [progress untouched_go | apply untouched_hit].
Qed.

Lemma untouched_update b : keeps I (Ball.update b).
Proof.
  unfold Ball.update, Ball.flip_x, Ball.flip_y, Ball.set_direction,
    Ball.get_direction, Ball.get_speed, Ball.times_speed,
    GameObject.get_position, GameObject.move, store, on_canvas.
  untouched_go.
Qed.

Lemma untouched_slide p offset :
  keeps I (Paddle.slide p offset).
Proof.
  unfold Paddle.slide, Paddle.get_ball, GameObject.get_position,
    GameObject.move, on_canvas.
  untouched_go.
Qed.

Lemma untouched_setup_game : keeps I Game.setup_game.
Proof.
  unfold Game.setup_game, Game.add_ball, Game.update_lives_text,
    Game.draw_text, Game.bind_key, Game.the_paddle, Ball.init,
    Paddle.set_ball, GameObject.get_position, GameObject.delete, store,
    on_canvas.
  untouched_go.
Qed.

Lemma untouched_game_loop `{T : Toolkit} :
  keeps I Game.game_loop.
Proof.
  unfold Game.game_loop, Game.check_collisions.
  unfold Game.the_ball, Game.draw_text, Game.after, Ball.set_speed,
    GameObject.get_position, store.
  repeat first
    [ progress untouched_go | apply untouched_collide | apply untouched_update
    | apply untouched_setup_game ].
Qed.

Lemma untouched_fire `{T : Toolkit} cb :
  keeps I (Game.fire cb).
Proof.
  destruct cb; cbn [Game.fire].
  - unfold Game.the_paddle.
    repeat first [progress untouched_go | apply untouched_slide].
  - unfold Game.start_game, Game.unbind, Game.the_paddle, Paddle.set_ball,
      store, on_canvas.
    repeat first [progress untouched_go | apply untouched_game_loop].
  - apply untouched_game_loop.
Qed.

Lemma untouched_play `{T : Toolkit} es :
  keeps I (play es).
Proof.
  unfold play. apply keeps_for_each. intros e.
  destruct e as [key|]; cbn [handle].
  - apply keeps_bind; [apply keeps_gets|]. intros bd.
    destruct (bd !! key); [apply untouched_fire|apply keeps_ret].
  - unfold next_timer. apply keeps_bind; [apply keeps_gets|]. intros ts.
    destruct ts as [|[ms cb] rest]; [apply keeps_ret|].
    apply keeps_bind; [|intros _; apply untouched_fire].
    apply keeps_modify. intros w Hw. now apply (I_frame w).
Qed.

End Untouched.

Lemma NoDup_find_withtag tag c : NoDup (Tk.find_withtag tag c).
Proof. apply NoDup_fst_map_to_list. Qed.

(** X12.  No callback builds a brick.  From any state and with any
    toolkit, after any run of key presses and timers (also one that ends
    in an exception) every canvas item tagged 'brick' was there and tagged
    'brick' before, so the number that [game_loop] counts never goes up. *)
Theorem no_new_bricks `{T : Toolkit} (es : list event) (w : World) :
  let w' := snd (play es w) in
  (forall i : item,
     i ∈ Tk.find_withtag "brick" (canvas w') ->
     i ∈ Tk.find_withtag "brick" (canvas w)) /\
  (length (Tk.find_withtag "brick" (canvas w')) <=
   length (Tk.find_withtag "brick" (canvas w)))%nat.
Proof.
  cbv zeta.
  set (I := fun w' : World => forall i : item,
              i ∈ Tk.find_withtag "brick" (canvas w') ->
              i ∈ Tk.find_withtag "brick" (canvas w)).
  assert (Hsub : I (snd (play es w))).
  { apply keeps_snd; [|now intros i Hi].
    apply untouched_play; subst I; cbv beta.
    - intros w1 w2 Hc _ _ _ Hw. now rewrite Hc.
    - intros w1 it Hno Hc i Hi. apply Hc.
      apply elem_of_find_withtag in Hi as (ci & Hci & Htag).
      apply elem_of_find_withtag. cbn in Hci.
      destruct (decide (c_next (canvas w1) = i)) as [E|Hne].
      + rewrite E, lookup_insert_eq in Hci. injection Hci as <-.
        contradiction.
      + rewrite lookup_insert_ne in Hci by exact Hne. now exists ci.
    - intros w1 j Hc i Hi. apply Hc.
      apply elem_of_find_withtag in Hi as (ci & Hci & Htag).
      apply elem_of_find_withtag. cbn in Hci.
      apply lookup_delete_Some in Hci as [_ Hci]. now exists ci.
    - intros w1 j col Hc i Hi. apply Hc.
      apply elem_of_find_withtag in Hi as (ci & Hci & Htag).
      apply elem_of_find_withtag. cbn in Hci.
      destruct (decide (j = i)) as [E|Hne].
      + rewrite E, lookup_alter_eq in Hci.
        destruct (c_items (canvas w1) !! i) as [ci0|]; [|discriminate].
        injection Hci as <-. now exists ci0.
      + rewrite lookup_alter_ne in Hci by exact Hne. now exists ci.
    - intros w1 j s Hc i Hi. apply Hc.
      apply elem_of_find_withtag in Hi as (ci & Hci & Htag).
      apply elem_of_find_withtag. cbn in Hci.
      destruct (decide (j = i)) as [E|Hne].
      + rewrite E, lookup_alter_eq in Hci.
        destruct (c_items (canvas w1) !! i) as [ci0|]; [|discriminate].
        injection Hci as <-. now exists ci0.
      + rewrite lookup_alter_ne in Hci by exact Hne. now exists ci.
    - intros w1 j dx dy Hc i Hi. apply Hc.
      apply elem_of_find_withtag in Hi as (ci & Hci & Htag).
      apply elem_of_find_withtag. cbn in Hci.
      destruct (decide (j = i)) as [E|Hne].
      + rewrite E, lookup_alter_eq in Hci.
        destruct (c_items (canvas w1) !! i) as [ci0|]; [|discriminate].
        injection Hci as <-. now exists ci0.
      + rewrite lookup_alter_ne in Hci by exact Hne. now exists ci. }
  split; [exact Hsub|].
  apply submseteq_length, NoDup_submseteq; [apply NoDup_find_withtag|].
  exact Hsub.
Qed.

(** X13.  The callbacks never write [items], [paddle], [height] or the
    width of the widget: after any run from any state they are what they
    were, so a destroyed brick stays registered and the paddle is never
    replaced. *)
Theorem registry_is_fixed `{T : Toolkit} (es : list event) (w : World) :
  let w' := snd (play es w) in
  items w' = items w /\ paddle w' = paddle w /\ height w' = height w /\
  winfo_width (canvas w') = winfo_width (canvas w).
Proof.
  cbv zeta.
  apply (keeps_snd
           (fun w' => items w' = items w /\ paddle w' = paddle w /\
                      height w' = height w /\
                      winfo_width (canvas w') = winfo_width (canvas w)));
    [|now repeat split].
  apply untouched_play.
  - intros w1 w2 Hc Hi Hp Hh (? & ? & ? & ?).
    rewrite Hc, Hi, Hp, Hh. now repeat split.
  - intros w1 it _ Hw. exact Hw.
  - intros w1 i Hw. exact Hw.
  - intros w1 i col Hw. exact Hw.
  - intros w1 i s Hw. exact Hw.
  - intros w1 i dx dy Hw. exact Hw.
Qed.
